(** * Blog platform API: request pipeline

  A shallow embedding of the server-side request pipeline of the blog
  platform (Express handlers over a Mongoose document store) and the
  properties its specification states about it:

  - [regex]          the regular expressions of the sources
  - [validator]      utils/validator.js    (validators, HTML escaping)
  - [models]         models/Post.js, models/User.js
  - [posts]          routes/posts.js       (ownership checks, likes, comments)
  - [helpers]        utils/helpers.js      (formatting, pages, slugs)
  - [logger]         utils/logger.js       (console and file logging)
  - [performanceMonitoring]  middleware/performanceMonitoring.js
                                           (response time tracking)
  - [errorHandler]   middleware/errorHandler.js
  - [auth]           middleware/auth.js    (bearer-token gate)
  - [authRoutes]     routes/auth.js        (registration)

  Definitions come first, the theorems about them follow. *)

From Stdlib Require QArith.
From Stdlib Require Import ZArith NArith Ascii String List Bool Lia Sorted Permutation.
From stdpp Require Import base option list gmap strings fin_maps pretty sorting.

Local Open Scope string_scope.

(** Mongoose ObjectIds are compared through [toString()] everywhere in the
  handlers; an identifier is modelled by that string. *)
Abbreviation ObjectId := string (only parsing).

(** Timestamps ([Date]) in their ISO-8601 rendering. *)
Abbreviation Timestamp := string (only parsing).

(* ================================================================== *)
(** * Regular expressions *)
(* ================================================================== *)

Module regex.

(** The regular expressions of the sources, over UTF-16 code units: character
    classes, sequence, alternative and repetition. *)
Inductive re : Type :=
  | Void
  | Eps
  | Chr (cls : N -> bool)
  | Cat (r1 r2 : re)
  | Alt (r1 r2 : re)
  | Star (r : re).

(** [r+] and [r{n}] *)
Definition Plus (r : re) : re := Cat r (Star r).

Fixpoint Times (n : nat) (r : re) : re :=
  match n with
  | O => Eps
  | S n' => Cat r (Times n' r)
  end.

Fixpoint nullable (r : re) : bool :=
  match r with
  | Void => false
  | Eps => true
  | Chr _ => false
  | Cat r1 r2 => nullable r1 && nullable r2
  | Alt r1 r2 => nullable r1 || nullable r2
  | Star _ => true
  end.

(** What is left of [r] to match after the code unit [c]. *)
Fixpoint deriv (c : N) (r : re) : re :=
  match r with
  | Void => Void
  | Eps => Void
  | Chr cls => if cls c then Eps else Void
  | Cat r1 r2 =>
      if nullable r1 then Alt (Cat (deriv c r1) r2) (deriv c r2)
      else Cat (deriv c r1) r2
  | Alt r1 r2 => Alt (deriv c r1) (deriv c r2)
  | Star r1 => Cat (deriv c r1) (Star r1)
  end.

(** [/^r$/.test(s)]: the whole of [s] matches [r]. *)
Definition test_whole (r : re) (s : list N) : bool :=
  nullable (fold_left (fun r c => deriv c r) s r).

(** The class [\s]: white space and line terminators. *)
Definition whitespace (c : N) : bool :=
  existsb (N.eqb c)
    [9; 10; 11; 12; 13; 32; 160; 5760; 8232; 8233; 8239; 8287; 12288; 65279]%N
  || ((8192 <=? c)%N && (c <=? 8202)%N).

Definition between (lo hi : N) (c : N) : bool := (lo <=? c)%N && (c <=? hi)%N.

(** The classes [A-Z], [a-z], [0-9] and [\w]. *)
Definition upper (c : N) : bool := between 65 90 c.
Definition lower (c : N) : bool := between 97 122 c.
Definition digit (c : N) : bool := between 48 57 c.
Definition word (c : N) : bool := upper c || lower c || digit c || (c =? 95)%N.

End regex.

(* ================================================================== *)
(** * utils/validator.js *)
(* ================================================================== *)

Module validator.

(** A JavaScript string is a sequence of UTF-16 code units; [length] counts
    code units. *)
Abbreviation JsString := (list N) (only parsing).

Definition of_string (s : string) : JsString :=
  map N_of_ascii (list_ascii_of_string s).

(** [regex.test(s)] for a regular expression that is a single character
    class: some code unit of [s] belongs to the class. *)
Definition class_test (cls : N -> bool) (s : JsString) : bool :=
  existsb cls s.

Definition in_range (lo hi : string) (c : N) : bool :=
  match of_string lo, of_string hi with
  | [l], [h] => (l <=? c)%N && (c <=? h)%N
  | _, _ => false
  end.

(** [/[A-Z]/], [/[a-z]/] and [/\d/] (no unicode flag: ASCII digits). *)
Definition upper_class : N -> bool := in_range "A" "Z".
Definition lower_class : N -> bool := in_range "a" "z".
Definition digit_class : N -> bool := in_range "0" "9".

(** The members of the special-character class of the source's fourth
  regular expression: the thirteen characters of the first literal, the
  double quote (code unit 34), and the six characters of the second. *)
Definition special_chars : list N :=
  of_string "!@#$%^&*(),.?" ++ [34%N] ++ of_string ":{}|<>".

Definition special_class (c : N) : bool :=
  existsb (N.eqb c) special_chars.

Definition isStrongPassword (password : JsString) : bool :=
  if (List.length password <? 8)%nat then false
  else
    let hasUpperCase := class_test upper_class password in
    let hasLowerCase := class_test lower_class password in
    let hasNumbers := class_test digit_class password in
    let hasSpecialChar := class_test special_class password in
    hasUpperCase && hasLowerCase && hasNumbers && hasSpecialChar.

(** [/^[^\s@]+@[^\s@]+\.[^\s@]+$/]: 64 is the at sign, 46 the dot. *)
Definition email_class (c : N) : bool :=
  negb (regex.whitespace c || (c =? 64)%N).

Definition emailRegex : regex.re :=
  regex.Cat (regex.Plus (regex.Chr email_class))
    (regex.Cat (regex.Chr (N.eqb 64))
       (regex.Cat (regex.Plus (regex.Chr email_class))
          (regex.Cat (regex.Chr (N.eqb 46))
             (regex.Plus (regex.Chr email_class))))).

Definition isValidEmail (email : JsString) : bool :=
  regex.test_whole emailRegex email.

(** [/^[a-zA-Z0-9_]+$/] *)
Definition usernameRegex : regex.re :=
  regex.Plus
    (regex.Chr (fun c => regex.lower c || regex.upper c || regex.digit c
                         || (c =? 95)%N)).

Definition isValidUsername (username : JsString) : bool :=
  match username with
  | [] => false
  | _ =>
      if (List.length username <? 3)%nat || (20 <? List.length username)%nat
      then false
      else regex.test_whole usernameRegex username
  end.

(** [s.replace(/c/g, replacement)] for a pattern that is one character and a
    replacement without dollar patterns. *)
Definition replace_all (c : N) (replacement : string) (s : JsString) : JsString :=
  flat_map (fun x => if (x =? c)%N then of_string replacement else [x]) s.

(** The ampersand, the angle brackets, the double quote, the apostrophe and
    the slash are the code units 38, 60, 62, 34, 39 and 47. *)
Definition sanitizeHtml (content : JsString) : JsString :=
  match content with
  | [] => []
  | _ =>
      replace_all 47 "&#x2F;"
        (replace_all 39 "&#x27;"
           (replace_all 34 "&quot;"
              (replace_all 62 "&gt;"
                 (replace_all 60 "&lt;"
                    (replace_all 38 "&amp;" content)))))
  end.

(** [/^[0-9a-fA-F]{24}$/] *)
Definition hex_class (c : N) : bool :=
  regex.digit c || regex.between 97 102 c || regex.between 65 70 c.

Definition objectIdRegex : regex.re := regex.Times 24 (regex.Chr hex_class).

Definition isValidObjectId (id : JsString) : bool :=
  regex.test_whole objectIdRegex id.

End validator.

(* ================================================================== *)
(** * models/Post.js and models/User.js *)
(* ================================================================== *)

Module models.

(** An embedded like: the liking user and the time of the like. *)
Record Like := mkLike {
  like_user : ObjectId;
  like_createdAt : Timestamp
}.

Record Comment := mkComment {
  comment_user : ObjectId;
  comment_content : string;
  comment_createdAt : Timestamp
}.

(** Modelled from the spec: the post document of models/Post.js (the schema
    file is not among the sources), with the fields of the data model: title,
    content, owning user, tag list, published flag, embedded likes and
    comments. The identifier [_id] is the key of the document in its
    collection; the timestamps Mongoose maintains on its own are left out. *)
Record Post := mkPost {
  title : string;
  content : string;
  author : ObjectId;
  tags : list string;
  isPublished : bool;
  likes : list Like;
  comments : list Comment
}.

(** Modelled from the spec: the derived attributes of models/Post.js, computed
    from the list lengths and not stored. *)
Definition likeCount (post : Post) : nat := List.length (likes post).
Definition commentCount (post : Post) : nat := List.length (comments post).

(** The fields an update may carry (the [updateData] object of the PUT
    handler). *)
Record UpdateData := mkUpdate {
  upd_title : option string;
  upd_content : option string;
  upd_tags : option (list string)
}.

Definition applyUpdate (u : UpdateData) (post : Post) : Post :=
  {| title := default (title post) (upd_title u);
     content := default (content post) (upd_content u);
     author := author post;
     tags := default (tags post) (upd_tags u);
     isPublished := isPublished post;
     likes := likes post;
     comments := comments post |}.

(** The posts collection, keyed by document identifier. *)
Abbreviation Posts := (gmap string Post) (only parsing).

(** What awaiting a query gives: the value the promise resolves to, or a
    rejection, which the handlers catch. *)
Inductive Query (A : Type) : Type :=
  | Resolved (a : A)
  | Rejected.
Arguments Resolved {A} a.
Arguments Rejected {A}.

Section Queries.

(** Whether Mongoose casts the string to an ObjectId: the library is not
    among the sources. *)
Variable castObjectId : ObjectId -> bool.

(** Modelled from the spec: the queries of the Post model (Mongoose, over
    models/Post.js). A stored document is found under its identifier. For an
    identifier under which nothing is stored, [findById] resolves to null
    when the identifier can be cast to an ObjectId and is rejected with a
    CastError when it cannot. [save] is [post.save()] on a document loaded
    under [id], and writes it back under that identifier. *)
Definition findById (id : ObjectId) (db : Posts) : Query (option Post) :=
  match db !! id with
  | Some post => Resolved (Some post)
  | None => if castObjectId id then Resolved None else Rejected
  end.

End Queries.

Definition save (id : ObjectId) (post : Post) (db : Posts) : Posts :=
  <[id := post]> db.

Definition findByIdAndDelete (id : ObjectId) (db : Posts) : Posts :=
  delete id db.

Section Schema.

(** The schema of models/Post.js is not among the sources: casting an update
    through it (setters such as trimming, then the validators that
    [runValidators: true] asks for) is a parameter. [None] is a validation
    error, thrown to the caller. *)
Variable schemaCast : UpdateData -> option UpdateData.

(** Modelled from the spec: [Post.findByIdAndUpdate(id, update, {new: true,
    runValidators: true})] sets the fields of the cast update on the stored
    document and returns the new document (null when there is none). *)
Definition findByIdAndUpdate (id : ObjectId) (update : UpdateData) (db : Posts)
  : option (option Post * Posts) :=
  match schemaCast update with
  | None => None
  | Some u =>
      match db !! id with
      | None => Some (None, db)
      | Some post =>
          let post' := applyUpdate u post in
          Some (Some post', <[id := post']> db)
      end
  end.

End Schema.

(** Modelled from the spec: the limits of the post schema in the data model
    (title at most 100 characters, content at most 2000, each tag at most 20),
    as one instance of the schema parameter. *)
Definition specSchemaCast (u : UpdateData) : option UpdateData :=
  let short (n : nat) (s : string) := (String.length s <=? n)%nat in
  if from_option (short 100) true (upd_title u)
     && from_option (short 2000) true (upd_content u)
     && from_option (forallb (short 20)) true (upd_tags u)
  then Some u else None.

(** Modelled from the spec: the password rule of the user schema
    (models/User.js is not among the sources). Its unit test rejects a
    five-character password with the message that the password must be at
    least 6 characters; the schema accepts a password from six code units
    on. *)
Definition password_minlength : nat := 6.

Definition password_length_ok (password : validator.JsString) : bool :=
  (password_minlength <=? List.length password)%nat.

(** Modelled from the spec: the user record of the credential store
    (models/User.js is not among the sources): unique username, unique
    lowercased email, salted password hash, names, nullable avatar, active
    flag. *)
Record User := mkUser {
  username : string;
  email : string;
  password : string;
  firstName : string;
  lastName : string;
  avatar : option string;
  isActive : bool
}.

(** A user as handed outward: every field but the password hash
    ([select('-password')], and the JSON rendering of a user). *)
Record PublicUser := mkPublicUser {
  pub_id : ObjectId;
  pub_username : string;
  pub_email : string;
  pub_firstName : string;
  pub_lastName : string;
  pub_avatar : option string;
  pub_isActive : bool
}.

Definition without_password (id : ObjectId) (u : User) : PublicUser :=
  {| pub_id := id; pub_username := username u; pub_email := email u;
     pub_firstName := firstName u; pub_lastName := lastName u;
     pub_avatar := avatar u; pub_isActive := isActive u |}.

(** The users collection, keyed by document identifier. *)
Abbreviation Users := (gmap string User) (only parsing).

End models.

(* ================================================================== *)
(** * routes/posts.js *)
(* ================================================================== *)

Module posts.
Import models.

(** One entry of [validationResult(req).array()]. *)
Record FieldError := mkFieldError {
  fe_path : string;
  fe_msg : string
}.

(** What a handler of this router reads from the request. [validation] is the
    outcome of the express-validator chain that ran before the handler, [user]
    is [req.user._id], attached by the auth gate. *)
Record Request := mkRequest {
  params_id : ObjectId;
  user : ObjectId;
  body_title : option string;
  body_content : option string;
  body_tags : option (list string);
  validation : list FieldError
}.

Inductive Data : Type :=
  | NoData
  | DataPost (post : option Post)
  | DataLike (liked : bool) (count : nat).

(** [res.status(code).json({status, message, errors, data})]. *)
Record Response := mkResponse {
  code : nat;
  status : string;
  message : string;
  errors : list FieldError;
  data : Data
}.

Definition error_json (c : nat) (msg : string) : Response :=
  {| code := c; status := "error"; message := msg; errors := []; data := NoData |}.

Definition success_json (msg : string) (d : Data) : Response :=
  {| code := 200; status := "success"; message := msg; errors := []; data := d |}.

Definition validation_failed (errs : list FieldError) : Response :=
  {| code := 400; status := "error"; message := "Validation failed";
     errors := errs; data := NoData |}.

(** JavaScript truthiness of an optional string: [undefined] and the empty
    string are falsy. *)
Definition truthy (s : option string) : option string :=
  match s with
  | Some "" => None
  | other => other
  end.

(** The answer of the comment route: [data] holds the added comment and the
    comment count. *)
Record CommentResponse := mkCommentResponse {
  comment_code : nat;
  comment_status : string;
  comment_message : string;
  comment_errors : list FieldError;
  comment_data : option (option Comment * nat)
}.

Definition comment_error (c : nat) (msg : string) (errs : list FieldError)
  : CommentResponse :=
  {| comment_code := c; comment_status := "error"; comment_message := msg;
     comment_errors := errs; comment_data := None |}.

Definition with_likes (post : Post) (ls : list Like) : Post :=
  {| title := title post; content := content post;
     author := author post; tags := tags post; isPublished := isPublished post;
     likes := ls; comments := comments post |}.

Definition with_comments (post : Post) (cs : list Comment) : Post :=
  {| title := title post; content := content post;
     author := author post; tags := tags post; isPublished := isPublished post;
     likes := likes post; comments := cs |}.

Section Handlers.

Variable castObjectId : ObjectId -> bool.
Variable schemaCast : UpdateData -> option UpdateData.

(** The schema of models/Post.js is not among the sources: casting and
    validating the content of a pushed comment, which [post.save()] does, is
    a parameter. [None] is a validation error, thrown to the handler. *)
Variable commentCast : option string -> option string.

(** PUT /api/posts/:id. [populated] tells whether the query that populates
    the author of the updated post resolves; it runs after the update is
    stored, and its rejection is caught like every other. *)
Definition put (populated : bool) (req : Request) (db : Posts)
  : Response * Posts :=
  match validation req with
  | _ :: _ => (validation_failed (validation req), db)
  | [] =>
      match findById castObjectId (params_id req) db with
      | Rejected => (error_json 500 "Server error", db)
      | Resolved None => (error_json 404 "Post not found", db)
      | Resolved (Some post) =>
          if negb (String.eqb (author post) (user req)) then
            (error_json 403 "Not authorized to update this post", db)
          else
            let updateData :=
              {| upd_title := truthy (body_title req);
                 upd_content := truthy (body_content req);
                 upd_tags := body_tags req |} in
            match findByIdAndUpdate schemaCast (params_id req) updateData db with
            | Some (updatedPost, db') =>
                if populated then
                  (success_json "Post updated successfully" (DataPost updatedPost),
                   db')
                else (error_json 500 "Server error", db')
            | None => (error_json 500 "Server error", db)
            end
      end
  end.

(** DELETE /api/posts/:id *)
Definition del (req : Request) (db : Posts) : Response * Posts :=
  match findById castObjectId (params_id req) db with
  | Rejected => (error_json 500 "Server error", db)
  | Resolved None => (error_json 404 "Post not found", db)
  | Resolved (Some post) =>
      if negb (String.eqb (author post) (user req)) then
        (error_json 403 "Not authorized to delete this post", db)
      else
        (success_json "Post deleted successfully" NoData,
         findByIdAndDelete (params_id req) db)
  end.

(** POST /api/posts/:id/like. [now] is the creation time the schema gives the
    pushed like. *)
Definition like (now : Timestamp) (req : Request) (db : Posts) : Response * Posts :=
  match findById castObjectId (params_id req) db with
  | Rejected => (error_json 500 "Server error", db)
  | Resolved None => (error_json 404 "Post not found", db)
  | Resolved (Some post) =>
      let existingLike :=
        List.find (fun l => String.eqb (like_user l) (user req)) (likes post) in
      match existingLike with
      | Some _ =>
          let post' :=
            with_likes post
              (List.filter (fun l => negb (String.eqb (like_user l) (user req)))
                 (likes post)) in
          (success_json "Post unliked" (DataLike false (likeCount post')),
           save (params_id req) post' db)
      | None =>
          let post' :=
            with_likes post (likes post ++ [mkLike (user req) now]) in
          (success_json "Post liked" (DataLike true (likeCount post')),
           save (params_id req) post' db)
      end
  end.

(** POST /api/posts/:id/comment. [now] is the creation time the schema gives
    the pushed comment; [populated] tells whether the query that populates
    the comment authors resolves: it runs after the post is saved, and its
    rejection is answered 500 with the comment stored. *)
Definition comment (now : Timestamp) (populated : bool) (req : Request)
    (db : Posts) : CommentResponse * Posts :=
  match validation req with
  | _ :: _ => (comment_error 400 "Validation failed" (validation req), db)
  | [] =>
      match findById castObjectId (params_id req) db with
      | Rejected => (comment_error 500 "Server error" [], db)
      | Resolved None => (comment_error 404 "Post not found" [], db)
      | Resolved (Some post) =>
          match commentCast (body_content req) with
          | None => (comment_error 500 "Server error" [], db)
          | Some text =>
              let newComment := mkComment (user req) text now in
              let post' := with_comments post (comments post ++ [newComment]) in
              let db' := save (params_id req) post' db in
              if populated then
                let addedComment := last (comments post') in
                ({| comment_code := 201; comment_status := "success";
                    comment_message := "Comment added successfully";
                    comment_errors := [];
                    comment_data := Some (addedComment, commentCount post') |},
                 db')
              else (comment_error 500 "Server error" [], db')
          end
      end
  end.

End Handlers.

End posts.

(* ================================================================== *)
(** * utils/helpers.js *)
(* ================================================================== *)

Module helpers.
Import models.

(** A post as the formatter receives it: a plain object whose [likes] and
    [comments] may be missing. The fields the formatter copies unchanged are
    left out. *)
Record PostObject := mkPostObject {
  post_likes : option (list Like);
  post_comments : option (list Comment)
}.

Record PostResponse := mkPostResponse {
  likeCount : nat;
  commentCount : nat
}.

Definition formatPostResponse (post : option PostObject) : option PostResponse :=
  match post with
  | None => None
  | Some post =>
      Some {| likeCount :=
                match post_likes post with
                | Some ls => List.length ls
                | None => 0
                end;
              commentCount :=
                match post_comments post with
                | Some cs => List.length cs
                | None => 0
                end |}
  end.

(** A stored post as the formatter sees it. *)
Definition of_post (post : Post) : PostObject :=
  {| post_likes := Some (likes post); post_comments := Some (comments post) |}.

(** *** paginate *)

(** An integer argument. JavaScript has a zero with a minus sign besides
    the zero ([parseInt] of the text -0 gives it); the two are equal and
    differ as divisors only. *)
Inductive JsInt : Type :=
  | Whole (z : Z)
  | MinusZero.

Coercion Whole : Z >-> JsInt.

Definition value (n : JsInt) : Z :=
  match n with
  | Whole z => z
  | MinusZero => 0%Z
  end.

(** A number that need not be an integer: the page count is the ceiling of a
    quotient whose divisor the caller chooses. *)
Inductive JsNum : Type :=
  | Int (z : Z)
  | NegZero
  | Infinity
  | NegInfinity
  | NaN.

(** [Math.ceil(a / b)] for an array length [a] and an integer [b]. *)
Definition ceil_quotient (a : nat) (b : JsInt) : JsNum :=
  match b with
  | MinusZero => if (a =? 0)%nat then NaN else NegInfinity
  | Whole b =>
      if (b =? 0)%Z then (if (a =? 0)%nat then NaN else Infinity)
      else
        let q := (- ((- Z.of_nat a) / b))%Z in
        if (b <? 0)%Z && (q =? 0)%Z then NegZero else Int q
  end.

(** The index [Array.prototype.slice] makes of an integer argument: negative
    arguments count from the end, and both ends are clamped. *)
Definition relative_index (len : nat) (i : Z) : nat :=
  if (i <? 0)%Z then Z.to_nat (Z.max (Z.of_nat len + i) 0)
  else Z.to_nat (Z.min i (Z.of_nat len)).

Definition slice {A : Type} (array : list A) (start finish : Z) : list A :=
  let k := relative_index (List.length array) start in
  let final := relative_index (List.length array) finish in
  take (final - k) (drop k array).

Record Pagination := mkPagination {
  page : JsInt;
  limit : JsInt;
  total : nat;
  pages : JsNum;
  hasNext : bool;
  hasPrev : bool
}.

Record Paginated (A : Type) := mkPaginated {
  data : list A;
  pagination : Pagination
}.

Arguments data {A} _.
Arguments pagination {A} _.

(** The page and the limit are integers. The sign of a zero among the two
    indices makes no difference to [slice] and to the comparisons. *)
Definition paginate {A : Type} (array : list A) (page limit : JsInt)
  : Paginated A :=
  let startIndex := ((value page - 1) * value limit)%Z in
  let endIndex := (value page * value limit)%Z in
  {| data := slice array startIndex endIndex;
     pagination :=
       {| page := page;
          limit := limit;
          total := List.length array;
          pages := ceil_quotient (List.length array) limit;
          hasNext := (endIndex <? Z.of_nat (List.length array))%Z;
          hasPrev := (0 <? startIndex)%Z |} |}.

(** *** calculateReadingTime *)

(** [s.trim()]: [String.prototype.trim] removes what [\s] matches. *)
Fixpoint trimStart (s : list N) : list N :=
  match s with
  | [] => []
  | c :: rest => if regex.whitespace c then trimStart rest else s
  end.

Definition trimEnd (s : list N) : list N := rev (trimStart (rev s)).

Definition trim (s : list N) : list N := trimEnd (trimStart s).

(** [s.split(/[sep]+/)]: the pieces between the longest runs of separators;
    [in_run] tells that the code unit before [s] was a separator. A leading or
    trailing run leaves an empty piece, and the empty string is one empty
    piece. *)
Fixpoint split_runs (sep : N -> bool) (in_run : bool) (s : list N) : list (list N) :=
  match s with
  | [] => [[]]
  | c :: rest =>
      if sep c then
        if in_run then split_runs sep true rest
        else [] :: split_runs sep true rest
      else
        match split_runs sep false rest with
        | piece :: pieces => (c :: piece) :: pieces
        | [] => [[c]]
        end
  end.

Definition calculateReadingTime (text : list N) : Z :=
  match text with
  | [] => 0
  | _ =>
      let wordsPerMinute := 200%Z in
      let words := List.length (split_runs regex.whitespace false (trim text)) in
      let readingTime := (- ((- Z.of_nat words) / wordsPerMinute))%Z in
      readingTime
  end.

(** *** generateSlug *)

(** [s.replace(/[^\w\s-]/g, '')]: 45 is the hyphen. *)
Definition slug_kept (c : N) : bool :=
  regex.word c || regex.whitespace c || (c =? 45)%N.

Definition remove_special (s : list N) : list N := List.filter slug_kept s.

(** [s.replace(/[\s_-]+/g, '-')]: every longest run of white space,
    underscores and hyphens becomes one hyphen; [in_run] tells that the code
    unit before [s] belonged to a run. *)
Definition slug_separator (c : N) : bool :=
  regex.whitespace c || (c =? 95)%N || (c =? 45)%N.

Fixpoint hyphenate (in_run : bool) (s : list N) : list N :=
  match s with
  | [] => []
  | c :: rest =>
      if slug_separator c then
        if in_run then hyphenate true rest else 45%N :: hyphenate true rest
      else c :: hyphenate false rest
  end.

(** [s.replace(/^-+|-+$/g, '')]: the hyphens at the start and those at the
    end go. *)
Fixpoint strip_start (s : list N) : list N :=
  match s with
  | [] => []
  | c :: rest => if (c =? 45)%N then strip_start rest else s
  end.

Definition strip_hyphens (s : list N) : list N :=
  rev (strip_start (rev (strip_start s))).

Section Slug.

(** [String.prototype.toLowerCase], which follows the Unicode case
    mappings. *)
Variable toLowerCase : list N -> list N.

Definition generateSlug (title : list N) : list N :=
  match title with
  | [] => []
  | _ => strip_hyphens (hyphenate false (remove_special (toLowerCase title)))
  end.

End Slug.

(** *** generateRandomString *)

Definition chars : list N :=
  validator.of_string
    "ABCDEFGHIJKLMNOPQRSTUVWXYZabcdefghijklmnopqrstuvwxyz0123456789".

(** [chars.charAt(i)]: the empty string outside the string. *)
Definition charAt (s : list N) (i : nat) : list N :=
  match s !! i with
  | Some c => [c]
  | None => []
  end.

(** The loop body runs once for every index below [length]; [random i] is
    the value of [Math.floor(Math.random() * chars.length)] in the run for
    the index [i]. *)
Definition generateRandomString (length : nat) (random : nat -> nat) : list N :=
  flat_map (fun i => charAt chars (random i)) (seq 0 length).

End helpers.

(* ================================================================== *)
(** * The runtime the middleware runs in *)
(* ================================================================== *)

Module runtime.

(** JavaScript values as far as the middleware builds and passes them on.
    [VRef] is a reference to an object of the heap; [VObj] is an object
    literal, with its properties in insertion order. *)
#[warnings="-register-all"]
Inductive Value : Type :=
  | VUndefined
  | VNull
  | VBool (b : bool)
  | VNum (n : Z)
  | VStr (s : string)
  | VArr (items : list Value)
  | VObj (fields : list (string * Value))
  | VRef (l : nat).

Definition of_opt_str (o : option string) : Value :=
  from_option VStr VUndefined o.

(** Property read on an object literal. *)
Fixpoint obj_get (k : string) (fields : list (string * Value)) : Value :=
  match fields with
  | [] => VUndefined
  | (k', v) :: rest => if String.eqb k k' then v else obj_get k rest
  end.

Fixpoint obj_has (k : string) (fields : list (string * Value)) : bool :=
  match fields with
  | [] => false
  | (k', _) :: rest => String.eqb k k' || obj_has k rest
  end.

(** Property write: an existing key keeps its place, a new one goes last. *)
Fixpoint obj_set (k : string) (v : Value) (fields : list (string * Value))
  : list (string * Value) :=
  match fields with
  | [] => [(k, v)]
  | (k', v') :: rest =>
      if String.eqb k k' then (k, v) :: rest else (k', v') :: obj_set k v rest
  end.

(** [{...a, ...b}] *)
Definition obj_spread (a b : list (string * Value)) : list (string * Value) :=
  fold_left (fun acc kv => obj_set (fst kv) (snd kv) acc) b a.

(** The error object handed to the error middleware: what reading each of
    the properties the handler reads gives, be the property the object's own
    or inherited, enumerable or not. [err_errors] is the [errors] map of a
    validation error (field name, and the [message] of its entry); the four
    properties after it are only logged. [err_own] names the properties that
    are the object's own and enumerable: an error made by [new Error(m)] has
    none, its [message] and [stack] being not enumerable and its [name]
    inherited, while a property assigned to it afterwards is one. *)
Record JsError := mkError {
  err_name : option string;
  err_message : option string;
  err_stack : option string;
  err_code : option Z;
  err_status : option Z;
  err_statusCode : option Z;
  err_errors : option (list (string * option string));
  err_value : Value;
  err_path : Value;
  err_keyValue : Value;
  err_expiredAt : Value;
  err_own : list string
}.

(** Whether [k] names an own enumerable property of [o]. *)
Definition own (o : JsError) (k : string) : bool :=
  bool_decide (k ∈ err_own o).

Definition kept {A : Type} (o : JsError) (k : string) (absent v : A) : A :=
  if own o k then v else absent.

(** [{ ...o }]: the own enumerable properties of [o] and no other; what [o]
    inherits, or holds as a property that is not enumerable, is undefined in
    the copy. *)
Definition spread (o : JsError) : JsError :=
  {| err_name := kept o "name" None (err_name o);
     err_message := kept o "message" None (err_message o);
     err_stack := kept o "stack" None (err_stack o);
     err_code := kept o "code" None (err_code o);
     err_status := kept o "status" None (err_status o);
     err_statusCode := kept o "statusCode" None (err_statusCode o);
     err_errors := kept o "errors" None (err_errors o);
     err_value := kept o "value" VUndefined (err_value o);
     err_path := kept o "path" VUndefined (err_path o);
     err_keyValue := kept o "keyValue" VUndefined (err_keyValue o);
     err_expiredAt := kept o "expiredAt" VUndefined (err_expiredAt o);
     err_own := err_own o |}.

(** What a middleware does to the outside world. *)
Inductive Effect : Type :=
  | ConsoleLog (text : string)
  | ConsoleLogJson (color : string) (meta : list (string * Value))
  | AppendFile (file : string) (entry : list (string * Value))
  | Send (code : Z) (body : list (string * Value))
  | Next.

Record World := mkWorld {
  heap : gmap nat JsError;
  ticks : nat;
  trace : list Effect
}.

Inductive Result (A : Type) : Type :=
  | Ok (a : A)
  | Thrown (exn : string).
Arguments Ok {A} a.
Arguments Thrown {A} exn.

Definition M (A : Type) : Type := World -> Result A * World.

#[global] Instance M_ret : MRet M := fun A a w => (Ok a, w).

#[global] Instance M_bind : MBind M := fun A B k m w =>
  match m w with
  | (Ok a, w') => k a w'
  | (Thrown exn, w') => (Thrown exn, w')
  end.

Definition throw {A} (exn : string) : M A := fun w => (Thrown exn, w).

(** Property read [o.f] on the heap object at [l]. *)
Definition get {A} (l : nat) (f : JsError -> A) : M A := fun w =>
  match heap w !! l with
  | Some o => (Ok (f o), w)
  | None => (Thrown "TypeError", w)
  end.

(** A fresh object. *)
Definition alloc (o : JsError) : M nat := fun w =>
  let l := fresh (dom (heap w)) in
  (Ok l, {| heap := <[l := o]> (heap w); ticks := ticks w; trace := trace w |}).

(** Property write [o.message = m] on the heap object at [l]. *)
Definition set_message (l : nat) (m : option string) : M unit := fun w =>
  match heap w !! l with
  | Some o =>
      let o' :=
        {| err_name := err_name o; err_message := m; err_stack := err_stack o;
           err_code := err_code o; err_status := err_status o;
           err_statusCode := err_statusCode o; err_errors := err_errors o;
           err_value := err_value o; err_path := err_path o;
           err_keyValue := err_keyValue o; err_expiredAt := err_expiredAt o;
           err_own := if own o "message" then err_own o
                      else err_own o ++ ["message"] |} in
      (Ok tt, {| heap := <[l := o']> (heap w); ticks := ticks w; trace := trace w |})
  | None => (Thrown "TypeError", w)
  end.

Definition emit (e : Effect) : M unit := fun w =>
  (Ok tt, {| heap := heap w; ticks := ticks w; trace := trace w ++ [e] |}).

Record MemoryUsage := mkMemoryUsage {
  rss : N;
  heapTotal : N;
  heapUsed : N;
  external : N
}.

(** The process: [NODE_ENV] when the logger module was loaded and when the
    request is served, the clock (the ISO time of the n-th reading) and
    [process.memoryUsage()]. *)
Record Process := mkProcess {
  NODE_ENV_at_load : option string;
  NODE_ENV : option string;
  clock : nat -> Timestamp;
  memoryUsage : MemoryUsage
}.

(** [new Date().toISOString()] *)
Definition now (proc : Process) : M Timestamp := fun w =>
  (Ok (clock proc (ticks w)),
   {| heap := heap w; ticks := S (ticks w); trace := trace w |}).

(** JavaScript truthiness of the optional strings and numbers read here. *)
Definition truthy_str (s : option string) : bool :=
  match s with
  | None | Some "" => false
  | Some _ => true
  end.

Definition truthy_num (n : option Z) : bool :=
  match n with
  | None | Some 0%Z => false
  | Some _ => true
  end.

(** [items.join(sep)] *)
Fixpoint join (sep : string) (items : list string) : string :=
  match items with
  | [] => ""
  | [s] => s
  | s :: rest => s ++ sep ++ join sep rest
  end.

End runtime.

(* ================================================================== *)
(** * utils/logger.js *)
(* ================================================================== *)

Module logger.
Import runtime.

Definition ERROR : nat := 0.
Definition WARN : nat := 1.
Definition INFO : nat := 2.
Definition DEBUG : nat := 3.

Definition esc : string := String "027"%char "".

Definition colors_reset : string := esc ++ "[0m".
Definition colors_red : string := esc ++ "[31m".
Definition colors_yellow : string := esc ++ "[33m".
Definition colors_blue : string := esc ++ "[34m".
Definition colors_cyan : string := esc ++ "[36m".

(** [colorMap[levelName] || colors.reset], for the level names that name no
    property every object inherits (such as constructor), which is what the
    four logging functions pass. *)
Definition colorMap (levelName : string) : string :=
  if String.eqb levelName "ERROR" then colors_red
  else if String.eqb levelName "WARN" then colors_yellow
  else if String.eqb levelName "INFO" then colors_blue
  else if String.eqb levelName "DEBUG" then colors_cyan
  else colors_reset.

Section Logger.

Variable proc : Process.

(** Fixed when the module is loaded. *)
Definition currentLevel : nat :=
  if decide (NODE_ENV_at_load proc = Some "production") then INFO else DEBUG.

(** The line is kept as the entry it serialises ([JSON.stringify] is not
    modelled); appending cannot fail here. *)
Definition _writeToFile (logEntry : list (string * Value)) (levelName : string)
  : M unit :=
  emit (AppendFile "combined.log" logEntry);;
  if String.eqb levelName "ERROR" then emit (AppendFile "error.log" logEntry)
  else mret tt.

Definition _log (level : nat) (levelName message : string)
    (meta : list (string * Value)) : M unit :=
  if (currentLevel <? level)%nat then mret tt
  else
    timestamp ← now proc;
    let logEntry :=
      obj_spread
        [("timestamp", VStr timestamp); ("level", VStr levelName);
         ("message", VStr message)]
        meta in
    let color := colorMap levelName in
    emit (ConsoleLog
            (color ++ "[" ++ timestamp ++ "] " ++ levelName ++ ": " ++ message
               ++ colors_reset));;
    (if (0 <? List.length meta)%nat then emit (ConsoleLogJson color meta)
     else mret tt);;
    _writeToFile logEntry levelName.

Definition error (message : string) (meta : list (string * Value)) : M unit :=
  _log ERROR "ERROR" message meta.

Definition warn (message : string) (meta : list (string * Value)) : M unit :=
  _log WARN "WARN" message meta.

Definition info (message : string) (meta : list (string * Value)) : M unit :=
  _log INFO "INFO" message meta.

Definition debug (message : string) (meta : list (string * Value)) : M unit :=
  _log DEBUG "DEBUG" message meta.

(** [`${Math.round(bytes / 1024 / 1024)} MB`] *)
Definition megabytes (bytes : N) : Value :=
  VStr (pretty ((bytes + 524288) / 1048576)%N ++ " MB").

(** [performanceLogger.logMemoryUsage] *)
Definition logMemoryUsage : M unit :=
  let usage := memoryUsage proc in
  info "Memory Usage:"
    [("rss", megabytes (rss usage));
     ("heapTotal", megabytes (heapTotal usage));
     ("heapUsed", megabytes (heapUsed usage));
     ("external", megabytes (external usage))].

End Logger.

End logger.

(* ================================================================== *)
(** * middleware/performanceMonitoring.js *)
(* ================================================================== *)

Module performanceMonitoring.
Import runtime.

(** A [Map] from endpoints to counts: its entries in insertion order. *)
Abbreviation Counts := (list (string * nat)) (only parsing).

(** [map.get(k)] *)
Fixpoint map_get (k : string) (m : Counts) : option nat :=
  match m with
  | [] => None
  | (k', v) :: rest => if String.eqb k k' then Some v else map_get k rest
  end.

(** [map.set(k, v)]: an existing key keeps its place, a new one goes last. *)
Fixpoint map_set (k : string) (v : nat) (m : Counts) : Counts :=
  match m with
  | [] => [(k, v)]
  | (k', v') :: rest =>
      if String.eqb k k' then (k, v) :: rest else (k', v') :: map_set k v rest
  end.

(** What the tracker reads from the request: the method, the path of the
    matched route if there is one, and the path. *)
Record Request := mkRequest {
  method : string;
  route_path : option string;
  path : string
}.

Record Tracker := mkTracker {
  slow : Counts;
  errors : Counts
}.

(** [`${req.method} ${req.route?.path || req.path}`] *)
Definition endpoint_of (req : Request) : string :=
  method req ++ " "
  ++ (if truthy_str (route_path req) then default "" (route_path req)
      else path req).

(** [responseTimeTracker.track]: the duration is a number of milliseconds,
    not necessarily whole; the response argument is not read. *)
Definition track (req : Request) (duration : QArith_base.Q) (statusCode : Z)
    (t : Tracker) : Tracker :=
  let endpoint := endpoint_of req in
  let slow' :=
    if negb (QArith_base.Qle_bool duration (QArith_base.inject_Z 1000)) then
      let slowCount := default 0 (map_get endpoint (slow t)) in
      map_set endpoint (slowCount + 1) (slow t)
    else slow t in
  let errors' :=
    if (400 <=? statusCode)%Z then
      let errorCount := default 0 (map_get endpoint (errors t)) in
      map_set endpoint (errorCount + 1) (errors t)
    else errors t in
  {| slow := slow'; errors := errors' |}.

(** [entries.sort((a, b) => b[1] - a[1])]: by falling count, entries of equal
    count staying in their order ([Array.prototype.sort] is stable). [x]
    comes before the entries of [sorted] in the array. *)
Fixpoint insert_sorted (x : string * nat) (sorted : Counts) : Counts :=
  match sorted with
  | [] => [x]
  | y :: rest =>
      if (snd y <=? snd x)%nat then x :: y :: rest
      else y :: insert_sorted x rest
  end.

Definition sort_by_count (entries : Counts) : Counts :=
  fold_right insert_sorted [] entries.

Definition getSlowEndpoints (t : Tracker) : Counts :=
  take 10 (sort_by_count (slow t)).

Definition getErrorEndpoints (t : Tracker) : Counts :=
  take 10 (sort_by_count (errors t)).

Definition entries_value (entries : Counts) : Value :=
  VArr (map (fun e => VArr [VStr (fst e); VNum (Z.of_nat (snd e))]) entries).

Section Report.

Variable proc : Process.

Definition generateReport (t : Tracker) : M unit :=
  let slowEndpoints := getSlowEndpoints t in
  let errorEndpoints := getErrorEndpoints t in
  timestamp ← now proc;
  logger.info proc "Performance Report:"
    [("slowEndpoints", entries_value slowEndpoints);
     ("errorEndpoints", entries_value errorEndpoints);
     ("timestamp", VStr timestamp)].

End Report.

End performanceMonitoring.

(* ================================================================== *)
(** * middleware/errorHandler.js *)
(* ================================================================== *)

Module errorHandler.
Import runtime.

(** What the handler reads from the request. *)
Record Request := mkRequest {
  method : string;
  url : string;
  ip : Value;
  userAgent : Value;
  body : Value;
  params : Value;
  query : Value;
  authorization : option string;
  contentType : option string;
  requestId : option string
}.

(** An object literal [{ message, statusCode }]. *)
Definition rewritten (message : string) (statusCode : Z) : JsError :=
  {| err_name := None; err_message := Some message; err_stack := None;
     err_code := None; err_status := None; err_statusCode := Some statusCode;
     err_errors := None; err_value := VUndefined; err_path := VUndefined;
     err_keyValue := VUndefined; err_expiredAt := VUndefined;
     err_own := ["message"; "statusCode"] |}.

Section Handler.

Variable proc : Process.

Definition errorHandler (err : nat) (req : Request) : M unit :=
  (* let error = { ...err }; error.message = err.message; *)
  copy ← get err spread;
  error ← alloc copy;
  message ← get err err_message;
  set_message error message;;
  (* enhanced error logging with request context *)
  message ← get err err_message;
  stack ← get err err_stack;
  timestamp ← now proc;
  logger.error proc "🚨 Error Occurred:"
    [("error", of_opt_str message);
     ("stack", of_opt_str stack);
     ("request",
      VObj [("method", VStr (method req));
            ("url", VStr (url req));
            ("ip", ip req);
            ("userAgent", userAgent req);
            ("body", body req);
            ("params", params req);
            ("query", query req);
            ("headers",
             VObj [("authorization",
                    if truthy_str (authorization req) then VStr "***REDACTED***"
                    else VUndefined);
                   ("content-type", of_opt_str (contentType req))])]);
     ("timestamp", VStr timestamp)];;
  logger.logMemoryUsage proc;;
  (* Mongoose bad ObjectId *)
  name ← get err err_name;
  error ←
    (if bool_decide (name = Some "CastError") then
       error ← alloc (rewritten "Resource not found" 404);
       value ← get err err_value;
       path ← get err err_path;
       logger.warn proc "Cast Error:" [("value", value); ("path", path)];;
       mret error
     else mret error);
  (* Mongoose duplicate key *)
  code ← get err err_code;
  error ←
    (if bool_decide (code = Some 11000%Z) then
       error ← alloc (rewritten "Duplicate field value entered" 400);
       keyValue ← get err err_keyValue;
       logger.warn proc "Duplicate Key Error:" [("keyValue", keyValue)];;
       mret error
     else mret error);
  (* Mongoose validation error *)
  name ← get err err_name;
  error ←
    (if bool_decide (name = Some "ValidationError") then
       errors ← get err err_errors;
       match errors with
       | None => throw "TypeError"
       | Some errors =>
           let messages := map (fun val => default "" (snd val)) errors in
           error ← alloc (rewritten (join ", " messages) 400);
           logger.warn proc "Validation Error:"
             [("fields", VArr (map (fun val => VStr (fst val)) errors));
              ("messages", VArr (map (fun val => of_opt_str (snd val)) errors))];;
           mret error
       end
     else mret error);
  (* JWT errors *)
  name ← get err err_name;
  error ←
    (if bool_decide (name = Some "JsonWebTokenError") then
       error ← alloc (rewritten "Invalid token" 401);
       logger.warn proc "JWT Error:" [("type", VStr "invalid_token")];;
       mret error
     else mret error);
  name ← get err err_name;
  error ←
    (if bool_decide (name = Some "TokenExpiredError") then
       error ← alloc (rewritten "Token expired" 401);
       expiredAt ← get err err_expiredAt;
       logger.warn proc "JWT Error:"
         [("type", VStr "expired_token"); ("expiredAt", expiredAt)];;
       mret error
     else mret error);
  (* Rate limiting errors *)
  status ← get err err_status;
  error ←
    (if bool_decide (status = Some 429%Z) then
       error ← alloc (rewritten "Too many requests, please try again later" 429);
       logger.warn proc "Rate Limit Exceeded:" [("ip", ip req)];;
       mret error
     else mret error);
  (* Database connection errors *)
  name ← get err err_name;
  error ←
    (if bool_decide (name = Some "MongoNetworkError")
        || bool_decide (name = Some "MongooseServerSelectionError") then
       error ← alloc (rewritten "Database connection error" 503);
       message ← get err err_message;
       logger.error proc "Database Connection Error:"
         [("error", of_opt_str message)];;
       mret error
     else mret error);
  (* Prepare response *)
  message ← get error err_message;
  stack ← get err err_stack;
  timestamp ← now proc;
  let response :=
    obj_spread
      (obj_spread
         [("status", VStr "error");
          ("message",
           VStr (if truthy_str message then default "" message
                 else "Server Error"))]
         (if bool_decide (NODE_ENV proc = Some "development") then
            [("stack", of_opt_str stack); ("originalError", VRef err)]
          else []))
      [("timestamp", VStr timestamp);
       ("requestId",
        VStr (if truthy_str (requestId req) then default "" (requestId req)
              else "unknown"))] in
  (* Log response being sent *)
  statusCode ← get error err_statusCode;
  logger.debug proc "Error Response Sent:"
    [("statusCode", VNum (if truthy_num statusCode then default 0%Z statusCode
                          else 500%Z));
     ("message", obj_get "message" response);
     ("requestId", obj_get "requestId" response)];;
  statusCode ← get error err_statusCode;
  emit (Send (if truthy_num statusCode then default 0%Z statusCode else 500%Z)
          response).

End Handler.

End errorHandler.

(* ================================================================== *)
(** * middleware/auth.js *)
(* ================================================================== *)

Module auth.
Import models.

(** The three ways [jwt.verify(token, secret)] ends: the decoded payload, or
    one of the two errors of the token service. *)
Inductive Verdict : Type :=
  | Verified (userId : ObjectId)
  | InvalidSignature
  | Expired.

(** The internal channel a rejected token is logged on. *)
Inductive LogChannel : Type :=
  | LogInvalidToken
  | LogExpiredToken.

Record Request := mkRequest {
  authorization : option string;
  user : option PublicUser
}.

Record Response := mkResponse {
  code : nat;
  status : string;
  message : string
}.

(** The gate either answers itself, or attaches the user and calls
    [next()]. *)
Inductive Outcome : Type :=
  | Rejected (res : Response) (log : option LogChannel)
  | Continue (req : Request).

Definition next_called (o : Outcome) : bool :=
  match o with
  | Continue _ => true
  | Rejected _ _ => false
  end.

Fixpoint strip_prefix (p s : string) : option string :=
  match p, s with
  | EmptyString, _ => Some s
  | String a p', String b s' => if Ascii.eqb a b then strip_prefix p' s' else None
  | String _ _, EmptyString => None
  end.

(** The token of a header of the form [Bearer <token>]. *)
Definition bearer_token (header : string) : option string :=
  strip_prefix "Bearer " header.

Definition unauthorized (msg : string) : Response :=
  {| code := 401; status := "error"; message := msg |}.

Section Gate.

(** The token service: verification against the server secret. *)
Variable jwt_verify : string -> Verdict.

(** Modelled from the spec: the auth gate of middleware/auth.js (only its
    tests are among the sources). A request without the header is
    unauthenticated; a header that is not a bearer token, a token that fails
    verification (bad signature or expired, logged on different channels but
    answered alike) and a token whose user is gone are invalid tokens;
    otherwise the user, without the password hash, is attached to the request
    and the next handler runs. *)
Definition auth (users : Users) (req : Request) : Outcome :=
  match authorization req with
  | None => Rejected (unauthorized "No token, authorization denied") None
  | Some header =>
      match bearer_token header with
      | None => Rejected (unauthorized "Token is not valid") None
      | Some token =>
          match jwt_verify token with
          | InvalidSignature =>
              Rejected (unauthorized "Token is not valid") (Some LogInvalidToken)
          | Expired =>
              Rejected (unauthorized "Token is not valid") (Some LogExpiredToken)
          | Verified userId =>
              match users !! userId with
              | None => Rejected (unauthorized "Token is not valid") None
              | Some u =>
                  Continue {| authorization := authorization req;
                              user := Some (without_password userId u) |}
              end
          end
      end
  end.

End Gate.

End auth.

(* ================================================================== *)
(** * routes/auth.js *)
(* ================================================================== *)

Module authRoutes.
Import models.

(** The body of a registration request. *)
Record Registration := mkRegistration {
  reg_username : string;
  reg_email : string;
  reg_password : string;
  reg_firstName : string;
  reg_lastName : string
}.

Record Response := mkResponse {
  code : nat;
  status : string;
  message : option string;
  token : option string;
  user : option PublicUser
}.

(** [User.findOne({ $or: [{ email }, { username }] })], as a yes/no. *)
Definition taken (users : Users) (r : Registration) : bool :=
  bool_decide
    (map_Exists
       (fun _ u => email u = reg_email r \/ username u = reg_username r) users).

Section Register.

(** Password hashing and token issuance belong to libraries. *)
Variable hash : string -> string.
Variable sign : ObjectId -> string.

(** Modelled from the spec: the registration handler of routes/auth.js (only
    its tests are among the sources). A registration whose email or username
    is already in the credential store is answered 400 in the error envelope
    and stores nothing; any other one stores the user with the hashed
    password and answers 201 with a token (the spec fixes no message for
    that answer). Of the two messages the test
    suites expect for a duplicate, the one of the route's own unit test and of
    the auth integration suite is used. *)
Definition register (r : Registration) (users : Users) : Response * Users :=
  if taken users r then
    ({| code := 400; status := "error"; message := Some "User already exists";
        token := None; user := None |}, users)
  else
    let id := fresh (dom users) in
    let u :=
      {| username := reg_username r; email := reg_email r;
         password := hash (reg_password r); firstName := reg_firstName r;
         lastName := reg_lastName r; avatar := None; isActive := true |} in
    ({| code := 201; status := "success"; message := None;
        token := Some (sign id); user := Some (without_password id u) |},
     <[id := u]> users).

End Register.

End authRoutes.

(* ================================================================== *)
(** * Vocabulary of the specification *)
(* ================================================================== *)

(** ** Password strength *)

(** The character classes as the specification words them. *)
Definition is_uppercase (c : N) : Prop := (65 <= c <= 90)%N.
Definition is_lowercase (c : N) : Prop := (97 <= c <= 122)%N.
Definition is_digit (c : N) : Prop := (48 <= c <= 57)%N.

(** The code units of [! @ # $ % ^ & * ( ) , . ?], of the double quote and of
    [: { } | < >]. *)
Definition listed_special : list N :=
  [33; 64; 35; 36; 37; 94; 38; 42; 40; 41; 44; 46; 63; 34; 58; 123; 125; 124;
   60; 62]%N.

Definition contains (P : N -> Prop) (password : list N) : Prop :=
  exists c, In c password /\ P c.

(** ** Posts *)

(** The users of a like list, in order. *)
Definition likers (ls : list models.Like) : list ObjectId :=
  map models.like_user ls.

(** A like list with the entries of one user taken out. *)
Definition unliked (uid : ObjectId) (ls : list models.Like) : list models.Like :=
  List.filter (fun l => negb (String.eqb (models.like_user l) uid)) ls.

(** The like list stored for a post, if the post exists. *)
Definition likes_of (id : ObjectId) (db : gmap string models.Post)
  : option (list models.Like) :=
  models.likes <$> db !! id.

(** A sequence of like requests, each with the time it is served at. *)
Definition like_all (castObjectId : ObjectId -> bool)
    (reqs : list (Timestamp * posts.Request))
    (db : gmap string models.Post) : gmap string models.Post :=
  fold_left (fun db r => snd (posts.like castObjectId (fst r) (snd r) db)) reqs db.

(** At most one like per user. *)
Definition one_like_per_user (ls : list models.Like) : Prop :=
  NoDup (likers ls).

(** Sample data. *)
Definition sample_post : models.Post :=
  {| models.title := "Hello"; models.content := "First post";
     models.author := "alice"; models.tags := ["intro"];
     models.isPublished := true;
     models.likes := [models.mkLike "alice" "t0"; models.mkLike "bob" "t0"];
     models.comments := [] |}.

Definition sample_db : gmap string models.Post := {[ "p1" := sample_post ]}.

(** A cast for the samples, in which the strings of ASCII letters and digits
    stand for the ObjectIds. *)
Definition sample_cast (id : ObjectId) : bool :=
  forallb (fun c => regex.upper c || regex.lower c || regex.digit c)
    (validator.of_string id).

Definition sample_request (id uid : ObjectId) : posts.Request :=
  {| posts.params_id := id; posts.user := uid; posts.body_title := None;
     posts.body_content := None; posts.body_tags := None;
     posts.validation := [] |}.

(** An update whose title is present but empty: the validator chain of the
    PUT route reports it. *)
Definition sample_invalid_update (id uid : ObjectId) : posts.Request :=
  {| posts.params_id := id; posts.user := uid; posts.body_title := Some "";
     posts.body_content := None; posts.body_tags := None;
     posts.validation := [posts.mkFieldError "title" "Title cannot be empty"] |}.

Definition sample_update (id uid : ObjectId) : posts.Request :=
  {| posts.params_id := id; posts.user := uid;
     posts.body_title := Some "Hello again"; posts.body_content := None;
     posts.body_tags := Some ["intro"; "news"]; posts.validation := [] |}.

(** The update the PUT handler builds from the body of a request. *)
Definition update_of (req : posts.Request) : models.UpdateData :=
  {| models.upd_title := posts.truthy (posts.body_title req);
     models.upd_content := posts.truthy (posts.body_content req);
     models.upd_tags := posts.body_tags req |}.

(** What no update and no like may touch. *)
Definition same_owner_and_reactions (post post' : models.Post) : Prop :=
  models.author post' = models.author post
  /\ models.likes post' = models.likes post
  /\ models.comments post' = models.comments post
  /\ models.isPublished post' = models.isPublished post.

Definition same_owner_and_text (post post' : models.Post) : Prop :=
  models.author post' = models.author post
  /\ models.title post' = models.title post
  /\ models.content post' = models.content post
  /\ models.tags post' = models.tags post
  /\ models.comments post' = models.comments post
  /\ models.isPublished post' = models.isPublished post.

(** ** Error normalizer *)

Module normalizer.
Import runtime.
Local Open Scope list_scope.

(** A pattern of the normalizer: when it applies to an error, and the message
    and status code it answers. *)
Record Pattern := mkPattern {
  applies : JsError -> bool;
  answer : JsError -> string * Z
}.

(** The field messages of a validation error, joined. *)
Definition field_messages (e : JsError) : string :=
  join ", " (map (fun val => default "" (snd val)) (default [] (err_errors e))).

Definition named (name : string) (e : JsError) : bool :=
  bool_decide (err_name e = Some name).

(** The patterns in the order the specification lists them. *)
Definition patterns : list Pattern :=
  [ mkPattern (named "CastError") (fun _ => ("Resource not found", 404%Z));
    mkPattern (fun e => bool_decide (err_code e = Some 11000%Z))
      (fun _ => ("Duplicate field value entered", 400%Z));
    mkPattern (named "ValidationError") (fun e => (field_messages e, 400%Z));
    mkPattern (named "JsonWebTokenError") (fun _ => ("Invalid token", 401%Z));
    mkPattern (named "TokenExpiredError") (fun _ => ("Token expired", 401%Z));
    mkPattern (fun e => bool_decide (err_status e = Some 429%Z))
      (fun _ => ("Too many requests, please try again later", 429%Z));
    mkPattern
      (fun e => named "MongoNetworkError" e
                || named "MongooseServerSelectionError" e)
      (fun _ => ("Database connection error", 503%Z)) ].

(** The status code an error has of its own: its [statusCode] when that is
    an own enumerable property of the error, and none when the error inherits
    it or holds it as a property that is not enumerable. *)
Definition own_statusCode (e : JsError) : option Z :=
  if bool_decide ("statusCode" ∈ err_own e) then err_statusCode e else None.

(** The message and status code an answer is built from: those of the first
    pattern of [ps] that applies, else the error's message and its own status
    code. *)
Definition decided_by (ps : list Pattern) (e : JsError)
  : option string * option Z :=
  match List.find (fun p => applies p e) ps with
  | Some p => (Some (fst (answer p e)), Some (snd (answer p e)))
  | None => (err_message e, own_statusCode e)
  end.

(** The precedence of the specification: the earliest pattern that applies. *)
Definition earliest_match : JsError -> option string * option Z :=
  decided_by patterns.

(** The precedence of the handler: the latest pattern that applies. *)
Definition latest_match : JsError -> option string * option Z :=
  decided_by (rev patterns).

(** The status code and message sent: absent, empty or zero values give way
    to 500 and "Server Error". *)
Definition sent_code (a : option string * option Z) : Z :=
  if truthy_num (snd a) then default 0%Z (snd a) else 500%Z.

Definition sent_message (a : option string * option Z) : string :=
  if truthy_str (fst a) then default "" (fst a) else "Server Error".

(** How many patterns apply: each one logs once. *)
Definition applying (e : JsError) : nat :=
  fold_left (fun n p => (n + Nat.b2n (applies p e))%nat) patterns 0%nat.

(** The body of the answer to the error [e] stored at [err]. *)
Definition response_body (proc : Process) (err : nat) (e : JsError)
    (request_id : option string) (timestamp : Timestamp)
  : list (string * Value) :=
  [("status", VStr "error");
   ("message", VStr (sent_message (latest_match e)))]
  ++ (if bool_decide (NODE_ENV proc = Some "development")
      then [("stack", of_opt_str (err_stack e)); ("originalError", VRef err)]
      else [])
  ++ [("timestamp", VStr timestamp);
      ("requestId",
       VStr (if truthy_str request_id then default "" request_id
             else "unknown"))].

(** Effects that are logging. *)
Definition is_log (ef : Effect) : Prop :=
  match ef with
  | ConsoleLog _ | ConsoleLogJson _ _ | AppendFile _ _ => True
  | Send _ _ | Next => False
  end.

(** The answers in a trace, and the entries appended to a file. *)
Definition replies (tr : list Effect) : list (Z * list (string * Value)) :=
  omap (fun ef => match ef with Send c b => Some (c, b) | _ => None end) tr.

Definition appended (file : string) (tr : list Effect)
  : list (list (string * Value)) :=
  omap (fun ef =>
          match ef with
          | AppendFile f entry => if String.eqb f file then Some entry else None
          | _ => None
          end) tr.

(** The effects of one call of the logger at an enabled level. *)
Definition log_effects (levelName message : string)
    (meta : list (string * Value)) (timestamp : Timestamp) : list Effect :=
  let entry :=
    obj_spread
      [("timestamp", VStr timestamp); ("level", VStr levelName);
       ("message", VStr message)] meta in
  [ConsoleLog
     (logger.colorMap levelName ++ "[" ++ timestamp ++ "] " ++ levelName ++ ": "
        ++ message ++ logger.colors_reset)%string]
  ++ (if (0 <? List.length meta)%nat
      then [ConsoleLogJson (logger.colorMap levelName) meta] else [])
  ++ [AppendFile "combined.log" entry]
  ++ (if String.eqb levelName "ERROR" then [AppendFile "error.log" entry]
      else []).

Definition logged (proc : Process) (level : nat) (levelName message : string)
    (meta : list (string * Value)) (w : World) : World :=
  if (logger.currentLevel proc <? level)%nat then w
  else
    {| heap := heap w; ticks := S (ticks w);
       trace := trace w ++ log_effects levelName message meta (clock proc (ticks w)) |}.

(** A run from [w]: when it returns, the value and the world it ends with
    satisfy [Q]; when it throws, the exception and the world satisfy [E]. *)
Definition wp {A} (m : M A) (w : World) (Q : A -> World -> Prop)
    (E : string -> World -> Prop) : Prop :=
  match m w with
  | (Ok a, w') => Q a w'
  | (Thrown exn, w') => E exn w'
  end.

(** What a run of the handler leaves behind when started in [w] on the error
    [e]: the objects of [w] as they were, and new effects [logs] that are all
    logging and begin the error log with an entry carrying the stack. *)
Definition Logged (w : World) (e : JsError) (logs : list Effect) (w' : World)
  : Prop :=
  (forall l, is_Some (heap w !! l) -> heap w' !! l = heap w !! l)
  /\ Forall is_log logs
  /\ exists entry,
       head (appended "error.log" logs) = Some entry
       /\ obj_get "stack" entry = of_opt_str (err_stack e).

(** The worlds the handler passes through when started in [w0] on the error
    [e] stored at [err]: the objects of [w0] are as they were, the clock was
    read [n] times, and the effects so far are logging. *)
Record Passing (w0 : World) (err : nat) (e : JsError) (n : nat) (w : World)
  : Prop := mkPassing {
  passing_err : heap w !! err = Some e;
  passing_frame : forall l, is_Some (heap w0 !! l) -> heap w !! l = heap w0 !! l;
  passing_ticks : ticks w = (ticks w0 + n)%nat;
  passing_trace : exists logs, trace w = trace w0 ++ logs /\ Forall is_log logs
}.

(** ... and the local [error] holds an object whose message and status code
    are [a]. *)
Definition Holding (w0 : World) (err : nat) (e : JsError) (n : nat)
    (a : option string * option Z) (error : nat) (w : World) : Prop :=
  Passing w0 err e n w
  /\ exists o, heap w !! error = Some o
              /\ (err_message o, err_statusCode o) = a.

(** The same error with another stack. *)
Definition with_stack (stack : option string) (e : JsError) : JsError :=
  {| err_name := err_name e; err_message := err_message e; err_stack := stack;
     err_code := err_code e; err_status := err_status e;
     err_statusCode := err_statusCode e; err_errors := err_errors e;
     err_value := err_value e; err_path := err_path e;
     err_keyValue := err_keyValue e; err_expiredAt := err_expiredAt e;
     err_own := err_own e |}.

(** The world [w] with the error [e] stored at [err]. *)
Definition holding_error (err : nat) (e : JsError) (w : World) : World :=
  {| heap := <[err := e]> (heap w); ticks := ticks w; trace := trace w |}.

(** The effects a run from [w] to [w'] added. *)
Definition new_effects (w w' : World) : list Effect :=
  drop (List.length (trace w)) (trace w').

(** The answers a run of the handler from [w] sends. *)
Definition answers (proc : Process) (err : nat) (req : errorHandler.Request)
    (w : World) : list (Z * list (string * Value)) :=
  replies (new_effects w (snd (errorHandler.errorHandler proc err req w))).

(** The one case in which the handler throws instead of answering: a
    validation error that carries no [errors] map. *)
Definition bare_validation (e : JsError) : Prop :=
  err_name e = Some "ValidationError" /\ err_errors e = None.

(** The status code and the message of an answer. *)
Definition code_and_message (r : Z * list (string * Value)) : Z * Value :=
  (fst r, obj_get "message" (snd r)).

(** An effect the handler is entitled to: logging, or an answer. *)
Definition is_log_or_answer (ef : Effect) : Prop :=
  match ef with
  | Next => False
  | _ => True
  end.

(** Sample data: a plain error, a cast error that also carries the
    duplicate-key code, a validation error without its [errors] map, a
    request, and the world the handler is started in. *)
Definition plain_error (stack : option string) : JsError :=
  {| err_name := Some "Error"; err_message := Some "boom";
     err_stack := stack; err_code := None; err_status := None;
     err_statusCode := None; err_errors := None; err_value := VUndefined;
     err_path := VUndefined; err_keyValue := VUndefined;
     err_expiredAt := VUndefined; err_own := [] |}.

(** An error with a status code of 404: assigned to it, and so its own
    ([own_code] true), or inherited from its class. *)
Definition coded_error (own_code : bool) : JsError :=
  {| err_name := Some "Error"; err_message := Some "No such page";
     err_stack := None; err_code := None; err_status := None;
     err_statusCode := Some 404%Z; err_errors := None; err_value := VUndefined;
     err_path := VUndefined; err_keyValue := VUndefined;
     err_expiredAt := VUndefined;
     err_own := if own_code then ["statusCode"] else [] |}.

Definition bare_validation_error : JsError :=
  {| err_name := Some "ValidationError"; err_message := Some "invalid";
     err_stack := None; err_code := None; err_status := None;
     err_statusCode := None; err_errors := None; err_value := VUndefined;
     err_path := VUndefined; err_keyValue := VUndefined;
     err_expiredAt := VUndefined; err_own := [] |}.

Definition sample_error (stack : string) : JsError :=
  {| err_name := Some "CastError"; err_message := Some "Cast to ObjectId failed";
     err_stack := Some stack; err_code := Some 11000%Z; err_status := None;
     err_statusCode := None; err_errors := None; err_value := VStr "abc";
     err_path := VStr "_id"; err_keyValue := VUndefined;
     err_expiredAt := VUndefined; err_own := ["code"; "value"; "path"] |}.

Definition sample_request : errorHandler.Request :=
  {| errorHandler.method := "GET"; errorHandler.url := "/api/posts/abc";
     errorHandler.ip := VStr "127.0.0.1"; errorHandler.userAgent := VUndefined;
     errorHandler.body := VObj []; errorHandler.params := VObj [("id", VStr "abc")];
     errorHandler.query := VObj []; errorHandler.authorization := None;
     errorHandler.contentType := None; errorHandler.requestId := Some "r1" |}.

Definition sample_process (env : option string) : Process :=
  {| NODE_ENV_at_load := env; NODE_ENV := env; clock := fun n => pretty n;
     memoryUsage := mkMemoryUsage 50000000 30000000 20000000 1000000 |}.

Definition sample_world (e : JsError) : World :=
  {| heap := {[ 0%nat := e ]}; ticks := 0; trace := [] |}.

End normalizer.

(** ** Auth gate and registration *)

(** Sample data: a token service that knows one good and one expired token,
    and a credential store with one user. *)
Definition sample_verify (token : string) : auth.Verdict :=
  if String.eqb token "good" then auth.Verified "u1"
  else if String.eqb token "old" then auth.Expired
  else auth.InvalidSignature.

Definition sample_user : models.User :=
  {| models.username := "alice"; models.email := "alice@example.com";
     models.password := "$2a$10$hash"; models.firstName := "Alice";
     models.lastName := "Doe"; models.avatar := None; models.isActive := true |}.

Definition sample_users : gmap string models.User := {[ "u1" := sample_user ]}.

(** [shown] is the stored user [u] of identifier [id] as it may be handed on:
    every field of the record but the password, each as it is stored. *)
Definition user_without_password (id : ObjectId) (u : models.User)
    (shown : models.PublicUser) : Prop :=
  models.pub_id shown = id
  /\ models.pub_username shown = models.username u
  /\ models.pub_email shown = models.email u
  /\ models.pub_firstName shown = models.firstName u
  /\ models.pub_lastName shown = models.lastName u
  /\ models.pub_avatar shown = models.avatar u
  /\ models.pub_isActive shown = models.isActive u.

Definition sample_registration (name mail : string) : authRoutes.Registration :=
  {| authRoutes.reg_username := name; authRoutes.reg_email := mail;
     authRoutes.reg_password := "password123";
     authRoutes.reg_firstName := "Al"; authRoutes.reg_lastName := "Doe" |}.

(** ** Regular expressions and the validators *)

(** The strings a regular expression denotes. *)
Inductive Matches : regex.re -> list N -> Prop :=
  | Matches_eps : Matches regex.Eps []
  | Matches_chr cls c : cls c = true -> Matches (regex.Chr cls) [c]
  | Matches_cat r1 r2 s1 s2 :
      Matches r1 s1 -> Matches r2 s2 -> Matches (regex.Cat r1 r2) (s1 ++ s2)
  | Matches_alt_l r1 r2 s : Matches r1 s -> Matches (regex.Alt r1 r2) s
  | Matches_alt_r r1 r2 s : Matches r2 s -> Matches (regex.Alt r1 r2) s
  | Matches_star_nil r : Matches (regex.Star r) []
  | Matches_star_cons r s1 s2 :
      Matches r s1 -> Matches (regex.Star r) s2 ->
      Matches (regex.Star r) (s1 ++ s2).

(** A code unit that may stand anywhere in an email address: neither white
    space nor the at sign. *)
Definition email_plain (c : N) : Prop :=
  regex.whitespace c = false /\ c <> 64%N.

(** An ASCII letter, a digit or the underscore. *)
Definition username_char (c : N) : Prop :=
  (65 <= c <= 90 \/ 97 <= c <= 122 \/ 48 <= c <= 57 \/ c = 95)%N.

(** A hexadecimal digit in either case. *)
Definition hex_digit (c : N) : Prop :=
  (48 <= c <= 57 \/ 97 <= c <= 102 \/ 65 <= c <= 70)%N.

(** The six code units [sanitizeHtml] rewrites. *)
Definition escaped : list N := [38; 60; 62; 34; 39; 47]%N.

(** The one-pass escaping of a code unit. *)
Definition escape (c : N) : list N :=
  if (c =? 38)%N then validator.of_string "&amp;"
  else if (c =? 60)%N then validator.of_string "&lt;"
  else if (c =? 62)%N then validator.of_string "&gt;"
  else if (c =? 34)%N then validator.of_string "&quot;"
  else if (c =? 39)%N then validator.of_string "&#x27;"
  else if (c =? 47)%N then validator.of_string "&#x2F;"
  else [c].

(** The code units [sanitizeHtml] is there to remove: angle brackets, quotes
    and the slash. *)
Definition markup : list N := [60; 62; 34; 39; 47]%N.

(** ** Slugs, words and random strings *)

(** A lower-case ASCII letter, a digit or the hyphen. *)
Definition slug_char (c : N) : Prop :=
  (97 <= c <= 122 \/ 48 <= c <= 57 \/ c = 45)%N.

(** A slug is made of lower-case letters, digits and single hyphens, and
    neither starts nor ends with a hyphen. *)
Definition well_formed_slug (s : list N) : Prop :=
  Forall slug_char s
  /\ head s <> Some 45%N
  /\ last s <> Some 45%N
  /\ (forall l r : list N, s <> (l ++ 45%N :: 45%N :: r)%list).

(** Lower case for the ASCII letters only. *)
Definition ascii_lower (s : list N) : list N :=
  map (fun c => if regex.upper c then (c + 32)%N else c) s.

(** The words of a text: the code units that are not white space and come
    first or after white space, one for each word. *)
Fixpoint word_count (after_space : bool) (text : list N) : nat :=
  match text with
  | [] => 0
  | c :: rest =>
      if regex.whitespace c then word_count true rest
      else (if after_space then 1 else 0) + word_count false rest
  end.

(** An ASCII letter or a digit. *)
Definition alphanumeric (c : N) : Prop :=
  (65 <= c <= 90 \/ 97 <= c <= 122 \/ 48 <= c <= 57)%N.

(** ** Requests in sequence *)

(** A request to one of the routes that change a stored post. *)
Inductive Call : Type :=
  | CallPut (populated : bool) (req : posts.Request)
  | CallDelete (req : posts.Request)
  | CallLike (now : Timestamp) (req : posts.Request)
  | CallComment (now : Timestamp) (populated : bool) (req : posts.Request).

Definition caller (c : Call) : ObjectId :=
  match c with
  | CallPut _ req | CallDelete req | CallLike _ req | CallComment _ _ req =>
      posts.user req
  end.

Section Router.

Variable castObjectId : ObjectId -> bool.
Variable schemaCast : models.UpdateData -> option models.UpdateData.
Variable commentCast : option string -> option string.

(** The collection after the route has answered. *)
Definition handle (c : Call) (db : gmap string models.Post)
  : gmap string models.Post :=
  match c with
  | CallPut populated req => snd (posts.put castObjectId schemaCast populated req db)
  | CallDelete req => snd (posts.del castObjectId req db)
  | CallLike now req => snd (posts.like castObjectId now req db)
  | CallComment now populated req =>
      snd (posts.comment castObjectId commentCast now populated req db)
  end.

Definition run (calls : list Call) (db : gmap string models.Post)
  : gmap string models.Post :=
  fold_left (fun db c => handle c db) calls db.

End Router.

(** The text of a post: what its author wrote and may rewrite. *)
Definition same_text (post post' : models.Post) : Prop :=
  models.author post' = models.author post
  /\ models.title post' = models.title post
  /\ models.content post' = models.content post
  /\ models.tags post' = models.tags post
  /\ models.isPublished post' = models.isPublished post.

(** A comment request of [uid] on the post [id]. *)
Definition sample_comment (id uid : ObjectId) (text : string) : posts.Request :=
  {| posts.params_id := id; posts.user := uid; posts.body_title := None;
     posts.body_content := Some text; posts.body_tags := None;
     posts.validation := [] |}.

(** A schema that accepts every comment with a content. *)
Definition sample_commentCast (text : option string) : option string := text.

(** ** Response time tracking *)

(** One response handed to the tracker. *)
Record Observation := mkObservation {
  obs_req : performanceMonitoring.Request;
  obs_duration : QArith_base.Q;
  obs_status : Z
}.

Definition track_all (obs : list Observation)
    (t : performanceMonitoring.Tracker) : performanceMonitoring.Tracker :=
  fold_left
    (fun t o =>
       performanceMonitoring.track (obs_req o) (obs_duration o) (obs_status o) t)
    obs t.

Definition new_tracker : performanceMonitoring.Tracker :=
  {| performanceMonitoring.slow := []; performanceMonitoring.errors := [] |}.

(** A response of the endpoint that took more than a second, and one that
    reported an error. *)
Definition slow_at (endpoint : string) (o : Observation) : bool :=
  String.eqb (performanceMonitoring.endpoint_of (obs_req o)) endpoint
  && (if QArith_base.Qlt_le_dec (QArith_base.inject_Z 1000) (obs_duration o)
      then true else false).

Definition failed_at (endpoint : string) (o : Observation) : bool :=
  String.eqb (performanceMonitoring.endpoint_of (obs_req o)) endpoint
  && bool_decide (400 <= obs_status o)%Z.

(** The count a map holds for an endpoint that occurred [n] times. *)
Definition counted (n : nat) : option nat :=
  match n with
  | O => None
  | S _ => Some n
  end.

(** [top] lists at most ten entries of [entries], by falling count, no entry
    left out counting more than one that is listed, and entries of equal
    count in the order they have in [entries]. *)
Definition top_ten (entries top : list (string * nat)) : Prop :=
  (List.length top <= 10)%nat
  /\ (List.length entries <= 10 -> Permutation top entries)%nat
  /\ (forall x, x ∈ top -> x ∈ entries)
  /\ StronglySorted (fun a b => (snd b <= snd a)%nat) top
  /\ (forall x y, x ∈ entries -> x ∉ top -> y ∈ top -> (snd x <= snd y)%nat)
  /\ (forall n,
        List.filter (fun x => (snd x =? n)%nat) top
        `prefix_of` List.filter (fun x => (snd x =? n)%nat) entries).

(** ** Log entries *)

(** The entry of a log call before the properties of [meta] are spread over
    it. *)
Definition own_fields (timestamp : Timestamp) (levelName message : string)
  : list (string * runtime.Value) :=
  [("timestamp", runtime.VStr timestamp); ("level", runtime.VStr levelName);
   ("message", runtime.VStr message)].

(** The entries one call of a logging function from [w] appends to a file. *)
Definition written (file : string) (call : runtime.M unit) (w : runtime.World)
  : list (list (string * runtime.Value)) :=
  normalizer.appended file (normalizer.new_effects w (snd (call w))).

(** A process whose logger was loaded in the environment [env], and a world
    with nothing in it. *)
Definition process_in (env : option string) : runtime.Process :=
  {| runtime.NODE_ENV_at_load := env; runtime.NODE_ENV := env;
     runtime.clock := fun n => pretty n;
     runtime.memoryUsage := runtime.mkMemoryUsage 0 0 0 0 |}.

Definition empty_world : runtime.World :=
  {| runtime.heap := ∅; runtime.ticks := 0; runtime.trace := [] |}.

(** ** Requests with a token *)

(** The request [req] with [token] as its Authorization header. *)
Definition with_authorization (token : option string)
    (req : errorHandler.Request) : errorHandler.Request :=
  {| errorHandler.method := errorHandler.method req;
     errorHandler.url := errorHandler.url req;
     errorHandler.ip := errorHandler.ip req;
     errorHandler.userAgent := errorHandler.userAgent req;
     errorHandler.body := errorHandler.body req;
     errorHandler.params := errorHandler.params req;
     errorHandler.query := errorHandler.query req;
     errorHandler.authorization := token;
     errorHandler.contentType := errorHandler.contentType req;
     errorHandler.requestId := errorHandler.requestId req |}.

(* ================================================================== *)
(** * Properties *)
(* ================================================================== *)

Local Open Scope list_scope.

(** ** Password strength *)

Section PasswordStrength.
Import validator.

Lemma class_test_contains (cls : N -> bool) (P : N -> Prop) (s : list N) :
  (forall c, cls c = true <-> P c) ->
  class_test cls s = true <-> contains P s.
Proof.
  intros Hcls. unfold class_test, contains. rewrite existsb_exists.
  split; intros (c & Hin & Hc); exists c; split; auto; by apply Hcls.
Qed.

Lemma in_range_spec (lo hi : string) (l h c : N) :
  of_string lo = [l] -> of_string hi = [h] ->
  in_range lo hi c = true <-> (l <= c <= h)%N.
Proof.
  intros Hlo Hhi. unfold in_range. rewrite Hlo, Hhi.
  rewrite andb_true_iff, !N.leb_le. tauto.
Qed.

Lemma special_class_spec (c : N) :
  special_class c = true <-> In c listed_special.
Proof.
  unfold special_class. rewrite existsb_exists. split.
  - intros (x & Hin & Heq). apply N.eqb_eq in Heq. by subst x.
  - intros Hin. exists c. split; [exact Hin | apply N.eqb_refl].
Qed.

(** C10. [isStrongPassword] accepts exactly the passwords of at least eight
    code units that contain an uppercase letter, a lowercase letter, a digit
    and one of the listed special characters. That is strictly more than the
    six-character minimum of the user model: every strong password passes the
    model's length rule, and some password that passes it is not strong. *)
Theorem isStrongPassword_iff :
  (forall password : list N,
     isStrongPassword password = true <->
       (8 <= List.length password)%nat
       /\ contains is_uppercase password
       /\ contains is_lowercase password
       /\ contains is_digit password
       /\ contains (fun c => In c listed_special) password)
  /\ (forall password : list N,
        isStrongPassword password = true ->
        models.password_length_ok password = true)
  /\ (exists password : list N,
        models.password_length_ok password = true
        /\ isStrongPassword password = false).
Proof.
  assert (Hiff : forall password : list N,
     isStrongPassword password = true <->
       (8 <= List.length password)%nat
       /\ contains is_uppercase password
       /\ contains is_lowercase password
       /\ contains is_digit password
       /\ contains (fun c => In c listed_special) password).
  { intros password. unfold isStrongPassword.
    rewrite <- (class_test_contains upper_class is_uppercase)
      by (intros c; by apply in_range_spec).
    rewrite <- (class_test_contains lower_class is_lowercase)
      by (intros c; by apply in_range_spec).
    rewrite <- (class_test_contains digit_class is_digit)
      by (intros c; by apply in_range_spec).
    rewrite <- (class_test_contains special_class (fun c => In c listed_special))
      by apply special_class_spec.
    destruct (Nat.ltb_spec (List.length password) 8) as [Hlt | Hge].
    - split; [discriminate | lia].
    - rewrite !andb_true_iff. intuition. }
  split; [exact Hiff |]. split.
  - intros password Hstrong. apply Hiff in Hstrong as [Hlen _].
    unfold models.password_length_ok, models.password_minlength.
    apply Nat.leb_le. lia.
  - exists (of_string "password123"). split; reflexivity.
Qed.

Lemma isStrongPassword_iff_witness :
  models.password_length_ok (of_string "Passw0rd!") = true.
Proof.
  apply (proj1 (proj2 isStrongPassword_iff) (of_string "Passw0rd!")).
  reflexivity.
Defined.

End PasswordStrength.

(** ** The like toggle *)

Section LikeToggle.
Import models posts.

Variable castObjectId : ObjectId -> bool.

Lemma find_like_Some (uid : ObjectId) (ls : list Like) (l : Like) :
  List.find (fun l => String.eqb (like_user l) uid) ls = Some l ->
  uid ∈ likers ls.
Proof.
  intros Hfind. apply find_some in Hfind as [Hin Heq].
  apply String.eqb_eq in Heq. subst uid.
  apply list_elem_of_In. unfold likers. by apply in_map.
Qed.

Lemma find_like_None (uid : ObjectId) (ls : list Like) :
  List.find (fun l => String.eqb (like_user l) uid) ls = None ->
  uid ∉ likers ls.
Proof.
  intros Hfind Hin. apply list_elem_of_In in Hin. unfold likers in Hin.
  apply in_map_iff in Hin as (l & Hl & Hin).
  pose proof (find_none _ _ Hfind l Hin) as Hne. simpl in Hne.
  subst uid. by rewrite String.eqb_refl in Hne.
Qed.

Lemma find_like_liked (uid : ObjectId) (ls : list Like) :
  uid ∈ likers ls ->
  exists l, List.find (fun l => String.eqb (like_user l) uid) ls = Some l.
Proof.
  intros Hin.
  destruct (List.find (fun l => String.eqb (like_user l) uid) ls) eqn:Hfind;
    [eauto | by apply find_like_None in Hfind].
Qed.

Lemma find_like_not_liked (uid : ObjectId) (ls : list Like) :
  uid ∉ likers ls ->
  List.find (fun l => String.eqb (like_user l) uid) ls = None.
Proof.
  intros Hnin.
  destruct (List.find (fun l => String.eqb (like_user l) uid) ls) eqn:Hfind;
    [by apply find_like_Some in Hfind | done].
Qed.

Lemma unliked_not_elem (uid : ObjectId) (ls : list Like) :
  uid ∉ likers (unliked uid ls).
Proof.
  unfold likers, unliked. intros Hin. apply list_elem_of_In in Hin.
  apply in_map_iff in Hin as (l & Hl & Hin).
  apply filter_In in Hin as [_ Hne]. subst uid.
  by rewrite String.eqb_refl in Hne.
Qed.

Lemma unliked_id (uid : ObjectId) (ls : list Like) :
  uid ∉ likers ls -> unliked uid ls = ls.
Proof.
  unfold likers, unliked. induction ls as [| l ls IH]; simpl; [done |].
  intros Hnin. apply not_elem_of_cons in Hnin as [Hne Hnin].
  destruct (String.eqb_spec (like_user l) uid) as [Heq | _]; simpl.
  - by subst uid.
  - f_equal. by apply IH.
Qed.

Lemma unliked_app (uid : ObjectId) (ls ls' : list Like) :
  unliked uid (ls ++ ls') = unliked uid ls ++ unliked uid ls'.
Proof. unfold unliked. apply List.filter_app. Qed.

Lemma unliked_likers_subset (uid x : ObjectId) (ls : list Like) :
  x ∈ likers (unliked uid ls) -> x ∈ likers ls.
Proof.
  unfold likers, unliked. rewrite !list_elem_of_In, !in_map_iff.
  intros (l & Hl & Hin). apply filter_In in Hin as [Hin _]. eauto.
Qed.

Lemma unliked_one_like_per_user (uid : ObjectId) (ls : list Like) :
  one_like_per_user ls -> one_like_per_user (unliked uid ls).
Proof.
  unfold one_like_per_user.
  induction ls as [| l ls IH]; simpl; [done |].
  intros Hnd. apply NoDup_cons in Hnd as [Hnin Hnd].
  change (unliked uid (l :: ls))
    with (if negb (String.eqb (like_user l) uid) then l :: unliked uid ls
          else unliked uid ls).
  destruct (negb (String.eqb (like_user l) uid)); simpl; [| by apply IH].
  apply NoDup_cons. split; [| by apply IH].
  intros Hin. apply Hnin. by apply unliked_likers_subset in Hin.
Qed.

Lemma pushed_one_like_per_user (uid : ObjectId) (now : Timestamp)
    (ls : list Like) :
  uid ∉ likers ls ->
  one_like_per_user ls -> one_like_per_user (ls ++ [mkLike uid now]).
Proof.
  unfold one_like_per_user, likers. intros Hnin Hnd.
  rewrite map_app. simpl. apply NoDup_app. split; [done |]. split.
  - intros x Hx Hx'. apply list_elem_of_singleton in Hx'. by subst x.
  - apply NoDup_singleton.
Qed.

(** What a toggle by the user of [req] at time [now] answers and stores. *)
Lemma like_found (now : Timestamp) (req : Request) (db : gmap string Post)
    (post : Post) :
  db !! params_id req = Some post ->
  like castObjectId now req db =
    if bool_decide (user req ∈ likers (likes post)) then
      (success_json "Post unliked"
         (DataLike false (List.length (unliked (user req) (likes post)))),
       <[params_id req := with_likes post (unliked (user req) (likes post))]> db)
    else
      (success_json "Post liked"
         (DataLike true (List.length (likes post ++ [mkLike (user req) now]))),
       <[params_id req := with_likes post (likes post ++ [mkLike (user req) now])]> db).
Proof.
  intros Hpost. unfold like, findById. rewrite Hpost.
  case_bool_decide as Hin.
  - apply find_like_liked in Hin as [l ->]. done.
  - apply find_like_not_liked in Hin as ->. done.
Qed.

Lemma like_missing (now : Timestamp) (req : Request) (db : gmap string Post) :
  db !! params_id req = None ->
  like castObjectId now req db
  = (if castObjectId (params_id req) then error_json 404 "Post not found"
     else error_json 500 "Server error", db).
Proof.
  intros Hpost. unfold like, findById. rewrite Hpost.
  by destruct (castObjectId (params_id req)).
Qed.

Lemma like_stored (now : Timestamp) (req : Request) (db : gmap string Post)
    (post : Post) :
  db !! params_id req = Some post ->
  exists post',
    snd (like castObjectId now req db) !! params_id req = Some post'
    /\ data (fst (like castObjectId now req db))
       = DataLike (negb (bool_decide (user req ∈ likers (likes post))))
           (likeCount post')
    /\ likes post'
       = if bool_decide (user req ∈ likers (likes post))
         then unliked (user req) (likes post)
         else likes post ++ [mkLike (user req) now].
Proof.
  intros Hpost. rewrite (like_found _ _ _ _ Hpost).
  case_bool_decide; simpl; rewrite lookup_insert_eq; eauto.
Qed.

Lemma like_other (now : Timestamp) (req : Request) (db : gmap string Post)
    (id : ObjectId) :
  params_id req ≠ id -> snd (like castObjectId now req db) !! id = db !! id.
Proof.
  intros Hne. destruct (db !! params_id req) as [post |] eqn:Hpost.
  - rewrite (like_found _ _ _ _ Hpost).
    case_bool_decide; simpl; by rewrite lookup_insert_ne.
  - rewrite (like_missing _ _ _ Hpost). by destruct (castObjectId _).
Qed.

Lemma like_preserves (now : Timestamp) (req : Request) (db : gmap string Post)
    (id : ObjectId) (post : Post) :
  db !! id = Some post -> one_like_per_user (likes post) ->
  exists post',
    snd (like castObjectId now req db) !! id = Some post' /\ one_like_per_user (likes post').
Proof.
  intros Hpost Hone. destruct (decide (params_id req = id)) as [<- | Hne].
  - destruct (like_stored now req db post Hpost) as (post' & Hpost' & _ & Hlikes).
    exists post'. split; [done |]. rewrite Hlikes.
    case_bool_decide as Hin.
    + by apply unliked_one_like_per_user.
    + by apply pushed_one_like_per_user.
  - exists post. by rewrite like_other.
Qed.

(** The claim of C3 as it is worded fails: two toggles by a user who already
    likes the post move that user's entry to the end of the list. *)
Lemma like_twice_reorders :
  ~ (forall (cast : ObjectId -> bool) (now : Timestamp) (req : Request)
            (db : gmap string Post) (ls : list Like),
       likes_of (params_id req) db = Some ls ->
       likes_of (params_id req)
         (snd (like cast now req (snd (like cast now req db))))
       = Some ls).
Proof.
  intros Hclaim.
  specialize (Hclaim sample_cast "t0" (sample_request "p1" "alice") sample_db _
                eq_refl).
  vm_compute in Hclaim. discriminate Hclaim.
Qed.

(** C3, amended. [likeCount] is the length of the like list, also as the
    response formatter computes it. A toggle by a
    user with an entry in the list removes the user's entries, a toggle by a
    user without one appends an entry, and either answers the count of the
    list it stored. Two toggles in succession by a user without an entry
    restore the like list; two toggles by a user with an entry leave the list
    without the user's former entries and with a fresh entry at its end. *)
Theorem like_toggle (now now' : Timestamp) (req : Request)
    (db : gmap string Post) (post : Post) :
  db !! params_id req = Some post ->
  let once := like castObjectId now req db in
  let twice := like castObjectId now' req (snd once) in
  (likeCount post = List.length (likes post)
   /\ helpers.likeCount <$> helpers.formatPostResponse (Some (helpers.of_post post))
      = Some (likeCount post))
  /\ (exists post',
        snd once !! params_id req = Some post'
        /\ data (fst once)
           = DataLike (negb (bool_decide (user req ∈ likers (likes post))))
               (likeCount post')
        /\ likeCount post' = List.length (likes post'))
  /\ (user req ∈ likers (likes post) ->
        likes_of (params_id req) (snd once)
        = Some (unliked (user req) (likes post))
        /\ likes_of (params_id req) (snd twice)
           = Some (unliked (user req) (likes post) ++ [mkLike (user req) now']))
  /\ (user req ∉ likers (likes post) ->
        likes_of (params_id req) (snd once)
        = Some (likes post ++ [mkLike (user req) now])
        /\ likes_of (params_id req) (snd twice) = Some (likes post)).
Proof.
  intros Hpost once twice.
  destruct (like_stored now req db post Hpost) as (post1 & Hpost1 & Hdata & Hlikes1).
  destruct (like_stored now' req (snd once) post1 Hpost1)
    as (post2 & Hpost2 & _ & Hlikes2).
  fold once in Hpost1, Hdata. fold twice in Hpost2.
  split; [done |]. split; [by exists post1 |].
  unfold likes_of. rewrite Hpost1, Hpost2. simpl. rewrite Hlikes2, Hlikes1.
  split; intros Hin.
  - rewrite bool_decide_eq_true_2 by done.
    rewrite bool_decide_eq_false_2 by apply unliked_not_elem. done.
  - rewrite bool_decide_eq_false_2 by done.
    rewrite bool_decide_eq_true_2.
    + rewrite unliked_app, unliked_id by done. simpl.
      rewrite String.eqb_refl. simpl. by rewrite app_nil_r.
    + unfold likers. rewrite map_app. apply elem_of_app. right.
      apply list_elem_of_singleton. done.
Qed.

(** C4. A toggle by a user with an entry in the like list stores the list
    without any entry of that user, and a toggle appends an entry only for a
    user without one. Hence a like list with at most one entry per user still
    has at most one entry per user after any sequence of toggles, by any
    users, on any posts. *)
Theorem one_like_per_user_preserved :
  (forall (now : Timestamp) (req : Request) (db : gmap string Post)
          (post : Post),
     db !! params_id req = Some post ->
     exists post',
       snd (like castObjectId now req db) !! params_id req = Some post'
       /\ (user req ∈ likers (likes post) ->
             likes post' = unliked (user req) (likes post)
             /\ user req ∉ likers (likes post'))
       /\ (user req ∉ likers (likes post) ->
             likes post' = likes post ++ [mkLike (user req) now]))
  /\ (forall (reqs : list (Timestamp * Request)) (db : gmap string Post)
             (id : ObjectId) (post : Post),
        db !! id = Some post ->
        one_like_per_user (likes post) ->
        exists post',
          like_all castObjectId reqs db !! id = Some post'
          /\ one_like_per_user (likes post')).
Proof.
  split.
  - intros now req db post Hpost.
    destruct (like_stored now req db post Hpost) as (post' & Hpost' & _ & Hlikes).
    exists post'. split; [done |]. rewrite Hlikes. split; intros Hin.
    + rewrite bool_decide_eq_true_2 by done. split; [done |].
      apply unliked_not_elem.
    + by rewrite bool_decide_eq_false_2.
  - intros reqs. induction reqs as [| [now req] reqs IH]; intros db id post Hpost Hone.
    + exists post. done.
    + simpl. destruct (like_preserves now req db id post Hpost Hone)
        as (post1 & Hpost1 & Hone1).
      exact (IH _ id post1 Hpost1 Hone1).
Qed.

End LikeToggle.

Section LikeToggleSamples.
Import models posts.

Lemma like_toggle_witness :
  likes_of "p1"
    (snd (like sample_cast "t2" (sample_request "p1" "carol")
            (snd (like sample_cast "t1" (sample_request "p1" "carol") sample_db))))
  = Some (likes sample_post).
Proof.
  pose proof (like_toggle sample_cast "t1" "t2" (sample_request "p1" "carol")
                sample_db sample_post eq_refl) as (_ & _ & _ & Hfresh).
  apply Hfresh. apply (bool_decide_unpack _). by vm_compute.
Defined.

Lemma one_like_per_user_preserved_witness :
  exists post',
    like_all sample_cast
      [("t1", sample_request "p1" "carol"); ("t2", sample_request "p1" "alice");
       ("t3", sample_request "p1" "carol"); ("t4", sample_request "p1" "alice")]
      sample_db !! "p1" = Some post'
    /\ one_like_per_user (likes post').
Proof.
  apply (proj2 (one_like_per_user_preserved sample_cast) _ sample_db "p1"
           sample_post).
  - reflexivity.
  - unfold one_like_per_user. apply (bool_decide_unpack _). by vm_compute.
Defined.

End LikeToggleSamples.

(** ** Ownership checks and the frame of an update *)

Section Ownership.
Import models posts.

Variable castObjectId : ObjectId -> bool.
Variable schemaCast : UpdateData -> option UpdateData.

Lemma put_invalid (populated : bool) (req : Request) (db : gmap string Post) :
  validation req ≠ [] ->
  put castObjectId schemaCast populated req db
  = (validation_failed (validation req), db).
Proof. intros Hne. unfold put. by destruct (validation req). Qed.

Lemma put_missing (populated : bool) (req : Request) (db : gmap string Post) :
  validation req = [] -> db !! params_id req = None ->
  put castObjectId schemaCast populated req db
  = (if castObjectId (params_id req) then error_json 404 "Post not found"
     else error_json 500 "Server error", db).
Proof.
  intros Hval Hpost. unfold put, findById. rewrite Hval, Hpost.
  by destruct (castObjectId (params_id req)).
Qed.

Lemma put_forbidden (populated : bool) (req : Request) (db : gmap string Post)
    (post : Post) :
  validation req = [] -> db !! params_id req = Some post ->
  author post ≠ user req ->
  put castObjectId schemaCast populated req db
  = (error_json 403 "Not authorized to update this post", db).
Proof.
  intros Hval Hpost Hne. unfold put, findById. rewrite Hval, Hpost.
  apply String.eqb_neq in Hne. by rewrite Hne.
Qed.

Lemma put_owner (populated : bool) (req : Request) (db : gmap string Post)
    (post : Post) :
  validation req = [] -> db !! params_id req = Some post ->
  author post = user req ->
  put castObjectId schemaCast populated req db
  = match schemaCast (update_of req) with
    | Some u =>
        (if populated then
           success_json "Post updated successfully"
             (DataPost (Some (applyUpdate u post)))
         else error_json 500 "Server error",
         <[params_id req := applyUpdate u post]> db)
    | None => (error_json 500 "Server error", db)
    end.
Proof.
  intros Hval Hpost Heq. unfold put, findById, findByIdAndUpdate.
  rewrite Hval, Hpost. apply String.eqb_eq in Heq. rewrite Heq. simpl.
  fold (update_of req).
  destruct (schemaCast (update_of req)); rewrite ?Hpost; [| done].
  by destruct populated.
Qed.

Lemma del_missing (req : Request) (db : gmap string Post) :
  db !! params_id req = None ->
  del castObjectId req db
  = (if castObjectId (params_id req) then error_json 404 "Post not found"
     else error_json 500 "Server error", db).
Proof.
  intros Hpost. unfold del, findById. rewrite Hpost.
  by destruct (castObjectId (params_id req)).
Qed.

Lemma del_forbidden (req : Request) (db : gmap string Post) (post : Post) :
  db !! params_id req = Some post -> author post ≠ user req ->
  del castObjectId req db
  = (error_json 403 "Not authorized to delete this post", db).
Proof.
  intros Hpost Hne. unfold del, findById. rewrite Hpost.
  apply String.eqb_neq in Hne. by rewrite Hne.
Qed.

Lemma del_owner (req : Request) (db : gmap string Post) (post : Post) :
  db !! params_id req = Some post -> author post = user req ->
  del castObjectId req db
  = (success_json "Post deleted successfully" NoData, delete (params_id req) db).
Proof.
  intros Hpost Heq. unfold del, findById, findByIdAndDelete. rewrite Hpost.
  apply String.eqb_eq in Heq. by rewrite Heq.
Qed.

(** The claim of C5 as it is worded fails, also for the identifiers that can
    be cast: an update whose body does not pass validation is answered 400
    before the post is looked up. *)
Lemma put_invalid_body_not_404 :
  ~ (forall (cast : ObjectId -> bool) (schema : UpdateData -> option UpdateData)
            (populated : bool) (req : Request) (db : gmap string Post),
       cast (params_id req) = true ->
       db !! params_id req = None ->
       fst (put cast schema populated req db)
       = error_json 404 "Post not found").
Proof.
  intros Hclaim.
  specialize (Hclaim sample_cast specSchemaCast true
                (sample_invalid_update "p2" "alice") sample_db eq_refl eq_refl).
  vm_compute in Hclaim. discriminate Hclaim.
Qed.

(** C5, amended. An update request whose body did not pass validation is
    answered 400 "Validation failed", with the validation errors, before any
    post is looked up, and stores nothing. For every other update request,
    and for every delete request: when no post is stored under the
    identifier, the answer is 404 "Post not found" if the identifier can be
    cast to an ObjectId and 500 "Server error" if it cannot; a post of
    another author is answered 403 with the message of the operation; in all
    these cases the collection is left as it was. For the author the deletion
    is carried out, and the update is stored unless the schema rejects it,
    which is answered 500 and stores nothing; a stored update is answered
    with the updated post, or 500 when populating its author fails. The
    collection changes only for the author. *)
Theorem ownership_check (populated : bool) (req : Request)
    (db : gmap string Post) :
  (validation req ≠ [] ->
     put castObjectId schemaCast populated req db
     = ({| code := 400; status := "error"; message := "Validation failed";
           errors := validation req; data := NoData |}, db))
  /\ (validation req = [] ->
     (db !! params_id req = None -> castObjectId (params_id req) = true ->
        put castObjectId schemaCast populated req db
        = (error_json 404 "Post not found", db))
     /\ (db !! params_id req = None -> castObjectId (params_id req) = false ->
           put castObjectId schemaCast populated req db
           = (error_json 500 "Server error", db))
     /\ (forall post, db !! params_id req = Some post ->
           author post ≠ user req ->
           put castObjectId schemaCast populated req db
           = (error_json 403 "Not authorized to update this post", db))
     /\ (forall post, db !! params_id req = Some post ->
           author post = user req ->
           put castObjectId schemaCast populated req db
           = match schemaCast (update_of req) with
             | Some u =>
                 (if populated then
                    success_json "Post updated successfully"
                      (DataPost (Some (applyUpdate u post)))
                  else error_json 500 "Server error",
                  <[params_id req := applyUpdate u post]> db)
             | None => (error_json 500 "Server error", db)
             end))
  /\ (snd (put castObjectId schemaCast populated req db) ≠ db ->
        validation req = []
        /\ exists post,
             db !! params_id req = Some post /\ author post = user req)
  /\ (db !! params_id req = None -> castObjectId (params_id req) = true ->
        del castObjectId req db = (error_json 404 "Post not found", db))
  /\ (db !! params_id req = None -> castObjectId (params_id req) = false ->
        del castObjectId req db = (error_json 500 "Server error", db))
  /\ (forall post, db !! params_id req = Some post ->
        author post ≠ user req ->
        del castObjectId req db
        = (error_json 403 "Not authorized to delete this post", db))
  /\ (forall post, db !! params_id req = Some post ->
        author post = user req ->
        del castObjectId req db
        = (success_json "Post deleted successfully" NoData,
           delete (params_id req) db))
  /\ (snd (del castObjectId req db) ≠ db ->
        exists post, db !! params_id req = Some post /\ author post = user req).
Proof.
  split; [| split; [intros Hval; split; [| split; [| split]] | split;
    [| split; [| split; [| split; [| split]]]]]].
  - intros Hne. by rewrite put_invalid.
  - intros Hpost Hcast. by rewrite (put_missing _ _ _ Hval Hpost), Hcast.
  - intros Hpost Hcast. by rewrite (put_missing _ _ _ Hval Hpost), Hcast.
  - intros post. by apply put_forbidden.
  - intros post. by apply put_owner.
  - intros Hchanged. destruct (validation req) as [| fe errs] eqn:Hval.
    + split; [done |].
      destruct (db !! params_id req) as [post |] eqn:Hpost.
      * destruct (decide (author post = user req)) as [Heq | Hne]; [eauto |].
        by rewrite (put_forbidden _ _ _ _ Hval Hpost Hne) in Hchanged.
      * rewrite (put_missing _ _ _ Hval Hpost) in Hchanged.
        by destruct (castObjectId _).
    + rewrite put_invalid in Hchanged; [done | by rewrite Hval].
  - intros Hpost Hcast. by rewrite (del_missing _ _ Hpost), Hcast.
  - intros Hpost Hcast. by rewrite (del_missing _ _ Hpost), Hcast.
  - intros post. by apply del_forbidden.
  - intros post. by apply del_owner.
  - intros Hchanged. destruct (db !! params_id req) as [post |] eqn:Hpost.
    + destruct (decide (author post = user req)) as [Heq | Hne]; [eauto |].
      by rewrite (del_forbidden _ _ _ Hpost Hne) in Hchanged.
    + rewrite (del_missing _ _ Hpost) in Hchanged. by destruct (castObjectId _).
Qed.

Lemma applyUpdate_frame (u : UpdateData) (post : Post) :
  same_owner_and_reactions post (applyUpdate u post).
Proof. by repeat split. Qed.

Lemma put_unchanged_or_updated (populated : bool) (req : Request)
    (db : gmap string Post) :
  snd (put castObjectId schemaCast populated req db) = db
  \/ exists post u,
       db !! params_id req = Some post
       /\ author post = user req
       /\ snd (put castObjectId schemaCast populated req db)
          = <[params_id req := applyUpdate u post]> db.
Proof.
  destruct (validation req) as [| fe errs] eqn:Hval.
  - destruct (db !! params_id req) as [post |] eqn:Hpost.
    + destruct (decide (author post = user req)) as [Heq | Hne].
      * rewrite (put_owner _ _ _ _ Hval Hpost Heq).
        destruct (schemaCast (update_of req)) as [u |]; [| by left].
        right. by exists post, u.
      * left. by rewrite (put_forbidden _ _ _ _ Hval Hpost Hne).
    + left. rewrite (put_missing _ _ _ Hval Hpost). by destruct (castObjectId _).
  - left. rewrite put_invalid; [done | by rewrite Hval].
Qed.

(** C7. Whatever an update request is answered, every post of the collection
    keeps its author, its likes, its comments and its published flag, no post
    appears or disappears, and the posts other than the addressed one are
    left as they were: only the title, the content and the tags of the
    addressed post may change. A like leaves the author, too, together with
    the text and the comments. *)
Theorem update_frame (populated : bool) (req : Request)
    (db : gmap string Post) (id : ObjectId) :
  option_Forall2
    (fun post post' =>
       same_owner_and_reactions post post'
       /\ (id ≠ params_id req -> post' = post))
    (db !! id) (snd (put castObjectId schemaCast populated req db) !! id)
  /\ (forall now : Timestamp,
        option_Forall2 same_owner_and_text
          (db !! id) (snd (like castObjectId now req db) !! id)).
Proof.
  split.
  - destruct (put_unchanged_or_updated populated req db)
      as [-> | (post & u & Hpost & _ & ->)].
    + destruct (db !! id); constructor. by repeat split.
    + destruct (decide (params_id req = id)) as [<- | Hne].
      * rewrite lookup_insert_eq, Hpost. constructor.
        split; [apply applyUpdate_frame | done].
      * rewrite lookup_insert_ne by done.
        destruct (db !! id); constructor. by repeat split.
  - intros now. destruct (decide (params_id req = id)) as [<- | Hne].
    + destruct (db !! params_id req) as [post |] eqn:Hpost.
      * destruct (like_stored castObjectId now req db post Hpost)
          as (post' & Hpost' & _ & _).
        rewrite Hpost'. constructor.
        rewrite (like_found _ _ _ _ _ Hpost) in Hpost'.
        destruct (bool_decide _); simpl in Hpost';
          rewrite lookup_insert_eq in Hpost'; injection Hpost' as <-;
          by repeat split.
      * rewrite (like_missing _ _ _ _ Hpost). simpl. rewrite Hpost. constructor.
    + rewrite like_other by done. destruct (db !! id); constructor.
      by repeat split.
Qed.

End Ownership.

Section OwnershipSamples.
Import models posts.

Lemma ownership_check_witness :
  put sample_cast specSchemaCast true (sample_update "p1" "bob") sample_db
  = (error_json 403 "Not authorized to update this post", sample_db)
  /\ put sample_cast specSchemaCast true (sample_update "p2" "bob") sample_db
     = (error_json 404 "Post not found", sample_db)
  /\ put sample_cast specSchemaCast true (sample_update "not-an-id" "bob")
       sample_db
     = (error_json 500 "Server error", sample_db)
  /\ put sample_cast specSchemaCast true (sample_invalid_update "p1" "alice")
       sample_db
     = ({| code := 400; status := "error"; message := "Validation failed";
           errors := [mkFieldError "title" "Title cannot be empty"];
           data := NoData |}, sample_db).
Proof.
  split; [| split; [| split]].
  - destruct (ownership_check sample_cast specSchemaCast true
                (sample_update "p1" "bob") sample_db) as (_ & Hput & _).
    destruct (Hput eq_refl) as (_ & _ & Hforbidden & _).
    apply (Hforbidden sample_post); [reflexivity | by vm_compute].
  - destruct (ownership_check sample_cast specSchemaCast true
                (sample_update "p2" "bob") sample_db) as (_ & Hput & _).
    destruct (Hput eq_refl) as (Hmissing & _). by apply Hmissing.
  - destruct (ownership_check sample_cast specSchemaCast true
                (sample_update "not-an-id" "bob") sample_db) as (_ & Hput & _).
    destruct (Hput eq_refl) as (_ & Hrejected & _). by apply Hrejected.
  - destruct (ownership_check sample_cast specSchemaCast true
                (sample_invalid_update "p1" "alice") sample_db) as (Hinvalid & _).
    by apply Hinvalid.
Defined.

Lemma update_frame_witness :
  option_Forall2
    (fun post post' =>
       same_owner_and_reactions post post' /\ ("p1" ≠ "p1" -> post' = post))
    (sample_db !! "p1")
    (snd (put sample_cast specSchemaCast true (sample_update "p1" "alice")
            sample_db)
       !! "p1").
Proof.
  exact (proj1 (update_frame sample_cast specSchemaCast true
                  (sample_update "p1" "alice") sample_db "p1")).
Defined.

End OwnershipSamples.

(** ** The error normalizer *)

Section Runs.
Import runtime normalizer.

Context {A B : Type}.
Implicit Types (E : string -> World -> Prop) (w : World).

Lemma wp_ret (a : A) w (Q : A -> World -> Prop) E :
  Q a w -> wp (mret a) w Q E.
Proof. done. Qed.

Lemma wp_throw (exn : string) w (Q : A -> World -> Prop) E :
  E exn w -> wp (throw exn) w Q E.
Proof. done. Qed.

Lemma wp_bind (m : M A) (k : A -> M B) w (Q : B -> World -> Prop) E :
  wp m w (fun a w' => wp (k a) w' Q E) E -> wp (m ≫= k) w Q E.
Proof.
  unfold wp, mbind, M_bind. by destruct (m w) as [[a | exn] w'].
Qed.

Lemma wp_mono (m : M A) w (P Q : A -> World -> Prop) E :
  wp m w P E -> (forall a w', P a w' -> Q a w') -> wp m w Q E.
Proof.
  unfold wp. destruct (m w) as [[a | exn] w']; [| done]. intros HP HPQ. auto.
Qed.

Lemma wp_get (l : nat) (f : JsError -> A) (o : JsError) w
    (Q : A -> World -> Prop) E :
  heap w !! l = Some o -> Q (f o) w -> wp (get l f) w Q E.
Proof. intros Hl HQ. unfold wp, get. by rewrite Hl. Qed.

End Runs.

Section Normalizer.
Import runtime normalizer.

Variable proc : Process.
Implicit Types (E : string -> World -> Prop) (w : World).

Lemma wp_alloc (o : JsError) w (Q : nat -> World -> Prop) E :
  (forall l, heap w !! l = None ->
     Q l {| heap := <[l := o]> (heap w); ticks := ticks w; trace := trace w |}) ->
  wp (alloc o) w Q E.
Proof. intros HQ. apply HQ. apply not_elem_of_dom, is_fresh. Qed.

Lemma wp_set_message (l : nat) (m : option string) (o : JsError) w
    (Q : unit -> World -> Prop) E :
  heap w !! l = Some o ->
  (forall o', err_message o' = m -> err_statusCode o' = err_statusCode o ->
     Q tt {| heap := <[l := o']> (heap w); ticks := ticks w; trace := trace w |}) ->
  wp (set_message l m) w Q E.
Proof. intros Hl HQ. unfold wp, set_message. rewrite Hl. by apply HQ. Qed.

Lemma wp_now w (Q : Timestamp -> World -> Prop) E :
  Q (clock proc (ticks w))
    {| heap := heap w; ticks := S (ticks w); trace := trace w |} ->
  wp (now proc) w Q E.
Proof. done. Qed.

Lemma wp_emit (ef : Effect) w (Q : unit -> World -> Prop) E :
  Q tt {| heap := heap w; ticks := ticks w; trace := trace w ++ [ef] |} ->
  wp (emit ef) w Q E.
Proof. done. Qed.

(** A call of the logger never throws, and ends in the world [logged]. *)
Lemma _log_run (level : nat) (levelName message : string)
    (meta : list (string * Value)) w :
  logger._log proc level levelName message meta w
  = (Ok tt, logged proc level levelName message meta w).
Proof.
  unfold logger._log, logged.
  destruct (logger.currentLevel proc <? level)%nat; [done |].
  unfold log_effects, logger._writeToFile, mbind, M_bind, now, emit. simpl.
  destruct (0 <? List.length meta)%nat, (String.eqb levelName "ERROR");
    simpl; rewrite <- ?app_assoc; reflexivity.
Qed.

Lemma wp_log (level : nat) (levelName message : string)
    (meta : list (string * Value)) w (Q : unit -> World -> Prop) E :
  Q tt (logged proc level levelName message meta w) ->
  wp (logger._log proc level levelName message meta) w Q E.
Proof. intros HQ. unfold wp. by rewrite _log_run. Qed.

Lemma log_effects_are_logs (levelName message : string)
    (meta : list (string * Value)) (timestamp : Timestamp) :
  Forall is_log (log_effects levelName message meta timestamp).
Proof.
  unfold log_effects.
  destruct (0 <? List.length meta)%nat, (String.eqb levelName "ERROR");
    repeat constructor.
Qed.

(** The levels up to INFO are enabled in every environment. *)
Lemma logged_enabled (level : nat) (levelName message : string)
    (meta : list (string * Value)) w :
  (level <= 2)%nat ->
  logged proc level levelName message meta w
  = {| heap := heap w; ticks := S (ticks w);
       trace := trace w ++ log_effects levelName message meta (clock proc (ticks w)) |}.
Proof.
  intros Hlevel. unfold logged.
  replace (logger.currentLevel proc <? level)%nat with false; [done |].
  symmetry. apply Nat.ltb_ge. unfold logger.currentLevel, logger.INFO, logger.DEBUG.
  case_decide; lia.
Qed.

Lemma logged_heap (level : nat) (levelName message : string)
    (meta : list (string * Value)) w :
  heap (logged proc level levelName message meta w) = heap w.
Proof. unfold logged. by destruct (_ <? _)%nat. Qed.

Lemma logged_trace (level : nat) (levelName message : string)
    (meta : list (string * Value)) w :
  exists logs,
    trace (logged proc level levelName message meta w) = trace w ++ logs
    /\ Forall is_log logs.
Proof.
  unfold logged. destruct (_ <? _)%nat.
  - exists []. by rewrite app_nil_r.
  - eexists. split; [reflexivity | apply log_effects_are_logs].
Qed.

Lemma passing_alloc (w0 : World) (err : nat) (e o : JsError) (n l : nat) w :
  Passing w0 err e n w -> heap w !! l = None ->
  Passing w0 err e n
    {| heap := <[l := o]> (heap w); ticks := ticks w; trace := trace w |}.
Proof.
  intros [Herr Hframe Hticks Htrace] Hl. split; simpl; [| | done | done].
  - rewrite lookup_insert_ne; [done | congruence].
  - intros l' Hl'. rewrite lookup_insert_ne; [by apply Hframe |].
    intros ->. rewrite Hframe in Hl by done. rewrite Hl in Hl'. by destruct Hl'.
Qed.

Lemma passing_logged (level : nat) (levelName message : string)
    (meta : list (string * Value)) (w0 : World) (err : nat) (e : JsError)
    (n : nat) w :
  (level <= 2)%nat ->
  Passing w0 err e n w ->
  Passing w0 err e (S n) (logged proc level levelName message meta w).
Proof.
  intros Hlevel [Herr Hframe Hticks (logs & Htrace & Hlogs)].
  rewrite logged_enabled by done. split; simpl; [done | done | lia |].
  eexists. rewrite Htrace, <- app_assoc. split; [reflexivity |].
  apply Forall_app. split; [done | apply log_effects_are_logs].
Qed.

(** One rewriting block of the handler: when its pattern applies, [error]
    becomes a fresh object with the pattern's message and status code and
    one line is logged. *)
Lemma holding_rewritten (w0 : World) (err : nat) (e : JsError) (n : nat)
    (message : string) (code : Z) (levelName text : string)
    (level : nat) (meta : list (string * Value)) (l : nat) w :
  (level <= 2)%nat ->
  Passing w0 err e n w -> heap w !! l = None ->
  Holding w0 err e (S n) (Some message, Some code) l
    (logged proc level levelName text meta
       {| heap := <[l := errorHandler.rewritten message code]> (heap w);
          ticks := ticks w; trace := trace w |}).
Proof.
  intros Hlevel HP Hl. split.
  - apply passing_logged; [done |]. by apply passing_alloc.
  - eexists. rewrite logged_heap. simpl. rewrite lookup_insert_eq. done.
Qed.

Lemma wp_block (c : bool) (mt : M nat) (w0 : World) (err : nat) (e : JsError)
    (n : nat) (a a' : option string * option Z) (error : nat) w E :
  Holding w0 err e n a error w ->
  (c = true -> wp mt w (Holding w0 err e (S n) a') E) ->
  wp (if c then mt else mret error) w
    (Holding w0 err e (n + Nat.b2n c) (if c then a' else a)) E.
Proof.
  intros HH Hmt. destruct c; simpl.
  - rewrite Nat.add_1_r. by apply Hmt.
  - apply wp_ret. by rewrite Nat.add_0_r.
Qed.

Lemma wp_get_passing {A} (f : JsError -> A) (w0 : World) (err : nat)
    (e : JsError) (n : nat) w (Q : A -> World -> Prop) E :
  Passing w0 err e n w -> Q (f e) w -> wp (get err f) w Q E.
Proof. intros HP HQ. eapply wp_get; [apply HP | done]. Qed.

Lemma wp_get_fresh {A} (f : JsError -> A) (w0 : World) (err : nat)
    (e o : JsError) (n l : nat) w (Q : A -> World -> Prop) E :
  Passing w0 err e n w -> heap w !! l = None ->
  Q (f e) {| heap := <[l := o]> (heap w); ticks := ticks w; trace := trace w |} ->
  wp (get err f)
    {| heap := <[l := o]> (heap w); ticks := ticks w; trace := trace w |} Q E.
Proof.
  intros HP Hl HQ. eapply wp_get; [| done]. simpl.
  rewrite lookup_insert_ne; [apply HP |].
  intros ->. destruct HP as [Herr _ _ _]. congruence.
Qed.

Lemma appended_head_app (file : string) (tr tr' : list Effect)
    (entry : list (string * Value)) :
  head (appended file tr) = Some entry ->
  head (appended file (tr ++ tr')) = Some entry.
Proof.
  unfold appended. rewrite omap_app.
  destruct (omap _ tr); [discriminate | done].
Qed.

(** The handler's chain of tests, read from the last to the first, is the
    latest applying pattern. *)
Lemma latest_match_nested (e : JsError) :
  latest_match e
  = if named "MongoNetworkError" e || named "MongooseServerSelectionError" e
    then (Some "Database connection error", Some 503%Z)
    else if bool_decide (err_status e = Some 429%Z)
    then (Some "Too many requests, please try again later", Some 429%Z)
    else if named "TokenExpiredError" e
    then (Some "Token expired", Some 401%Z)
    else if named "JsonWebTokenError" e
    then (Some "Invalid token", Some 401%Z)
    else if named "ValidationError" e
    then (Some (field_messages e), Some 400%Z)
    else if bool_decide (err_code e = Some 11000%Z)
    then (Some "Duplicate field value entered", Some 400%Z)
    else if named "CastError" e
    then (Some "Resource not found", Some 404%Z)
    else (err_message e, own_statusCode e).
Proof.
  unfold latest_match, decided_by, patterns. simpl.
  destruct (named "MongoNetworkError" e || named "MongooseServerSelectionError" e);
    [done |].
  destruct (bool_decide (err_status e = Some 429%Z)); [done |].
  destruct (named "TokenExpiredError" e); [done |].
  destruct (named "JsonWebTokenError" e); [done |].
  destruct (named "ValidationError" e); [done |].
  destruct (bool_decide (err_code e = Some 11000%Z)); [done |].
  destruct (named "CastError" e); done.
Qed.

(** Runs the body of a rewriting block after its test succeeded. *)
Ltac rewriting_block HH Hl :=
  apply wp_bind, wp_alloc; intros ? Hl;
  repeat (apply wp_bind; eapply wp_get_fresh; [apply HH | exact Hl |]; cbv beta);
  apply wp_bind, wp_log; apply wp_ret;
  apply holding_rewritten; [cbv; lia | apply HH | exact Hl].

(** Runs the test of a rewriting block and its body. *)
Ltac rewriting_step HH a' Hl :=
  apply wp_bind; eapply wp_get_passing; [apply HH |]; cbv beta;
  apply wp_bind; eapply wp_mono;
  [ eapply (wp_block _ _ _ _ _ _ _ a'); [exact HH | intros _];
    rewriting_block HH Hl
  | cbv beta ].

Lemma wp_block_fact (c : bool) (mt : M nat) (w0 : World) (err : nat)
    (e : JsError) (n : nat) (a a' : option string * option Z) (error : nat) w E
    (F : Prop) :
  Holding w0 err e n a error w ->
  (c = true -> wp mt w (fun error' w' => Holding w0 err e (S n) a' error' w' /\ F) E) ->
  (c = false -> F) ->
  wp (if c then mt else mret error) w
    (fun error' w' =>
       Holding w0 err e (n + Nat.b2n c) (if c then a' else a) error' w' /\ F) E.
Proof.
  intros HH Hmt HF. destruct c; simpl.
  - rewrite Nat.add_1_r. by apply Hmt.
  - apply wp_ret. rewrite Nat.add_0_r. auto.
Qed.

(** The run of the handler on the error [e] stored at [err]. It answers once,
    after logging, with the status code and the message of the latest
    applying pattern; it throws, before answering, exactly on a validation
    error without its [errors] map. Either way the objects of the heap it was
    started in are as they were and the error log received the stack. *)
Lemma errorHandler_run (err : nat) (req : errorHandler.Request) (e : JsError) w :
  heap w !! err = Some e ->
  wp (errorHandler.errorHandler proc err req) w
    (fun _ w' =>
       (err_name e = Some "ValidationError" -> is_Some (err_errors e))
       /\ exists logs,
            trace w'
            = trace w ++ logs
              ++ [Send (sent_code (latest_match e))
                    (response_body proc err e (errorHandler.requestId req)
                       (clock proc (ticks w + 3 + applying e)))]
            /\ Logged w e logs w')
    (fun _ w' =>
       (err_name e = Some "ValidationError" /\ err_errors e = None)
       /\ exists logs, trace w' = trace w ++ logs /\ Logged w e logs w').
Proof.
  intros Herr.
  unfold errorHandler.errorHandler.
  (* the copy and the first two log calls *)
  apply wp_bind. eapply wp_get; [exact Herr |]. cbv beta.
  apply wp_bind. apply wp_alloc. intros l0 Hl0.
  assert (Hne0 : l0 ≠ err) by congruence.
  apply wp_bind.
  eapply wp_get; [simpl; rewrite lookup_insert_ne; [exact Herr | done] |]. cbv beta.
  apply wp_bind. eapply wp_set_message; [simpl; apply lookup_insert_eq |].
  intros o0 Hmsg0 Hcode0. cbn [heap ticks trace]. rewrite insert_insert_eq.
  apply wp_bind.
  eapply wp_get; [simpl; rewrite lookup_insert_ne; [exact Herr | done] |]. cbv beta.
  apply wp_bind.
  eapply wp_get; [simpl; rewrite lookup_insert_ne; [exact Herr | done] |]. cbv beta.
  apply wp_bind. apply wp_now. cbn [heap ticks trace].
  apply wp_bind. apply wp_log. rewrite logged_enabled by (cbv; lia).
  cbn [heap ticks trace].
  apply wp_bind. apply wp_log. rewrite logged_enabled by (cbv; lia).
  cbn [heap ticks trace].
  match goal with
  | |- wp _ {| heap := _; ticks := _; trace := (_ ++ ?l1) ++ ?l2 |} _ _ =>
      set (L1 := l1); set (L2 := l2)
  end.
  match goal with |- wp _ ?w _ _ => set (w1 := w) end.
  assert (HH0 : Holding w1 err e 0 (err_message e, own_statusCode e) l0 w1).
  { split.
    - split; [| done | lia |].
      + simpl. by rewrite lookup_insert_ne.
      + exists []. by rewrite app_nil_r.
    - exists o0. simpl. rewrite lookup_insert_eq. by rewrite Hmsg0, Hcode0. }
  (* what any later world owes to the one the handler was started in *)
  assert (Hlogged : forall n w',
            Passing w1 err e n w' ->
            ticks w' = (ticks w + 3 + n)%nat
            /\ exists logs, trace w' = trace w ++ logs /\ Logged w e logs w').
  { intros n w' [_ Hframe Hticks (logs & Htrace & Hlogs)]. split.
    { rewrite Hticks. simpl. lia. }
    exists (L1 ++ L2 ++ logs). split; [| split; [| split]].
    - rewrite Htrace. simpl. by rewrite <- !app_assoc.
    - intros l Hl. rewrite Hframe; simpl.
      + rewrite lookup_insert_ne; [done |].
        intros <-. rewrite Hl0 in Hl. by destruct Hl.
      + rewrite lookup_insert_ne; [done |].
        intros <-. rewrite Hl0 in Hl. by destruct Hl.
    - apply Forall_app. split; [apply log_effects_are_logs |].
      apply Forall_app. split; [apply log_effects_are_logs | done].
    - eexists. split; [apply appended_head_app; reflexivity | reflexivity]. }
  clearbody w1 L1 L2.
  (* Mongoose bad ObjectId *)
  rewriting_step HH0 (Some "Resource not found", Some 404%Z) Hl.
  intros error1 w2 HH1.
  (* Mongoose duplicate key *)
  rewriting_step HH1 (Some "Duplicate field value entered", Some 400%Z) Hl.
  intros error2 w3 HH2.
  (* Mongoose validation error *)
  apply wp_bind. eapply wp_get_passing; [apply HH2 |]. cbv beta.
  apply wp_bind. eapply wp_mono.
  { eapply (wp_block_fact _ _ _ _ _ _ _ (Some (field_messages e), Some 400%Z)
              _ _ _
              (err_name e = Some "ValidationError" -> is_Some (err_errors e)));
      [exact HH2 | intros Hname | intros Hname].
    - apply bool_decide_eq_true_1 in Hname.
      apply wp_bind. eapply wp_get_passing; [apply HH2 |]. cbv beta.
      unfold field_messages. destruct (err_errors e) as [errs |] eqn:Herrs.
      + simpl default.
        match type of HH2 with
        | Holding _ _ _ ?n _ _ _ =>
            eapply (wp_mono _ _
                      (Holding w1 err e (S n)
                         (Some (join ", " (map (fun val => default "" (snd val)) errs)),
                          Some 400%Z)))
        end.
        * rewriting_block HH2 Hl.
        * cbv beta. intros error w' HH. split; [exact HH | by eexists].
      + apply wp_throw. split; [done |]. by apply (Hlogged _ _ (proj1 HH2)).
    - apply bool_decide_eq_false_1 in Hname. done. }
  cbv beta. intros error3 w4 [HH3 Hfields].
  (* JWT errors *)
  rewriting_step HH3 (Some "Invalid token", Some 401%Z) Hl.
  intros error4 w5 HH4.
  rewriting_step HH4 (Some "Token expired", Some 401%Z) Hl.
  intros error5 w6 HH5.
  (* Rate limiting errors *)
  rewriting_step HH5
    (Some "Too many requests, please try again later", Some 429%Z) Hl.
  intros error6 w7 HH6.
  (* Database connection errors *)
  rewriting_step HH6 (Some "Database connection error", Some 503%Z) Hl.
  intros error7 w8 HH7.
  match type of HH7 with
  | Holding _ _ _ ?n ?a _ _ =>
      change n with (applying e) in HH7;
      replace a with (latest_match e) in HH7 by apply latest_match_nested
  end.
  (* the response *)
  destruct HH7 as [HP7 (o7 & Ho7 & Ha7)].
  apply wp_bind. eapply wp_get; [exact Ho7 |]. cbv beta.
  apply wp_bind. eapply wp_get_passing; [exact HP7 |]. cbv beta.
  apply wp_bind. apply wp_now. cbv beta zeta.
  apply wp_bind. eapply wp_get; [exact Ho7 |]. cbv beta.
  apply wp_bind. apply wp_log.
  apply wp_bind. eapply wp_get; [rewrite logged_heap; exact Ho7 |]. cbv beta.
  apply wp_emit.
  destruct (Hlogged _ _ HP7) as (Hticks8 & logs & Htrace8 & Hframe8 & Hlogs & Hentry).
  lazymatch goal with
  | |- context [logged proc ?lv ?ln ?m ?meta ?wd] =>
      pose proof (logged_trace lv ln m meta wd) as (dlogs & Hdtrace & Hdlogs);
      pose proof (logged_heap lv ln m meta wd) as Hdheap;
      set (wd' := logged proc lv ln m meta wd) in *
  end.
  cbn [heap ticks trace] in *. split; [exact Hfields |].
  exists (logs ++ dlogs). split; [| split; [| split]].
  - rewrite Hdtrace, Htrace8, <- !app_assoc. do 3 f_equal.
    rewrite Hticks8.
    unfold sent_code, response_body, sent_message. rewrite <- Ha7. simpl.
    destruct (bool_decide (NODE_ENV proc = Some "development")); reflexivity.
  - intros l Hl. rewrite Hdheap. by apply Hframe8.
  - apply Forall_app. by split.
  - destruct Hentry as (entry & Hhead & Hstack). exists entry.
    split; [by apply appended_head_app | done].
Qed.

Lemma replies_logs (logs : list Effect) :
  Forall is_log logs -> replies logs = [].
Proof.
  induction 1 as [| ef logs Hef _ IH]; [done |].
  destruct ef; [exact IH | exact IH | exact IH | done | done].
Qed.

Lemma new_effects_app (w w' : World) (new : list Effect) :
  trace w' = trace w ++ new -> new_effects w w' = new.
Proof. intros Htrace. unfold new_effects. rewrite Htrace. apply drop_app_length. Qed.

Lemma response_body_fields (err : nat) (e : JsError) (rid : option string)
    (ts : Timestamp) :
  let body := response_body proc err e rid ts in
  obj_get "status" body = VStr "error"
  /\ obj_get "message" body = VStr (sent_message (latest_match e))
  /\ obj_get "stack" body
     = (if bool_decide (NODE_ENV proc = Some "development")
        then of_opt_str (err_stack e) else VUndefined)
  /\ obj_has "stack" body = bool_decide (NODE_ENV proc = Some "development")
  /\ obj_has "originalError" body
     = bool_decide (NODE_ENV proc = Some "development").
Proof.
  unfold response_body.
  destruct (bool_decide (NODE_ENV proc = Some "development")); by repeat split.
Qed.

Lemma latest_match_with_stack (s : option string) (e : JsError) :
  latest_match (with_stack s e) = latest_match e.
Proof. by rewrite !latest_match_nested. Qed.

(** The two ways a run of the handler ends. *)
Lemma errorHandler_outcome (err : nat) (req : errorHandler.Request)
    (e : JsError) (w : World) :
  heap w !! err = Some e ->
  let run := errorHandler.errorHandler proc err req w in
  exists logs,
    Logged w e logs (snd run)
    /\ ((~ bare_validation e
         /\ fst run = Ok tt
         /\ trace (snd run)
            = trace w ++ logs
              ++ [Send (sent_code (latest_match e))
                    (response_body proc err e (errorHandler.requestId req)
                       (clock proc (ticks w + 3 + applying e)))])
        \/ (bare_validation e
            /\ (exists exn, fst run = Thrown exn)
            /\ trace (snd run) = trace w ++ logs)).
Proof.
  intros Herr run. pose proof (errorHandler_run err req e w Herr) as Hrun.
  unfold wp in Hrun. subst run.
  destruct (errorHandler.errorHandler proc err req w) as [[[] | exn] w']; simpl.
  - destruct Hrun as (Hfields & logs & Htrace & Hlogged).
    exists logs. split; [done |]. left. split; [| done].
    intros [Hname Hnone]. destruct (Hfields Hname) as [errs Herrs]. congruence.
  - destruct Hrun as (Hbare & logs & Htrace & Hlogged).
    exists logs. split; [done |]. right. eauto.
Qed.

(** The answers of a run: one, unless the handler throws. *)
Lemma answers_run (err : nat) (req : errorHandler.Request) (e : JsError)
    (w : World) :
  heap w !! err = Some e ->
  answers proc err req w
  = if decide (bare_validation e) then []
    else [(sent_code (latest_match e),
           response_body proc err e (errorHandler.requestId req)
             (clock proc (ticks w + 3 + applying e)))].
Proof.
  intros Herr. unfold answers.
  destruct (errorHandler_outcome err req e w Herr)
    as (logs & (_ & Hlogs & _) & [(Hok & _ & Htrace) | (Hbare & _ & Htrace)]);
    rewrite (new_effects_app _ _ _ Htrace).
  - rewrite decide_False by done. unfold replies. rewrite omap_app.
    fold (replies logs). by rewrite replies_logs.
  - rewrite decide_True by done. by apply replies_logs.
Qed.

(** C1, amended. For an error object in the heap (a validation error carrying
    its [errors] map), the handler returns after sending exactly one answer.
    Its body has status "error"; its status code and message are those of
    the latest pattern of the list that applies to the error. When none
    applies they are the message of the error and the status code the error
    has as an own enumerable property, the only kind the copy by spreading
    keeps: a status code the error inherits is not answered. 500 and "Server
    Error" stand in for an absent, zero or empty value. *)
Theorem errorHandler_latest_match (err : nat) (req : errorHandler.Request)
    (e : JsError) (w : World) :
  heap w !! err = Some e ->
  (err_name e = Some "ValidationError" -> is_Some (err_errors e)) ->
  exists body,
    fst (errorHandler.errorHandler proc err req w) = Ok tt
    /\ answers proc err req w = [(sent_code (latest_match e), body)]
    /\ obj_get "status" body = VStr "error"
    /\ obj_get "message" body = VStr (sent_message (latest_match e)).
Proof.
  intros Herr Hfields.
  assert (Hok : ~ bare_validation e).
  { intros [Hname Hnone]. destruct (Hfields Hname) as [errs Herrs]. congruence. }
  eexists. split; [| split].
  - destruct (errorHandler_outcome err req e w Herr)
      as (logs & _ & [(_ & Hrun & _) | (Hbare & _)]); done.
  - rewrite (answers_run err req e w Herr). by rewrite decide_False.
  - split; apply response_body_fields.
Qed.

(** C6, amended. Take two errors that differ only in their stack, handled in
    the same world. In every environment the run appends to the error log,
    first, an entry with the stack of its error. When [NODE_ENV] is
    "development" an answer carries the stack of its error, so that the
    answers to errors with different stacks differ in that field. In every
    other environment, production among them, the answers to the two errors
    are equal and carry neither a stack nor the error object. *)
Theorem stack_only_in_development (err : nat) (req : errorHandler.Request)
    (e : JsError) (w : World) (stack stack' : option string) :
  let world s := holding_error err (with_stack s e) w in
  (exists new entry,
     trace (snd (errorHandler.errorHandler proc err req (world stack)))
     = trace w ++ new
     /\ head (appended "error.log" new) = Some entry
     /\ obj_get "stack" entry = of_opt_str stack)
  /\ ((err_name e = Some "ValidationError" -> is_Some (err_errors e)) ->
        exists r, answers proc err req (world stack) = [r])
  /\ (NODE_ENV proc = Some "development" ->
        Forall (fun r => obj_get "stack" (snd r) = of_opt_str stack)
          (answers proc err req (world stack))
        /\ (stack ≠ stack' ->
            forall r r',
              r ∈ answers proc err req (world stack) ->
              r' ∈ answers proc err req (world stack') ->
              obj_get "stack" (snd r) ≠ obj_get "stack" (snd r')))
  /\ (NODE_ENV proc ≠ Some "development" ->
        answers proc err req (world stack) = answers proc err req (world stack')
        /\ Forall (fun r => obj_has "stack" (snd r) = false
                            /\ obj_has "originalError" (snd r) = false)
             (answers proc err req (world stack))).
Proof.
  intros world.
  assert (Hheld : forall s, heap (world s) !! err = Some (with_stack s e))
    by (intros s; apply lookup_insert_eq).
  assert (Hanswers : forall s,
            answers proc err req (world s)
            = if decide (bare_validation e) then []
              else [(sent_code (latest_match e),
                     response_body proc err (with_stack s e)
                       (errorHandler.requestId req)
                       (clock proc (ticks w + 3 + applying e)))]).
  { intros s. rewrite (answers_run err req _ _ (Hheld s)).
    rewrite latest_match_with_stack. done. }
  assert (Hfield : forall s,
            obj_get "stack"
              (response_body proc err (with_stack s e)
                 (errorHandler.requestId req)
                 (clock proc (ticks w + 3 + applying e)))
            = if bool_decide (NODE_ENV proc = Some "development")
              then of_opt_str s else VUndefined)
    by (intros s; apply response_body_fields).
  split; [| split; [| split]].
  - destruct (errorHandler_outcome err req _ _ (Hheld stack))
      as (logs & (_ & _ & entry & Hhead & Hstack) & Hrun).
    destruct Hrun as [(_ & _ & Htrace) | (_ & _ & Htrace)].
    + eexists _, entry. split; [exact Htrace |].
      split; [by apply appended_head_app | exact Hstack].
    + by exists logs, entry.
  - intros Hfields. rewrite Hanswers. rewrite decide_False; [by eexists |].
    intros [Hname Hnone]. destruct (Hfields Hname) as [errs Herrs]. congruence.
  - intros Hdev. rewrite !Hanswers. destruct (decide (bare_validation e)).
    + split; [constructor |]. intros _ r r' Hr. by apply elem_of_nil in Hr.
    + split.
      * repeat constructor. cbn [snd]. rewrite Hfield.
        by rewrite bool_decide_eq_true_2.
      * intros Hne r r' Hr Hr'.
        apply list_elem_of_singleton in Hr, Hr'. subst r r'. cbn [snd].
        rewrite !Hfield, !bool_decide_eq_true_2 by done.
        intros Heq. destruct stack, stack'; simpl in Heq; congruence.
  - intros Hdev. rewrite !Hanswers. destruct (decide (bare_validation e)).
    + split; [done | constructor].
    + split.
      * unfold response_body. rewrite !latest_match_with_stack.
        by rewrite bool_decide_eq_false_2.
      * repeat constructor; cbn [snd].
        -- destruct (response_body_fields err (with_stack stack e)
                       (errorHandler.requestId req)
                       (clock proc (ticks w + 3 + applying e)))
             as (_ & _ & _ & -> & _).
           by rewrite bool_decide_eq_false_2.
        -- destruct (response_body_fields err (with_stack stack e)
                       (errorHandler.requestId req)
                       (clock proc (ticks w + 3 + applying e)))
             as (_ & _ & _ & _ & ->).
           by rewrite bool_decide_eq_false_2.
Qed.

(** C8. For an error object in the heap, a run of the handler leaves that
    object, and every object of the heap it was started in, as it was: what
    the handler rewrites are objects of its own. Its new effects are logging
    and at most one answer; it never calls [next], through which alone it
    could hand the request on or have it served again. *)
Theorem errorHandler_leaves_error (err : nat) (req : errorHandler.Request)
    (e : JsError) (w : World) :
  heap w !! err = Some e ->
  let w' := snd (errorHandler.errorHandler proc err req w) in
  heap w' !! err = Some e
  /\ (forall l, is_Some (heap w !! l) -> heap w' !! l = heap w !! l)
  /\ exists new,
       trace w' = trace w ++ new
       /\ Forall is_log_or_answer new
       /\ (Next ∉ new)
       /\ (List.length (replies new) <= 1)%nat.
Proof.
  intros Herr w'.
  assert (Hlog : forall logs, Forall is_log logs ->
            Forall is_log_or_answer logs /\ Next ∉ logs).
  { intros logs Hlogs. split.
    - eapply Forall_impl; [exact Hlogs |]. by intros [].
    - intros Hin. rewrite Forall_forall in Hlogs. by apply Hlogs in Hin. }
  destruct (errorHandler_outcome err req e w Herr)
    as (logs & (Hframe & Hlogs & _) & Hrun). fold w' in Hframe, Hrun.
  destruct (Hlog logs Hlogs) as [Hall Hnext].
  split; [rewrite Hframe; by rewrite ?Herr |]. split; [done |].
  destruct Hrun as [(_ & _ & Htrace) | (_ & _ & Htrace)].
  - eexists. split; [exact Htrace |]. split; [| split].
    + apply Forall_app. split; [done |]. by repeat constructor.
    + rewrite not_elem_of_app. split; [done |].
      intros Hin. apply list_elem_of_singleton in Hin. discriminate.
    + unfold replies. rewrite omap_app. fold (replies logs).
      rewrite replies_logs by done. simpl. lia.
  - exists logs. split; [done |]. split; [done |]. split; [done |].
    rewrite replies_logs by done. simpl. lia.
Qed.

End Normalizer.

Section NormalizerSamples.
Import runtime normalizer.

(** The claim of C1 as it is worded fails. The error
    [{name: "CastError", code: 11000, message, stack, value, path}] matches
    the first and the second pattern; it is answered 400 "Duplicate field
    value entered", by the later of the two, not 404 "Resource not found". *)
Lemma earliest_match_does_not_decide :
  ~ (forall (proc : Process) (err : nat) (req : errorHandler.Request)
            (e : JsError) (w : World),
       heap w !! err = Some e ->
       (err_name e = Some "ValidationError" -> is_Some (err_errors e)) ->
       code_and_message <$> answers proc err req w
       = [(sent_code (earliest_match e),
           VStr (sent_message (earliest_match e)))]).
Proof.
  intros Hclaim.
  specialize (Hclaim (sample_process None) 0%nat sample_request
                (sample_error "at castObjectId")
                (sample_world (sample_error "at castObjectId")) eq_refl).
  vm_compute in Hclaim. specialize (Hclaim ltac:(discriminate)).
  discriminate Hclaim.
Qed.

(** What the handler answers there, and what the earliest pattern would. *)
Example cast_error_with_duplicate_code :
  code_and_message
    <$> answers (sample_process None) 0 sample_request
          (sample_world (sample_error "at castObjectId"))
  = [(400%Z, VStr "Duplicate field value entered")]
  /\ earliest_match (sample_error "at castObjectId")
     = (Some "Resource not found", Some 404%Z).
Proof. by vm_compute. Qed.

(** A status code of 404 is answered when the error holds it as its own
    enumerable property, and 500 is answered when the error inherits it. *)
Example status_code_own_or_inherited :
  code_and_message
    <$> answers (sample_process None) 0 sample_request
          (sample_world (coded_error true))
  = [(404%Z, VStr "No such page")]
  /\ code_and_message
     <$> answers (sample_process None) 0 sample_request
           (sample_world (coded_error false))
     = [(500%Z, VStr "No such page")].
Proof. by vm_compute. Qed.

(** The claim of C6 as it is worded fails. With [NODE_ENV] set to "test",
    which is not production, the errors [{name: "Error", message: "boom",
    stack: "at a"}] and [{name: "Error", message: "boom", stack: "at b"}] are
    answered alike, 500 "boom" without a stack field. *)
Lemma stack_withheld_in_test_environment :
  ~ (forall (proc : Process) (err : nat) (req : errorHandler.Request)
            (e : JsError) (w : World) (stack stack' : option string),
       NODE_ENV proc ≠ Some "production" ->
       stack ≠ stack' ->
       (fun r => obj_get "stack" (snd r))
         <$> answers proc err req (holding_error err (with_stack stack e) w)
       ≠ (fun r => obj_get "stack" (snd r))
           <$> answers proc err req (holding_error err (with_stack stack' e) w)).
Proof.
  intros Hclaim.
  apply (Hclaim (sample_process (Some "test")) 0%nat sample_request
           (plain_error None) (sample_world (plain_error None))
           (Some "at a") (Some "at b")).
  - discriminate.
  - discriminate.
  - by vm_compute.
Qed.

Example plain_error_in_test_environment :
  answers (sample_process (Some "test")) 0 sample_request
    (sample_world (plain_error (Some "at a")))
  = [(500%Z,
      [("status", VStr "error"); ("message", VStr "boom");
       ("timestamp", VStr "3"); ("requestId", VStr "r1")])]
  /\ answers (sample_process (Some "test")) 0 sample_request
       (sample_world (plain_error (Some "at b")))
     = answers (sample_process (Some "test")) 0 sample_request
         (sample_world (plain_error (Some "at a"))).
Proof. by vm_compute. Qed.

(** A validation error without its [errors] map makes the handler throw
    before it answers. *)
Example validation_error_without_fields :
  fst (errorHandler.errorHandler (sample_process None) 0 sample_request
         (sample_world bare_validation_error)) = Thrown "TypeError"
  /\ answers (sample_process None) 0 sample_request
       (sample_world bare_validation_error) = [].
Proof. by vm_compute. Qed.

Lemma errorHandler_latest_match_witness :
  exists body,
    fst (errorHandler.errorHandler (sample_process None) 0 sample_request
           (sample_world (sample_error "at castObjectId"))) = Ok tt
    /\ answers (sample_process None) 0 sample_request
         (sample_world (sample_error "at castObjectId"))
       = [(sent_code (latest_match (sample_error "at castObjectId")), body)]
    /\ obj_get "status" body = VStr "error"
    /\ obj_get "message" body
       = VStr (sent_message (latest_match (sample_error "at castObjectId"))).
Proof.
  apply (errorHandler_latest_match (sample_process None) 0 sample_request
           (sample_error "at castObjectId")
           (sample_world (sample_error "at castObjectId"))).
  - reflexivity.
  - simpl. discriminate.
Defined.

Lemma stack_only_in_development_witness :
  (exists r,
     answers (sample_process (Some "development")) 0 sample_request
       (holding_error 0 (with_stack (Some "at a") (plain_error None))
          (sample_world (plain_error None))) = [r])
  /\ Forall (fun r => obj_get "stack" (snd r) = of_opt_str (Some "at a"))
       (answers (sample_process (Some "development")) 0 sample_request
          (holding_error 0 (with_stack (Some "at a") (plain_error None))
             (sample_world (plain_error None)))).
Proof.
  pose proof (stack_only_in_development (sample_process (Some "development")) 0
                sample_request (plain_error None)
                (sample_world (plain_error None)) (Some "at a") (Some "at b"))
    as (_ & Hone & Hdev & _).
  split.
  - apply Hone. simpl. discriminate.
  - apply (Hdev eq_refl).
Defined.

Lemma errorHandler_leaves_error_witness :
  let w := sample_world (sample_error "at castObjectId") in
  let w' := snd (errorHandler.errorHandler (sample_process None) 0
                   sample_request w) in
  heap w' !! 0%nat = Some (sample_error "at castObjectId")
  /\ (forall l, is_Some (heap w !! l) -> heap w' !! l = heap w !! l)
  /\ exists new,
       trace w' = trace w ++ new
       /\ Forall is_log_or_answer new
       /\ (Next ∉ new)
       /\ (List.length (replies new) <= 1)%nat.
Proof.
  apply (errorHandler_leaves_error (sample_process None) 0 sample_request
           (sample_error "at castObjectId")
           (sample_world (sample_error "at castObjectId"))).
  reflexivity.
Defined.

End NormalizerSamples.

(** ** The auth gate *)

Section AuthGate.
Import models auth.

Variable jwt_verify : string -> Verdict.

Lemma strip_prefix_Some (p s t : string) :
  strip_prefix p s = Some t <-> s = (p ++ t)%string.
Proof.
  revert s. induction p as [| a p IH]; intros s; simpl.
  - split; [by intros [= ->] | by intros ->].
  - destruct s as [| b s]; [split; discriminate |].
    destruct (Ascii.eqb_spec a b) as [-> | Hne].
    + rewrite IH. split; [by intros -> | by intros [= ->]].
    + split; [discriminate | intros [= Hb _]; congruence].
Qed.

Lemma bearer_token_Some (header token : string) :
  bearer_token header = Some token <-> header = ("Bearer " ++ token)%string.
Proof. apply strip_prefix_Some. Qed.

Lemma bearer_token_None (header : string) :
  bearer_token header = None
  <-> forall token, header <> ("Bearer " ++ token)%string.
Proof.
  split.
  - intros Hnone token Heq%bearer_token_Some. congruence.
  - intros Hform. destruct (bearer_token header) as [token |] eqn:Htoken; [| done].
    by apply bearer_token_Some, Hform in Htoken.
Qed.

Lemma without_password_shown (id : ObjectId) (u : User) :
  user_without_password id u (without_password id u).
Proof. by repeat split. Qed.

(** C2. The gate has exactly these outcomes. Without the header it answers
    401 "No token, authorization denied". With a header that is not the
    word Bearer, a space and a token, with a token whose signature is invalid
    or that is expired, and with a verified token whose user is not in the
    store, it answers 401 "Token is not valid", the same message in each
    case. Only with a header of that form, whose token is verified and names
    a stored user, does it call the next handler, on the request with that
    user attached: the identifier and every field of the stored record as it
    is stored, but the password, for which what is attached has no place.
    Every rejection is a 401 in the error envelope, and the next handler runs
    in the last case only. *)
Theorem auth_outcomes (users : gmap string User) (req : Request) :
  (authorization req = None ->
     auth jwt_verify users req
     = Rejected {| code := 401; status := "error";
                   message := "No token, authorization denied" |} None)
  /\ (forall header,
        authorization req = Some header ->
        (forall token, header <> ("Bearer " ++ token)%string)
        \/ (exists token,
              header = ("Bearer " ++ token)%string
              /\ (jwt_verify token = InvalidSignature
                  \/ jwt_verify token = Expired
                  \/ exists userId,
                       jwt_verify token = Verified userId
                       /\ users !! userId = None)) ->
        exists log,
          auth jwt_verify users req
          = Rejected {| code := 401; status := "error";
                        message := "Token is not valid" |} log)
  /\ (forall token userId u,
        authorization req = Some ("Bearer " ++ token)%string ->
        jwt_verify token = Verified userId ->
        users !! userId = Some u ->
        exists attached,
          auth jwt_verify users req
          = Continue {| authorization := authorization req;
                        user := Some attached |}
          /\ pub_id attached = userId
          /\ pub_username attached = username u
          /\ pub_email attached = email u
          /\ pub_firstName attached = firstName u
          /\ pub_lastName attached = lastName u
          /\ pub_avatar attached = avatar u
          /\ pub_isActive attached = isActive u)
  /\ (next_called (auth jwt_verify users req) = true <->
        exists token userId,
          authorization req = Some ("Bearer " ++ token)%string
          /\ jwt_verify token = Verified userId
          /\ is_Some (users !! userId))
  /\ (forall res log,
        auth jwt_verify users req = Rejected res log ->
        code res = 401%nat /\ status res = "error"
        /\ (message res = "No token, authorization denied"
            \/ message res = "Token is not valid")).
Proof.
  unfold auth. split; [| split; [| split; [| split]]].
  - by intros ->.
  - intros header -> [Hform | (token & Htoken & Hverify)].
    + apply bearer_token_None in Hform. rewrite Hform. eauto.
    + apply bearer_token_Some in Htoken. rewrite Htoken.
      destruct Hverify as [-> | [-> | (userId & -> & ->)]]; eauto.
  - intros token userId u -> Hverify Hu.
    rewrite (proj2 (bearer_token_Some _ token) eq_refl), Hverify, Hu.
    exists (without_password userId u). split; [done |].
    apply without_password_shown.
  - split.
    + destruct (authorization req) as [header |]; [| done].
      destruct (bearer_token header) as [token |] eqn:Htoken; [| done].
      destruct (jwt_verify token) as [userId | |] eqn:Hverify; [| done | done].
      destruct (users !! userId) as [u |] eqn:Hu; [| done].
      intros _. exists token, userId. apply bearer_token_Some in Htoken.
      by rewrite Htoken, Hverify, Hu.
    + intros (token & userId & -> & Hverify & [u Hu]).
      by rewrite (proj2 (bearer_token_Some _ token) eq_refl), Hverify, Hu.
  - intros res log.
    destruct (authorization req) as [header |];
      [| intros [= <- _]; split; [done | split; [done | by left]]].
    destruct (bearer_token header) as [token |];
      [| intros [= <- _]; split; [done | split; [done | by right]]].
    destruct (jwt_verify token) as [userId | |];
      [| intros [= <- _]; split; [done | split; [done | by right]] ..].
    destruct (users !! userId);
      [done | intros [= <- _]; split; [done | split; [done | by right]]].
Qed.

End AuthGate.

Lemma auth_outcomes_witness :
  exists attached,
    auth.auth sample_verify sample_users
      {| auth.authorization := Some "Bearer good"; auth.user := None |}
    = auth.Continue
        {| auth.authorization := Some "Bearer good";
           auth.user := Some attached |}
    /\ models.pub_id attached = "u1"
    /\ models.pub_username attached = "alice"
    /\ models.pub_email attached = "alice@example.com"
    /\ models.pub_firstName attached = "Alice"
    /\ models.pub_lastName attached = "Doe"
    /\ models.pub_avatar attached = None
    /\ models.pub_isActive attached = true.
Proof.
  pose proof (auth_outcomes sample_verify sample_users
                {| auth.authorization := Some "Bearer good"; auth.user := None |})
    as (_ & _ & Hcontinue & _).
  apply (Hcontinue "good" "u1" sample_user); reflexivity.
Defined.

(** ** Registration *)

Section Registration.
Import models authRoutes.

Variable hash : string -> string.
Variable sign : ObjectId -> string.

Lemma taken_true (users : gmap string User) (r : Registration) :
  taken users r = true <->
  exists id u,
    users !! id = Some u
    /\ (email u = reg_email r \/ username u = reg_username r).
Proof.
  unfold taken. rewrite bool_decide_eq_true, map_Exists_lookup. done.
Qed.

(** A registration with a new email and a new username stores one user more,
    with the hashed password. *)
Lemma register_new (r : Registration) (users : gmap string User) :
  taken users r = false ->
  exists id,
    users !! id = None
    /\ code (fst (register hash sign r users)) = 201%nat
    /\ snd (register hash sign r users) !! id
       = Some {| username := reg_username r; email := reg_email r;
                 password := hash (reg_password r);
                 firstName := reg_firstName r; lastName := reg_lastName r;
                 avatar := None; isActive := true |}.
Proof.
  intros Hfree. unfold register. rewrite Hfree. simpl.
  exists (fresh (dom users)). split; [| split; [done |]].
  - apply not_elem_of_dom, is_fresh.
  - apply lookup_insert_eq.
Qed.

(** C9. When the email or the username of a registration is that of a user
    already in the credential store, the answer is 400 in the error envelope,
    with one of the two messages the test suites name, and the store is left
    as it was: no user record is created. *)
Theorem register_duplicate (r : Registration) (users : gmap string User)
    (id : ObjectId) (u : User) :
  users !! id = Some u ->
  email u = reg_email r \/ username u = reg_username r ->
  code (fst (register hash sign r users)) = 400%nat
  /\ status (fst (register hash sign r users)) = "error"
  /\ (message (fst (register hash sign r users)) = Some "User already exists"
      \/ message (fst (register hash sign r users))
         = Some "User with this email or username already exists")
  /\ token (fst (register hash sign r users)) = None
  /\ snd (register hash sign r users) = users.
Proof.
  intros Hu Hsame.
  assert (Htaken : taken users r = true) by (apply taken_true; eauto).
  unfold register. rewrite Htaken. simpl. by repeat split; [left |..].
Qed.

End Registration.

Lemma register_duplicate_witness :
  let res :=
    authRoutes.register (fun p => "hashed:" ++ p)%string
      (fun id => "token:" ++ id)%string
      (sample_registration "bob" "alice@example.com") sample_users in
  authRoutes.code (fst res) = 400%nat
  /\ authRoutes.status (fst res) = "error"
  /\ (authRoutes.message (fst res) = Some "User already exists"
      \/ authRoutes.message (fst res)
         = Some "User with this email or username already exists")
  /\ authRoutes.token (fst res) = None
  /\ snd res = sample_users.
Proof.
  apply (register_duplicate _ _ (sample_registration "bob" "alice@example.com")
           sample_users "u1" sample_user).
  - reflexivity.
  - left. reflexivity.
Defined.

(** ** Regular expressions *)

Section Regex.
Import regex.

Lemma Matches_chr_inv (cls : N -> bool) (s : list N) :
  Matches (Chr cls) s -> exists c, s = [c] /\ cls c = true.
Proof. inversion 1; subst. eauto. Qed.

Lemma Matches_cat_inv (r1 r2 : re) (s : list N) :
  Matches (Cat r1 r2) s ->
  exists s1 s2, s = s1 ++ s2 /\ Matches r1 s1 /\ Matches r2 s2.
Proof. inversion 1; subst. eauto. Qed.

Lemma Matches_alt_inv (r1 r2 : re) (s : list N) :
  Matches (Alt r1 r2) s -> Matches r1 s \/ Matches r2 s.
Proof. inversion 1; subst; auto. Qed.

(** A non-empty match of a repetition starts with a non-empty match of its
    body. *)
Lemma Matches_star_inv (r : re) (s : list N) :
  Matches (Star r) s ->
  s = [] \/ exists c s1 s2,
              s = (c :: s1) ++ s2 /\ Matches r (c :: s1) /\ Matches (Star r) s2.
Proof.
  intros H. remember (Star r) as r' eqn:Hr'.
  induction H as [| | | | | r0 | r0 s1 s2 H1 _ H2 IH2]; try discriminate.
  - by left.
  - injection Hr' as ->. destruct s1 as [| c s1].
    + simpl. by apply IH2.
    + right. by exists c, s1, s2.
Qed.

Lemma nullable_Matches (r : re) : nullable r = true <-> Matches r [].
Proof.
  induction r as [| | cls | r1 IH1 r2 IH2 | r1 IH1 r2 IH2 | r IH]; simpl.
  - split; [discriminate | inversion 1].
  - split; [constructor | done].
  - split; [discriminate | inversion 1].
  - rewrite andb_true_iff, IH1, IH2. split.
    + intros [H1 H2]. exact (Matches_cat _ _ [] [] H1 H2).
    + intros (s1 & s2 & Hs & H1 & H2)%Matches_cat_inv.
      symmetry in Hs. apply app_eq_nil in Hs as [-> ->]. done.
  - rewrite orb_true_iff, IH1, IH2. split.
    + intros [H | H]; [by apply Matches_alt_l | by apply Matches_alt_r].
    + apply Matches_alt_inv.
  - split; [constructor | done].
Qed.

Lemma deriv_Matches (c : N) (r : re) (s : list N) :
  Matches (deriv c r) s <-> Matches r (c :: s).
Proof.
  revert s.
  induction r as [| | cls | r1 IH1 r2 IH2 | r1 IH1 r2 IH2 | r IH]; intros s; simpl.
  - split; inversion 1.
  - split; inversion 1.
  - destruct (cls c) eqn:Hc; split.
    + inversion 1; subst. by constructor.
    + intros (c' & [= <- ->] & _)%Matches_chr_inv. constructor.
    + inversion 1.
    + intros (c' & [= <- ->] & Hc')%Matches_chr_inv. congruence.
  - assert (Hcat : Matches (Cat (deriv c r1) r2) s ->
                   Matches (Cat r1 r2) (c :: s)).
    { intros (s1 & s2 & -> & H1 & H2)%Matches_cat_inv.
      apply IH1 in H1. exact (Matches_cat _ _ (c :: s1) s2 H1 H2). }
    assert (Hinv : Matches (Cat r1 r2) (c :: s) ->
                   Matches (Cat (deriv c r1) r2) s
                   \/ (Matches r1 [] /\ Matches (deriv c r2) s)).
    { intros (s1 & s2 & Hs & H1 & H2)%Matches_cat_inv.
      destruct s1 as [| c' s1]; simpl in Hs.
      - right. subst s2. split; [done | by apply IH2].
      - injection Hs as <- ->. left. constructor; [by apply IH1 | done]. }
    destruct (nullable r1) eqn:Hnull; split.
    + intros [H | H]%Matches_alt_inv; [by apply Hcat |].
      apply nullable_Matches in Hnull.
      exact (Matches_cat _ _ [] (c :: s) Hnull (proj1 (IH2 s) H)).
    + intros H. destruct (Hinv H) as [H' | [_ H']];
        [by apply Matches_alt_l | by apply Matches_alt_r].
    + apply Hcat.
    + intros H. destruct (Hinv H) as [H' | [Hnil _]]; [done |].
      apply nullable_Matches in Hnil. congruence.
  - split.
    + intros [H | H]%Matches_alt_inv;
        [apply Matches_alt_l, IH1 | apply Matches_alt_r, IH2]; done.
    + intros [H | H]%Matches_alt_inv;
        [apply Matches_alt_l, IH1 | apply Matches_alt_r, IH2]; done.
  - split.
    + intros (s1 & s2 & -> & H1 & H2)%Matches_cat_inv.
      apply IH in H1. exact (Matches_star_cons _ (c :: s1) s2 H1 H2).
    + intros H. apply Matches_star_inv in H as [Hnil | (c' & s1 & s2 & Heq & H1 & H2)];
        [discriminate |].
      injection Heq as -> ->. constructor; [by apply IH | done].
Qed.

(** The matcher decides the denotation. *)
Lemma test_whole_Matches (r : re) (s : list N) :
  test_whole r s = true <-> Matches r s.
Proof.
  unfold test_whole. revert r. induction s as [| c s IH]; intros r; simpl.
  - apply nullable_Matches.
  - rewrite IH. apply deriv_Matches.
Qed.

Lemma Matches_star_class (cls : N -> bool) (s : list N) :
  Matches (Star (Chr cls)) s <-> Forall (fun c => cls c = true) s.
Proof.
  split.
  - intros H. remember (Star (Chr cls)) as r eqn:Hr.
    induction H as [| | | | | r0 | r0 s1 s2 H1 _ H2 IH2]; try discriminate.
    + constructor.
    + injection Hr as ->. apply Matches_chr_inv in H1 as (c & -> & Hc).
      constructor; [done | by apply IH2].
  - induction 1 as [| c s Hc _ IH]; [constructor |].
    exact (Matches_star_cons _ [c] s (Matches_chr _ _ Hc) IH).
Qed.

Lemma Matches_plus_class (cls : N -> bool) (s : list N) :
  Matches (Plus (Chr cls)) s <-> s ≠ [] /\ Forall (fun c => cls c = true) s.
Proof.
  unfold Plus. split.
  - intros (s1 & s2 & -> & (c & -> & Hc)%Matches_chr_inv & H2)%Matches_cat_inv.
    apply Matches_star_class in H2. split; [done | by constructor].
  - intros [Hne Hall]. destruct s as [| c s]; [done |].
    apply Forall_cons in Hall as [Hc Hall].
    exact (Matches_cat _ _ [c] s (Matches_chr _ _ Hc)
             (proj2 (Matches_star_class cls s) Hall)).
Qed.

Lemma Matches_times_class (cls : N -> bool) (n : nat) (s : list N) :
  Matches (Times n (Chr cls)) s <->
  List.length s = n /\ Forall (fun c => cls c = true) s.
Proof.
  revert s. induction n as [| n IH]; intros s; simpl.
  - split.
    + inversion 1. by split.
    + intros [Hlen _]. destruct s; [constructor | discriminate].
  - split.
    + intros (s1 & s2 & -> & (c & -> & Hc)%Matches_chr_inv & H2)%Matches_cat_inv.
      apply IH in H2 as [Hlen Hall]. simpl.
      split; [by rewrite Hlen | by constructor].
    + intros [Hlen Hall]. destruct s as [| c s]; [discriminate |].
      apply Forall_cons in Hall as [Hc Hall]. injection Hlen as Hlen.
      exact (Matches_cat _ _ [c] s (Matches_chr _ _ Hc) (proj2 (IH s) (conj Hlen Hall))).
Qed.

End Regex.

(** ** utils/validator.js: the remaining validators *)

Section Validators.
Import validator.

Lemma email_class_plain (c : N) : email_class c = true <-> email_plain c.
Proof.
  unfold email_class, email_plain.
  rewrite negb_true_iff, orb_false_iff, N.eqb_neq. tauto.
Qed.

Lemma Forall_email_plain (s : list N) :
  Forall (fun c => email_class c = true) s <-> Forall email_plain s.
Proof. apply Forall_iff. intros c. apply email_class_plain. Qed.

Lemma Matches_literal (k : N) (s : list N) :
  Matches (regex.Chr (N.eqb k)) s <-> s = [k].
Proof.
  split.
  - intros (c & -> & Hc)%Matches_chr_inv. apply N.eqb_eq in Hc. by subst.
  - intros ->. constructor. apply N.eqb_refl.
Qed.

Lemma isValidEmail_parts (email : list N) :
  isValidEmail email = true <->
  exists l d t,
    email = l ++ [64%N] ++ d ++ [46%N] ++ t
    /\ l <> [] /\ d <> [] /\ t <> []
    /\ Forall email_plain l /\ Forall email_plain d /\ Forall email_plain t.
Proof.
  unfold isValidEmail, emailRegex. rewrite test_whole_Matches. split.
  - intros (l & s1 & -> & Hl & H1)%Matches_cat_inv.
    apply Matches_cat_inv in H1 as (a & s2 & -> & ->%Matches_literal & H2).
    apply Matches_cat_inv in H2 as (d & s3 & -> & Hd & H3).
    apply Matches_cat_inv in H3 as (o & t & -> & ->%Matches_literal & Ht).
    apply Matches_plus_class in Hl as [? ?%Forall_email_plain].
    apply Matches_plus_class in Hd as [? ?%Forall_email_plain].
    apply Matches_plus_class in Ht as [? ?%Forall_email_plain].
    by exists l, d, t.
  - intros (l & d & t & -> & ? & ? & ? & Hl & Hd & Ht).
    apply Forall_email_plain in Hl, Hd, Ht.
    repeat (apply Matches_cat);
      try (by apply Matches_plus_class); by apply Matches_literal.
Qed.

(** X1. An email address is accepted exactly when it is a non-empty local
    part, an at sign, a non-empty domain, a dot and a non-empty rest, none of
    the three parts holding white space or an at sign. *)
Theorem isValidEmail_iff (email : list N) :
  isValidEmail email = true <->
  exists l d t,
    email = l ++ [64%N] ++ d ++ [46%N] ++ t
    /\ l <> [] /\ d <> [] /\ t <> []
    /\ Forall email_plain l /\ Forall email_plain d /\ Forall email_plain t.
Proof. apply isValidEmail_parts. Qed.

(** X2. An accepted email address holds exactly one at sign and no white
    space. *)
Theorem isValidEmail_one_at (email : list N) :
  isValidEmail email = true ->
  List.length (filter (fun c => c = 64%N) email) = 1%nat
  /\ Forall (fun c => regex.whitespace c = false) email.
Proof.
  intros (l & d & t & -> & _ & _ & _ & Hl & Hd & Ht)%isValidEmail_parts.
  assert (Hnone : forall s, Forall email_plain s ->
                            filter (fun c => c = 64%N) s = []).
  { intros s Hs. induction Hs as [| c s [_ Hc] _ IH]; [done |].
    by rewrite filter_cons_False. }
  assert (Hws : forall s, Forall email_plain s ->
                          Forall (fun c => regex.whitespace c = false) s).
  { intros s Hs. eapply Forall_impl; [exact Hs |]. by intros c [? _]. }
  split.
  - rewrite !filter_app, (Hnone l), (Hnone d), (Hnone t) by done. done.
  - rewrite !Forall_app. repeat split; auto; by repeat constructor.
Qed.

Lemma isValidEmail_one_at_witness :
  List.length (filter (fun c => c = 64%N) (of_string "a@b.c")) = 1%nat
  /\ Forall (fun c => regex.whitespace c = false) (of_string "a@b.c").
Proof. apply isValidEmail_one_at. reflexivity. Defined.

Lemma username_class_char (c : N) :
  regex.lower c || regex.upper c || regex.digit c || (c =? 95)%N = true
  <-> username_char c.
Proof.
  unfold regex.lower, regex.upper, regex.digit, regex.between, username_char.
  rewrite !orb_true_iff, !andb_true_iff, !N.leb_le, N.eqb_eq. lia.
Qed.

(** X3. A username is accepted exactly when it has between 3 and 20 code
    units, each an ASCII letter, a digit or the underscore. *)
Theorem isValidUsername_iff (username : list N) :
  isValidUsername username = true <->
  (3 <= List.length username <= 20)%nat /\ Forall username_char username.
Proof.
  unfold isValidUsername.
  destruct username as [| c s]; [simpl; split; [done | lia] |].
  set (u := c :: s).
  destruct (List.length u <? 3)%nat eqn:Hlo; [| destruct (20 <? List.length u)%nat eqn:Hhi];
    cbn [orb].
  - apply Nat.ltb_lt in Hlo. split; [done | lia].
  - apply Nat.ltb_lt in Hhi. split; [done | lia].
  - apply Nat.ltb_ge in Hlo, Hhi.
    unfold usernameRegex. rewrite test_whole_Matches, Matches_plus_class.
    rewrite (Forall_iff _ _ username_char) by (intros x; apply username_class_char).
    split; [intros [_ ?]; split; [lia | done] | intros [_ ?]; by split].
Qed.

Lemma hex_class_digit (c : N) : hex_class c = true <-> hex_digit c.
Proof.
  unfold hex_class, regex.digit, regex.between, hex_digit.
  rewrite !orb_true_iff, !andb_true_iff, !N.leb_le. lia.
Qed.

(** X4. An object id is accepted exactly when it is 24 hexadecimal digits. *)
Theorem isValidObjectId_iff (id : list N) :
  isValidObjectId id = true <->
  List.length id = 24%nat /\ Forall hex_digit id.
Proof.
  unfold isValidObjectId, objectIdRegex.
  rewrite test_whole_Matches, Matches_times_class.
  by rewrite (Forall_iff _ _ hex_digit) by (intros x; apply hex_class_digit).
Qed.

End Validators.

(** ** utils/validator.js: sanitizeHtml *)

Section Sanitize.
Import validator.

Lemma replace_all_app (c : N) (r : string) (s1 s2 : list N) :
  replace_all c r (s1 ++ s2) = replace_all c r s1 ++ replace_all c r s2.
Proof. unfold replace_all. apply flat_map_app. Qed.

Lemma replace_all_unit (c : N) (r : string) (x : N) :
  replace_all c r [x] = if (x =? c)%N then of_string r else [x].
Proof. unfold replace_all. simpl. apply app_nil_r. Qed.

Lemma escape_plain (c : N) : c ∉ escaped -> escape c = [c].
Proof.
  unfold escaped, escape. rewrite !not_elem_of_cons. intros (? & ? & ? & ? & ? & ? & _).
  by repeat (case N.eqb_spec; [done | intros _]).
Qed.

Lemma escape_escaped (c : N) :
  c ∈ escaped -> exists rest, escape c = 38%N :: rest /\ (3 <= List.length rest)%nat.
Proof.
  unfold escaped. rewrite !elem_of_cons, elem_of_nil.
  intros [-> | [-> | [-> | [-> | [-> | [-> | []]]]]]];
    vm_compute; eexists; (split; [reflexivity | simpl; lia]).
Qed.

Lemma sanitizeHtml_cons (c : N) (s : list N) :
  sanitizeHtml (c :: s) = escape c ++ sanitizeHtml s.
Proof.
  assert (Hunit : sanitizeHtml [c] = escape c).
  { destruct (decide (c ∈ escaped)) as [Hin | Hout].
    - revert Hin. unfold escaped. rewrite !elem_of_cons, elem_of_nil.
      by intros [-> | [-> | [-> | [-> | [-> | [-> | []]]]]]].
    - rewrite (escape_plain c Hout). revert Hout.
      unfold escaped. rewrite !not_elem_of_cons.
      intros (?%N.eqb_neq & ?%N.eqb_neq & ?%N.eqb_neq & ?%N.eqb_neq
              & ?%N.eqb_neq & ?%N.eqb_neq & _).
      unfold sanitizeHtml.
      repeat (rewrite replace_all_unit;
              match goal with H : (c =? _)%N = false |- _ => rewrite H; clear H end).
      done. }
  destruct s as [| c' s]; [by rewrite app_nil_r |].
  rewrite <- Hunit. unfold sanitizeHtml.
  change (c :: c' :: s) with ([c] ++ c' :: s).
  by rewrite !replace_all_app.
Qed.

Lemma sanitizeHtml_length (s : list N) :
  (List.length s <= List.length (sanitizeHtml s))%nat.
Proof.
  induction s as [| c s IH]; [done |].
  rewrite sanitizeHtml_cons, length_app.
  destruct (decide (c ∈ escaped)) as [Hin | Hout].
  - destruct (escape_escaped c Hin) as (rest & -> & ?). simpl. lia.
  - rewrite (escape_plain c Hout). simpl. lia.
Qed.

(** The entities can be told apart from their first code units on, and from
    every code unit that is left alone. *)
Lemma escape_app_inj (c1 c2 : N) (t1 t2 : list N) :
  escape c1 ++ t1 = escape c2 ++ t2 -> c1 = c2 /\ t1 = t2.
Proof.
  unfold escape.
  repeat (case N.eqb_spec; [intros -> | intros ?]);
    intros H; vm_compute in H; try discriminate H;
    injection H; intros; subst; by split.
Qed.

Lemma sanitizeHtml_inj (s1 s2 : list N) :
  sanitizeHtml s1 = sanitizeHtml s2 -> s1 = s2.
Proof.
  revert s2. induction s1 as [| c1 s1 IH]; intros [| c2 s2] H; [done | | |].
  - rewrite sanitizeHtml_cons in H. pose proof (sanitizeHtml_length (c2 :: s2)) as Hlen.
    rewrite sanitizeHtml_cons, <- H in Hlen. simpl in Hlen. lia.
  - rewrite sanitizeHtml_cons in H. pose proof (sanitizeHtml_length (c1 :: s1)) as Hlen.
    rewrite sanitizeHtml_cons, H in Hlen. simpl in Hlen. lia.
  - rewrite !sanitizeHtml_cons in H. apply escape_app_inj in H as [-> H].
    by rewrite (IH _ H).
Qed.

Lemma sanitizeHtml_fixed (s : list N) :
  sanitizeHtml s = s <-> Forall (fun c => c ∉ escaped) s.
Proof.
  induction s as [| c s IH]; [by split |].
  rewrite sanitizeHtml_cons, Forall_cons. split.
  - destruct (decide (c ∈ escaped)) as [Hin | Hout].
    + destruct (escape_escaped c Hin) as (rest & -> & Hrest). simpl.
      intros [= <- Hs]. pose proof (sanitizeHtml_length s) as Hlen.
      apply (f_equal List.length) in Hs. rewrite length_app in Hs. lia.
    + rewrite (escape_plain c Hout). intros [= Hs]. split; [done | by apply IH].
  - intros [Hout Hs]. rewrite (escape_plain c Hout). simpl. f_equal. by apply IH.
Qed.

(** X5. The six replacements in sequence amount to one pass that escapes each
    code unit on its own: no replacement rewrites the output of an earlier
    one. *)
Theorem sanitizeHtml_one_pass (content : list N) :
  sanitizeHtml content = flat_map escape content.
Proof.
  induction content as [| c s IH]; [done |].
  rewrite sanitizeHtml_cons, IH. done.
Qed.

(** X6. The sanitized content holds no angle bracket, no quote of either kind
    and no slash. *)
Theorem sanitizeHtml_no_markup (content : list N) :
  Forall (fun c => c ∉ markup) (sanitizeHtml content).
Proof.
  induction content as [| c s IH]; [constructor |].
  rewrite sanitizeHtml_cons. apply Forall_app. split; [| done].
  destruct (decide (c ∈ escaped)) as [Hin | Hout].
  - revert Hin. unfold escaped. rewrite !elem_of_cons, elem_of_nil.
    intros [-> | [-> | [-> | [-> | [-> | [-> | []]]]]]];
      apply (bool_decide_unpack _); by vm_compute.
  - rewrite (escape_plain c Hout). repeat constructor.
    revert Hout. unfold escaped, markup. rewrite !not_elem_of_cons. tauto.
Qed.

(** X7. Sanitizing loses nothing: different contents have different sanitized
    forms. *)
Theorem sanitizeHtml_injective (content1 content2 : list N) :
  content1 <> content2 -> sanitizeHtml content1 <> sanitizeHtml content2.
Proof. intros Hne Heq. by apply Hne, sanitizeHtml_inj. Qed.

Lemma sanitizeHtml_injective_witness :
  sanitizeHtml (of_string "<b>") <> sanitizeHtml (of_string "&lt;b&gt;").
Proof. apply sanitizeHtml_injective. discriminate. Defined.

(** X8. Sanitizing a second time changes the result, except for contents in
    which nothing had to be escaped. *)
Theorem sanitizeHtml_twice (content : list N) :
  sanitizeHtml (sanitizeHtml content) = sanitizeHtml content
  <-> Forall (fun c => c ∉ escaped) content.
Proof.
  rewrite <- sanitizeHtml_fixed. split.
  - apply sanitizeHtml_inj.
  - intros H. by rewrite !H.
Qed.

End Sanitize.

(** ** utils/helpers.js: paginate *)

Section Paginate.
Import helpers.
Local Open Scope Z_scope.

Lemma slice_take_drop {A : Type} (array : list A) (s e : nat) :
  slice array (Z.of_nat s) (Z.of_nat e) = take (e - s) (drop s array).
Proof.
  unfold slice, relative_index.
  destruct (Z.ltb_spec (Z.of_nat s) 0); [lia |].
  destruct (Z.ltb_spec (Z.of_nat e) 0); [lia |].
  rewrite <- !Nat2Z.inj_min, !Nat2Z.id.
  destruct (le_lt_dec (List.length array) s).
  - rewrite !drop_ge by lia. by rewrite !take_nil.
  - rewrite (Nat.min_l s) by lia. destruct (le_lt_dec e (List.length array)).
    + by rewrite (Nat.min_l e) by lia.
    + rewrite (Nat.min_r e) by lia.
      rewrite !take_ge; [done | |]; rewrite length_drop; lia.
Qed.

Lemma paginate_data {A : Type} (array : list A) (page limit : Z) :
  1 <= page -> 0 <= limit ->
  data (paginate array page limit)
  = take (Z.to_nat limit) (drop (Z.to_nat ((page - 1) * limit)) array).
Proof.
  intros Hp Hl. unfold paginate. cbn [value data].
  rewrite <- (Z2Nat.id ((page - 1) * limit)) at 1 by nia.
  rewrite <- (Z2Nat.id (page * limit)) by nia.
  rewrite slice_take_drop. f_equal.
  replace (page * limit) with ((page - 1) * limit + limit) by ring.
  rewrite Z2Nat.inj_add by nia. lia.
Qed.

Lemma ceil_quotient_pos (a : nat) (b : Z) :
  1 <= b ->
  exists q, ceil_quotient a b = Int q
            /\ 0 <= q /\ (q - 1) * b < Z.of_nat a <= q * b.
Proof.
  intros Hb. unfold ceil_quotient.
  destruct (Z.eqb_spec b 0); [lia |]. destruct (Z.ltb_spec b 0); [lia |].
  cbn [andb]. eexists. split; [reflexivity |].
  pose proof (Z.div_mod (- Z.of_nat a) b ltac:(lia)).
  pose proof (Z.mod_pos_bound (- Z.of_nat a) b ltac:(lia)). nia.
Qed.

(** X9. For a limit of at least 1, the pages from the first to the last one
    announced, taken in order, make up the array: no item is lost and none
    appears twice. *)
Theorem paginate_partition {A : Type} (array : list A) (limit : Z) :
  1 <= limit ->
  exists n : nat,
    pages (pagination (paginate array 1 limit)) = Int (Z.of_nat n)
    /\ flat_map (fun p => data (paginate array (Z.of_nat p) limit)) (seq 1 n)
       = array.
Proof.
  intros Hl.
  destruct (ceil_quotient_pos (List.length array) limit Hl)
    as (q & Hq & Hq0 & Hlo & Hhi).
  exists (Z.to_nat q). split.
  { unfold paginate. cbn [value pagination pages]. by rewrite Hq, Z2Nat.id. }
  assert (Hpre : forall n,
             flat_map (fun p => data (paginate array (Z.of_nat p) limit)) (seq 1 n)
             = take (n * Z.to_nat limit) array).
  { induction n as [| n IH]; [done |].
    rewrite seq_S, flat_map_app, IH. cbn [flat_map].
    rewrite app_nil_r, paginate_data by lia.
    replace (Z.to_nat ((Z.of_nat (1 + n) - 1) * limit))
      with (n * Z.to_nat limit)%nat by nia.
    rewrite take_take_drop. f_equal. lia. }
  rewrite Hpre. apply take_ge. nia.
Qed.

Lemma paginate_partition_witness :
  exists n : nat,
    pages (pagination (paginate [1; 2; 3; 4; 5; 6; 7] 1 3)) = Int (Z.of_nat n)
    /\ flat_map (fun p => data (paginate [1; 2; 3; 4; 5; 6; 7] (Z.of_nat p) 3))
         (seq 1 n)
       = [1; 2; 3; 4; 5; 6; 7].
Proof. apply paginate_partition. lia. Defined.

(** X10. For a limit and a page of at least 1, a next page is announced exactly
    for the pages before the last, a previous one exactly for the pages after
    the first, and exactly the pages up to the last hold items. *)
Theorem paginate_flags {A : Type} (array : list A) (page limit : Z) :
  1 <= limit -> 1 <= page ->
  exists n,
    pages (pagination (paginate array page limit)) = Int n
    /\ (hasNext (pagination (paginate array page limit)) = true <-> page < n)
    /\ (hasPrev (pagination (paginate array page limit)) = true <-> 1 < page)
    /\ (data (paginate array page limit) <> [] <-> page <= n).
Proof.
  intros Hl Hp.
  destruct (ceil_quotient_pos (List.length array) limit Hl)
    as (q & Hq & Hq0 & Hlo & Hhi).
  exists q. split; [exact Hq |].
  unfold paginate at 1 2. cbn [value pagination hasNext hasPrev].
  rewrite !Z.ltb_lt. split; [nia |]. split; [nia |].
  assert (Hlen : List.length (data (paginate array page limit))
                 = Nat.min (Z.to_nat limit)
                     (List.length array - Z.to_nat ((page - 1) * limit))).
  { by rewrite paginate_data, length_take, length_drop by lia. }
  destruct (data (paginate array page limit)) as [| x d]; simpl in Hlen.
  - split; [done |]. intros Hle. exfalso. nia.
  - split; [| done]. intros _. nia.
Qed.

Lemma paginate_flags_witness :
  exists n,
    pages (pagination (paginate [1; 2; 3; 4; 5; 6; 7] 2 3)) = Int n
    /\ (hasNext (pagination (paginate [1; 2; 3; 4; 5; 6; 7] 2 3)) = true <-> 2 < n)
    /\ (hasPrev (pagination (paginate [1; 2; 3; 4; 5; 6; 7] 2 3)) = true <-> 1 < 2)
    /\ (data (paginate [1; 2; 3; 4; 5; 6; 7] 2 3) <> [] <-> 2 <= n).
Proof. apply paginate_flags; lia. Defined.

(** X11. For a limit and a page of at least 1, no page holds more items than
    the limit, and a page that announces a next one is full. *)
Theorem paginate_page_size {A : Type} (array : list A) (page limit : Z) :
  1 <= limit -> 1 <= page ->
  Z.of_nat (List.length (data (paginate array page limit))) <= limit
  /\ (hasNext (pagination (paginate array page limit)) = true ->
      Z.of_nat (List.length (data (paginate array page limit))) = limit).
Proof.
  intros Hl Hp. rewrite paginate_data, length_take, length_drop by lia.
  split; [lia |]. unfold paginate. cbn [value pagination hasNext].
  rewrite Z.ltb_lt. intros Hnext. nia.
Qed.

Lemma paginate_page_size_witness :
  Z.of_nat (List.length (data (paginate [1; 2; 3; 4; 5; 6; 7] 2 3))) <= 3
  /\ (hasNext (pagination (paginate [1; 2; 3; 4; 5; 6; 7] 2 3)) = true ->
      Z.of_nat (List.length (data (paginate [1; 2; 3; 4; 5; 6; 7] 2 3))) = 3).
Proof. apply paginate_page_size; lia. Defined.

(** X12. A limit of zero is not refused, whichever page is asked for: every
    page is empty, no earlier page is announced, and a next one is announced
    whenever the array holds an item. The page count is no finite number: for
    an array with items it is Infinity when the zero is the plain one and
    -Infinity when it is the zero with a minus sign, and for an empty array
    it is NaN. *)
Theorem paginate_limit_zero {A : Type} (array : list A) (page limit : JsInt) :
  value limit = 0 ->
  data (paginate array page limit) = []
  /\ pages (pagination (paginate array page limit))
     = (if (List.length array =? 0)%nat then NaN
        else match limit with
             | MinusZero => NegInfinity
             | Whole _ => Infinity
             end)
  /\ hasNext (pagination (paginate array page limit))
     = negb (List.length array =? 0)%nat
  /\ hasPrev (pagination (paginate array page limit)) = false.
Proof.
  intros Hzero. unfold paginate.
  cbn [data pagination pages hasNext hasPrev]. rewrite Hzero, !Z.mul_0_r.
  split; [| split; [| split]].
  - unfold slice, relative_index. simpl. by rewrite Nat.sub_diag.
  - destruct limit as [z |]; cbn [value] in Hzero; [subst z |]; reflexivity.
  - by destruct array.
  - reflexivity.
Qed.

Lemma paginate_limit_zero_witness :
  (data (paginate [1; 2; 3] 2 0) = []
   /\ pages (pagination (paginate [1; 2; 3] 2 0))
      = (if (List.length [1; 2; 3] =? 0)%nat then NaN
         else match Whole 0 with
              | MinusZero => NegInfinity
              | Whole _ => Infinity
              end)
   /\ hasNext (pagination (paginate [1; 2; 3] 2 0))
      = negb (List.length [1; 2; 3] =? 0)%nat
   /\ hasPrev (pagination (paginate [1; 2; 3] 2 0)) = false)
  /\ pages (pagination (paginate [1; 2; 3] 2 MinusZero)) = NegInfinity.
Proof.
  split.
  - exact (paginate_limit_zero [1; 2; 3] 2 0 eq_refl).
  - by destruct (paginate_limit_zero [1; 2; 3] 2 MinusZero eq_refl)
      as (_ & -> & _).
Defined.

(** X13. A negative limit is not refused either: the first page holds every
    item of the array but the last ones, as many of these as the limit
    counts below 0; every later page is empty, and a next page is always
    announced. *)
Theorem paginate_negative_limit {A : Type} (array : list A) (page limit : Z) :
  limit < 0 -> 1 <= page ->
  data (paginate array page limit)
  = (if page =? 1 then take (List.length array - Z.to_nat (- limit)) array
     else [])
  /\ hasNext (pagination (paginate array page limit)) = true
  /\ hasPrev (pagination (paginate array page limit)) = false.
Proof.
  intros Hl Hp. unfold paginate. cbn [value data pagination hasNext hasPrev].
  split; [| split; [apply Z.ltb_lt | apply Z.ltb_ge]; nia].
  unfold slice, relative_index.
  destruct (Z.eqb_spec page 1) as [-> | Hne].
  - replace ((1 - 1) * limit) with 0 by ring. rewrite Z.mul_1_l.
    destruct (Z.ltb_spec limit 0); [| lia]. simpl (0 <? 0).
    cbn iota. rewrite Z.min_l by lia. simpl (Z.to_nat 0).
    rewrite Nat.sub_0_r, drop_0. f_equal. lia.
  - destruct (Z.ltb_spec ((page - 1) * limit) 0); [| nia].
    destruct (Z.ltb_spec (page * limit) 0); [| nia].
    match goal with |- take ?n _ = _ => replace n with 0%nat by nia end.
    done.
Qed.

Lemma paginate_negative_limit_witness :
  data (paginate [1; 2; 3; 4; 5; 6; 7] 1 (-2))
  = (if 1 =? 1 then take (List.length [1; 2; 3; 4; 5; 6; 7] - Z.to_nat (- (-2)))
                      [1; 2; 3; 4; 5; 6; 7]
     else [])
  /\ hasNext (pagination (paginate [1; 2; 3; 4; 5; 6; 7] 1 (-2))) = true
  /\ hasPrev (pagination (paginate [1; 2; 3; 4; 5; 6; 7] 1 (-2))) = false.
Proof. apply paginate_negative_limit; lia. Defined.

(** X14. A page number below 1 is not refused: page 0 is empty, and a negative
    page counts from the end of the array, being the page of the reversed
    array whose number is one more than the distance from 0. *)
Theorem paginate_page_below_one {A : Type} (array : list A) (page limit : Z) :
  1 <= limit -> page <= 0 ->
  data (paginate array page limit)
  = (if page =? 0 then []
     else rev (data (paginate (rev array) (1 - page) limit)))
  /\ hasPrev (pagination (paginate array page limit)) = false.
Proof.
  intros Hl Hp. split; [| unfold paginate; cbn [value pagination hasPrev]; apply Z.ltb_ge; nia].
  destruct (Z.eqb_spec page 0) as [-> | Hne].
  - unfold paginate. cbn [value data]. unfold slice, relative_index.
    simpl (0 * limit). simpl (0 <? 0). cbn iota.
    rewrite Z.min_l by lia. done.
  - rewrite (paginate_data (rev array)) by lia.
    rewrite skipn_rev, firstn_rev, rev_involutive, length_take.
    unfold paginate. cbn [value data]. unfold slice, relative_index.
    destruct (Z.ltb_spec ((page - 1) * limit) 0); [| nia].
    destruct (Z.ltb_spec (page * limit) 0); [| nia].
    set (len := List.length array).
    set (m := Z.to_nat ((1 - page - 1) * limit)).
    replace (Z.to_nat (Z.max (Z.of_nat len + page * limit) 0))
      with (len - m)%nat by (subst m; nia).
    replace (Z.to_nat (Z.max (Z.of_nat len + (page - 1) * limit) 0))
      with (len - m - Z.to_nat limit)%nat by (subst m; nia).
    rewrite take_drop_commute. f_equal.
    + lia.
    + f_equal. lia.
Qed.

Lemma paginate_page_below_one_witness :
  data (paginate [1; 2; 3; 4; 5; 6; 7] (-1) 3)
  = (if -1 =? 0 then []
     else rev (data (paginate (rev [1; 2; 3; 4; 5; 6; 7]) (1 - -1) 3)))
  /\ hasPrev (pagination (paginate [1; 2; 3; 4; 5; 6; 7] (-1) 3)) = false.
Proof. apply paginate_page_below_one; lia. Defined.

End Paginate.

(** ** utils/helpers.js: generateSlug *)

Section Slugs.
Import helpers.

Variable toLowerCase : list N -> list N.

Lemma whitespace_cases (c : N) :
  regex.whitespace c = true -> (9 <= c <= 13 \/ c = 32 \/ 160 <= c)%N.
Proof.
  unfold regex.whitespace. cbn [existsb].
  rewrite !orb_true_iff, !andb_true_iff, !N.eqb_eq, !N.leb_le. lia.
Qed.

Lemma slug_char_not_separator (c : N) :
  slug_char c -> c <> 45%N -> slug_separator c = false.
Proof.
  intros Hc Hne. unfold slug_separator.
  destruct (regex.whitespace c) eqn:Hws.
  - apply whitespace_cases in Hws. unfold slug_char in Hc. lia.
  - cbn [orb]. rewrite orb_false_iff, !N.eqb_neq. unfold slug_char in Hc. lia.
Qed.

Lemma slug_char_kept (c : N) : slug_char c -> slug_kept c = true.
Proof.
  unfold slug_char, slug_kept, regex.word, regex.upper, regex.lower, regex.digit,
    regex.between.
  rewrite !orb_true_iff, !andb_true_iff, !N.leb_le, !N.eqb_eq. lia.
Qed.

Lemma kept_char (c : N) :
  slug_kept c = true -> regex.upper c = false -> slug_separator c = false ->
  slug_char c.
Proof.
  unfold slug_kept, slug_separator, regex.word. intros Hk Hu Hs.
  apply orb_false_iff in Hs as [[Hws H95]%orb_false_iff H45].
  rewrite Hu, Hws, H95, H45 in Hk. cbn [orb] in Hk. rewrite !orb_false_r in Hk.
  unfold regex.lower, regex.digit, regex.between in Hk. unfold slug_char.
  rewrite orb_true_iff, !andb_true_iff, !N.leb_le in Hk. lia.
Qed.

Lemma separator_hyphen : slug_separator 45%N = true.
Proof. reflexivity. Qed.

Lemma hyphenate_chars (b : bool) (s : list N) :
  Forall (fun c => slug_kept c = true /\ regex.upper c = false) s ->
  Forall slug_char (hyphenate b s).
Proof.
  intros Hs. revert b. induction Hs as [| c s [Hk Hu] _ IH]; intros b; [constructor |].
  cbn [hyphenate]. destruct (slug_separator c) eqn:Hsep.
  - destruct b; [apply IH |]. constructor; [unfold slug_char; lia | apply IH].
  - constructor; [by apply kept_char | apply IH].
Qed.

Lemma hyphenate_head (s : list N) : head (hyphenate true s) <> Some 45%N.
Proof.
  induction s as [| c s IH]; [done |]. cbn [hyphenate].
  destruct (slug_separator c) eqn:Hsep; [done |].
  simpl. intros [= ->]. by rewrite separator_hyphen in Hsep.
Qed.

Lemma hyphenate_single (b : bool) (s l r : list N) :
  hyphenate b s <> l ++ 45%N :: 45%N :: r.
Proof.
  revert b l. induction s as [| c s IH]; intros b l.
  - simpl. by destruct l.
  - cbn [hyphenate]. destruct (slug_separator c) eqn:Hsep.
    + destruct b; [apply IH |]. destruct l as [| x l]; simpl.
      * intros [= H]. by eapply hyphenate_head; rewrite H.
      * intros [= _ H]. by eapply IH.
    + destruct l as [| x l]; simpl.
      * intros [= -> _]. by rewrite separator_hyphen in Hsep.
      * intros [= _ H]. by eapply IH.
Qed.

Lemma strip_start_split (s : list N) :
  exists p, s = p ++ strip_start s /\ head (strip_start s) <> Some 45%N.
Proof.
  induction s as [| c s (p & Hp & Hh)]; [by exists [] |].
  cbn [strip_start]. destruct (N.eqb_spec c 45%N) as [-> | Hne].
  - exists (45%N :: p). split; [simpl; by f_equal | done].
  - exists []. split; [done |]. simpl. by intros [= ?].
Qed.

Lemma strip_start_id (s : list N) : head s <> Some 45%N -> strip_start s = s.
Proof.
  destruct s as [| c s]; [done |]. simpl. intros Hh.
  destruct (N.eqb_spec c 45) as [-> | Hne]; done.
Qed.

Lemma head_rev {A : Type} (s : list A) : head (rev s) = last s.
Proof.
  induction s as [| c s IH] using rev_ind; [done |].
  by rewrite rev_app_distr, last_snoc.
Qed.

Lemma last_rev {A : Type} (s : list A) : last (rev s) = head s.
Proof. by rewrite <- head_rev, rev_involutive. Qed.

Lemma last_app_cons {A : Type} (p : list A) (x : A) (s : list A) :
  last (p ++ x :: s) = last (x :: s).
Proof. induction p as [| y [| z p] IH]; done. Qed.

(** What is left after the hyphens at both ends are gone lies inside the
    string, and has a hyphen at neither end. *)
Lemma strip_hyphens_split (s : list N) :
  exists p q, s = p ++ strip_hyphens s ++ q
              /\ head (strip_hyphens s) <> Some 45%N
              /\ last (strip_hyphens s) <> Some 45%N.
Proof.
  unfold strip_hyphens.
  destruct (strip_start_split s) as (p & Hp & Hh).
  destruct (strip_start_split (rev (strip_start s))) as (q & Hq & Hl).
  set (y := strip_start s) in *. set (z := strip_start (rev y)) in *.
  assert (Hy : y = rev z ++ rev q).
  { by rewrite <- (rev_involutive y), Hq, rev_app_distr. }
  exists p, (rev q). split; [by rewrite <- Hy |]. split.
  - rewrite head_rev. destruct z as [| c z]; [done |].
    assert (Hlast : last (rev y) = last (c :: z)).
    { rewrite Hq. apply last_app_cons. }
    rewrite <- Hlast, last_rev. exact Hh.
  - by rewrite last_rev.
Qed.

Lemma generateSlug_shape (title : list N) :
  Forall (fun c => regex.upper c = false) (toLowerCase title) ->
  well_formed_slug (generateSlug toLowerCase title).
Proof.
  intros Hlow. unfold generateSlug.
  destruct title as [| c0 title0];
    [by repeat split; [constructor | | | intros [| ? ?] ?] |].
  set (t := toLowerCase (c0 :: title0)) in *.
  set (h := hyphenate false (remove_special t)).
  assert (Hchars : Forall slug_char h).
  { apply hyphenate_chars, Forall_forall.
    intros c [Hin Hk]%list_elem_of_In%filter_In.
    split; [done |]. rewrite Forall_forall in Hlow. apply Hlow.
    by apply list_elem_of_In. }
  destruct (strip_hyphens_split h) as (p & q & Hh & Hhead & Hlast).
  split; [| split; [done | split; [done |]]].
  - rewrite Hh, !Forall_app in Hchars. tauto.
  - intros l r Heq. apply (hyphenate_single false (remove_special t) (p ++ l) (r ++ q)).
    fold h. rewrite Hh at 1. rewrite Heq. by rewrite <- !app_assoc.
Qed.

Lemma hyphenate_id (b : bool) (s : list N) :
  Forall slug_char s ->
  (forall l r, s <> l ++ 45%N :: 45%N :: r) ->
  (b = true -> head s <> Some 45%N) ->
  hyphenate b s = s.
Proof.
  intros Hs. revert b. induction Hs as [| c s Hc _ IH]; intros b Hsingle Hb; [done |].
  assert (Htail : forall l r, s <> l ++ 45%N :: 45%N :: r).
  { intros l r ->. by apply (Hsingle (c :: l) r). }
  cbn [hyphenate]. destruct (N.eq_dec c 45%N) as [-> | Hne].
  - rewrite separator_hyphen. destruct b; [by exfalso; apply Hb |].
    f_equal. apply IH; [done |]. intros _. destruct s as [| c' s]; [done |].
    simpl. intros [= ->]. by apply (Hsingle [] s).
  - rewrite (slug_char_not_separator c Hc Hne). f_equal. by apply IH.
Qed.

Lemma generateSlug_fixed (s : list N) :
  well_formed_slug s -> toLowerCase s = s -> generateSlug toLowerCase s = s.
Proof.
  intros (Hchars & Hhead & Hlast & Hsingle) Hlow. unfold generateSlug.
  destruct s as [| c s]; [done |]. rewrite Hlow.
  set (t := c :: s) in *.
  assert (Hkeep : remove_special t = t).
  { unfold remove_special. apply forallb_filter_id, forallb_forall.
    intros x Hx. apply slug_char_kept. rewrite Forall_forall in Hchars.
    apply Hchars. by apply list_elem_of_In. }
  rewrite Hkeep, hyphenate_id by done.
  unfold strip_hyphens. rewrite (strip_start_id t Hhead).
  rewrite strip_start_id by (by rewrite head_rev).
  apply rev_involutive.
Qed.

(** X15. Whatever the title, the slug is made of lower-case ASCII letters,
    digits and hyphens only, holds no two hyphens in a row, and neither
    starts nor ends with a hyphen; lower-casing is assumed to leave no
    upper-case ASCII letter. *)
Theorem generateSlug_well_formed (title : list N) :
  Forall (fun c => regex.upper c = false) (toLowerCase title) ->
  well_formed_slug (generateSlug toLowerCase title).
Proof. apply generateSlug_shape. Qed.

(** X16. The slug of a slug is the slug itself, lower-casing being assumed to
    leave no upper-case ASCII letter in the title and to leave the slug as
    it is. *)
Theorem generateSlug_idempotent (title : list N) :
  Forall (fun c => regex.upper c = false) (toLowerCase title) ->
  toLowerCase (generateSlug toLowerCase title) = generateSlug toLowerCase title ->
  generateSlug toLowerCase (generateSlug toLowerCase title)
  = generateSlug toLowerCase title.
Proof. intros Hlow Hfix. by apply generateSlug_fixed; [apply generateSlug_shape |]. Qed.

End Slugs.

Lemma generateSlug_well_formed_witness :
  well_formed_slug
    (helpers.generateSlug ascii_lower (validator.of_string "--Hello,  World_2!")).
Proof. apply generateSlug_well_formed. apply (bool_decide_unpack _). by vm_compute. Defined.

Lemma generateSlug_idempotent_witness :
  helpers.generateSlug ascii_lower
    (helpers.generateSlug ascii_lower (validator.of_string "--Hello,  World_2!"))
  = helpers.generateSlug ascii_lower (validator.of_string "--Hello,  World_2!").
Proof.
  apply generateSlug_idempotent.
  - apply (bool_decide_unpack _). by vm_compute.
  - reflexivity.
Defined.

(** ** utils/helpers.js: calculateReadingTime and generateRandomString *)

Section ReadingTime.
Import helpers.

Lemma split_runs_nonempty (sep : N -> bool) (b : bool) (s : list N) :
  split_runs sep b s <> [].
Proof.
  revert b. induction s as [| c s IH]; intros b; [done |]. cbn [split_runs].
  destruct (sep c); [destruct b; [apply IH | done] |].
  by destruct (split_runs sep false s).
Qed.

Lemma split_runs_length (b : bool) (c : N) (rest : list N) :
  List.length (split_runs regex.whitespace b (c :: rest))
  = if regex.whitespace c then
      if b then List.length (split_runs regex.whitespace true rest)
      else S (List.length (split_runs regex.whitespace true rest))
    else List.length (split_runs regex.whitespace false rest).
Proof.
  cbn [split_runs].
  destruct (regex.whitespace c); [by destruct b |].
  pose proof (split_runs_nonempty regex.whitespace false rest).
  by destruct (split_runs regex.whitespace false rest).
Qed.

(** On a text that does not end in white space, the pieces are the words. *)
Lemma split_runs_words (s : list N) :
  (forall c, last s = Some c -> regex.whitespace c = false) -> s <> [] ->
  List.length (split_runs regex.whitespace true s) = word_count true s
  /\ List.length (split_runs regex.whitespace false s) = S (word_count false s).
Proof.
  induction s as [| c s IH]; [done |]. intros Hlast _.
  rewrite !(split_runs_length _ c s). cbn [word_count].
  destruct s as [| c' s].
  - by rewrite (Hlast c eq_refl).
  - destruct IH as [IHt IHf]; [exact Hlast | done |].
    rewrite IHt, IHf. destruct (regex.whitespace c); lia.
Qed.

Lemma trimStart_split (s : list N) :
  exists p, s = p ++ trimStart s
            /\ Forall (fun c => regex.whitespace c = true) p
            /\ (forall c, head (trimStart s) = Some c -> regex.whitespace c = false).
Proof.
  induction s as [| c s (p & Hp & Hblank & Hh)]; [by exists [] |].
  cbn [trimStart]. destruct (regex.whitespace c) eqn:Hws.
  - exists (c :: p). split; [simpl; by f_equal |]. split; [by constructor | done].
  - exists []. split; [done |]. split; [constructor |]. simpl. by intros ? [= <-].
Qed.

Lemma word_count_blank_l (p s : list N) :
  Forall (fun c => regex.whitespace c = true) p ->
  word_count true (p ++ s) = word_count true s.
Proof. induction 1 as [| c p Hc _ IH]; [done |]. simpl. by rewrite Hc. Qed.

Lemma word_count_blank_r (b : bool) (s q : list N) :
  Forall (fun c => regex.whitespace c = true) q ->
  word_count b (s ++ q) = word_count b s.
Proof.
  intros Hq. revert b. induction s as [| c s IH]; intros b.
  - simpl. induction Hq as [| c q Hc _ IH] in b |- *; [done |].
    simpl. by rewrite Hc.
  - simpl. by rewrite !IH.
Qed.

Lemma word_count_head (s : list N) :
  (forall c, head s = Some c -> regex.whitespace c = false) -> s <> [] ->
  word_count true s = S (word_count false s).
Proof.
  destruct s as [| c s]; [done |]. intros Hh _. simpl. by rewrite (Hh c eq_refl).
Qed.

(** Trimming keeps the words, and leaves white space at neither end. *)
Lemma trim_words (s : list N) :
  word_count true (trim s) = word_count true s
  /\ (forall c, head (trim s) = Some c -> regex.whitespace c = false)
  /\ (forall c, last (trim s) = Some c -> regex.whitespace c = false).
Proof.
  unfold trim, trimEnd.
  destruct (trimStart_split s) as (p & Hp & Hblank & Hh).
  destruct (trimStart_split (rev (trimStart s))) as (q & Hq & Hblank' & Hl).
  set (y := trimStart s) in *. set (z := trimStart (rev y)) in *.
  assert (Hy : y = rev z ++ rev q).
  { by rewrite <- (rev_involutive y), Hq, rev_app_distr. }
  split; [| split].
  - rewrite Hp, word_count_blank_l, Hy by done.
    symmetry. apply word_count_blank_r. by apply Forall_rev.
  - rewrite head_rev. destruct z as [| c z]; [done |].
    assert (Hlast : last (rev y) = last (c :: z)).
    { rewrite Hq. apply last_app_cons. }
    rewrite <- Hlast, last_rev. exact Hh.
  - by rewrite last_rev.
Qed.

Lemma calculateReadingTime_count (text : list N) :
  text <> [] ->
  calculateReadingTime text
  = ((Z.of_nat (Nat.max 1 (word_count true text)) + 199) / 200)%Z.
Proof.
  intros Hne. unfold calculateReadingTime. destruct text as [| c0 text0]; [done |].
  set (text := c0 :: text0) in *.
  destruct (trim_words text) as (Hcount & Hhead & Hlast).
  assert (Hpieces : List.length (split_runs regex.whitespace false (trim text))
                    = Nat.max 1 (word_count true text)).
  { rewrite <- Hcount. destruct (trim text) as [| c t] eqn:Ht; [done |].
    destruct (split_runs_words (c :: t)) as [_ ->]; [done | done |].
    rewrite (word_count_head (c :: t)) by done. lia. }
  rewrite Hpieces. cbv zeta.
  set (n := Z.of_nat (Nat.max 1 (word_count true text))).
  pose proof (Z.div_mod (- n) 200 ltac:(lia)).
  pose proof (Z.mod_pos_bound (- n) 200 ltac:(lia)).
  pose proof (Z.div_mod (n + 199) 200 ltac:(lia)).
  pose proof (Z.mod_pos_bound (n + 199) 200 ltac:(lia)).
  lia.
Qed.

(** X17. The reading time is the number of words at 200 words a minute,
    rounded up, a word being a longest run of code units that are not white
    space; a text that is not empty but holds no word counts as one word. *)
Theorem calculateReadingTime_words (text : list N) :
  text <> [] ->
  calculateReadingTime text
  = ((Z.of_nat (Nat.max 1 (word_count true text)) + 199) / 200)%Z.
Proof. apply calculateReadingTime_count. Qed.

Lemma calculateReadingTime_words_witness :
  calculateReadingTime (validator.of_string "  a few   words ")
  = ((Z.of_nat (Nat.max 1 (word_count true (validator.of_string "  a few   words ")))
      + 199) / 200)%Z.
Proof. apply calculateReadingTime_words. discriminate. Defined.

(** X18. The reading time is 0 for the empty text only: a text of white space
    alone takes a minute like every other short text. *)
Theorem calculateReadingTime_zero (text : list N) :
  calculateReadingTime text = 0%Z <-> text = [].
Proof.
  split; [| by intros ->]. intros Hzero.
  destruct text as [| c text]; [done |]. exfalso.
  rewrite calculateReadingTime_count in Hzero by done.
  set (n := Z.of_nat _) in Hzero. assert (1 <= n)%Z by (subst n; lia).
  pose proof (Z.div_mod (n + 199) 200 ltac:(lia)).
  pose proof (Z.mod_pos_bound (n + 199) 200 ltac:(lia)). lia.
Qed.

Lemma chars_alphanumeric : Forall alphanumeric chars.
Proof. unfold alphanumeric. apply (bool_decide_unpack _). by vm_compute. Qed.

(** X19. Whatever numbers are drawn, each below the length of the alphabet,
    the random string has the length asked for and is made of ASCII letters
    and digits. *)
Theorem generateRandomString_alphanumeric (length : nat) (random : nat -> nat) :
  (forall i, (i < length)%nat -> (random i < List.length chars)%nat) ->
  List.length (generateRandomString length random) = length
  /\ Forall alphanumeric (generateRandomString length random).
Proof.
  unfold generateRandomString. intros Hdraw.
  assert (Hseq : forall start n,
             (forall i, (start <= i < start + n)%nat ->
                        (random i < List.length chars)%nat) ->
             List.length (flat_map (fun i => charAt chars (random i)) (seq start n)) = n
             /\ Forall alphanumeric
                  (flat_map (fun i => charAt chars (random i)) (seq start n))).
  { intros start n. revert start. induction n as [| n IH]; intros start Hn.
    - by split; [| constructor].
    - cbn [seq flat_map]. destruct (IH (S start)) as [Hlen Hall].
      { intros i Hi. apply Hn. lia. }
      unfold charAt at 1 3.
      destruct (lookup_lt_is_Some_2 chars (random start)) as [c Hc];
        [apply Hn; lia |].
      rewrite Hc. split; [simpl; by rewrite Hlen |].
      constructor; [| done].
      pose proof chars_alphanumeric as Hchars. rewrite Forall_forall in Hchars.
      apply Hchars. by eapply list_elem_of_lookup_2. }
  apply Hseq. intros i Hi. apply Hdraw. lia.
Qed.

Lemma generateRandomString_alphanumeric_witness :
  List.length (generateRandomString 5 (fun i => (11 * i)%nat)) = 5%nat
  /\ Forall alphanumeric (generateRandomString 5 (fun i => (11 * i)%nat)).
Proof.
  apply generateRandomString_alphanumeric. intros i Hi.
  change (List.length chars) with 62%nat. lia.
Defined.

End ReadingTime.

(** ** routes/posts.js: comments, and the routes in sequence *)

Section RouterProperties.
Import models posts.

Variable castObjectId : ObjectId -> bool.
Variable schemaCast : UpdateData -> option UpdateData.
Variable commentCast : option string -> option string.

(** What the comment route answers and stores. *)
Lemma comment_cases (now : Timestamp) (populated : bool) (req : Request)
    (db : gmap string Post) :
  (comment_code (fst (comment castObjectId commentCast now populated req db))
   ∈ [400; 404; 500]
   /\ snd (comment castObjectId commentCast now populated req db) = db)
  \/ exists post text,
       validation req = []
       /\ db !! params_id req = Some post
       /\ commentCast (body_content req) = Some text
       /\ comment castObjectId commentCast now populated req db
          = (if populated then
               {| comment_code := 201; comment_status := "success";
                  comment_message := "Comment added successfully";
                  comment_errors := [];
                  comment_data :=
                    Some (Some (mkComment (user req) text now),
                          S (commentCount post)) |}
             else comment_error 500 "Server error" [],
             <[params_id req :=
                 with_comments post
                   (comments post ++ [mkComment (user req) text now])]> db).
Proof.
  unfold comment, findById.
  destruct (validation req) as [| fe errs];
    [| left; split; [cbn; set_solver | done]].
  destruct (db !! params_id req) as [post |].
  2: { left. destruct (castObjectId (params_id req));
         (split; [cbn; set_solver | done]). }
  destruct (commentCast (body_content req)) as [text |];
    [| left; split; [cbn; set_solver | done]].
  right. exists post, text. repeat split. cbv zeta.
  destruct populated; [| done]. f_equal. f_equal. f_equal.
  unfold commentCount, with_comments. cbn [comments].
  rewrite last_snoc, length_app. simpl. f_equal. lia.
Qed.

Lemma comment_stores (now : Timestamp) (populated : bool) (req : Request)
    (db : gmap string Post) :
  snd (comment castObjectId commentCast now populated req db) = db
  \/ exists post text,
       db !! params_id req = Some post
       /\ snd (comment castObjectId commentCast now populated req db)
          = <[params_id req :=
                with_comments post
                  (comments post ++ [mkComment (user req) text now])]> db.
Proof.
  destruct (comment_cases now populated req db)
    as [[_ ->] | (post & text & _ & Hpost & _ & ->)]; [by left |].
  right. by exists post, text.
Qed.

Lemma handle_absent (c : Call) (db : gmap string Post) (id : ObjectId) :
  db !! id = None ->
  handle castObjectId schemaCast commentCast c db !! id = None.
Proof.
  intros Hid. destruct c as [populated req | req | now req | now populated req];
    cbn [handle].
  - destruct (put_unchanged_or_updated castObjectId schemaCast populated req db)
      as [-> | (post & u & Hpost & _ & ->)]; [done |].
    rewrite lookup_insert_ne; [done | congruence].
  - destruct (db !! params_id req) as [post |] eqn:Hpost.
    + destruct (decide (author post = user req)) as [Heq | Hne].
      * rewrite (del_owner _ _ _ _ Hpost Heq). cbn [snd].
        rewrite lookup_delete_ne; [done | congruence].
      * by rewrite (del_forbidden _ _ _ _ Hpost Hne).
    + rewrite (del_missing _ _ _ Hpost). by destruct (castObjectId _).
  - destruct (db !! params_id req) as [post |] eqn:Hpost.
    + rewrite like_other; [done | congruence].
    + rewrite (like_missing _ _ _ _ Hpost). by destruct (castObjectId _).
  - destruct (comment_stores now populated req db)
      as [-> | (post & text & Hpost & ->)]; [done |].
    rewrite lookup_insert_ne; [done | congruence].
Qed.

(** One request and one stored post: the post goes only when its author
    deletes it; otherwise it keeps its author and its published flag, its
    comments at most grow at the end, its likes stay one per user, and its
    text changes only at the request of its author. *)
Lemma handle_post (c : Call) (db : gmap string Post) (id : ObjectId) (post : Post) :
  db !! id = Some post ->
  (handle castObjectId schemaCast commentCast c db !! id = None
   /\ caller c = author post)
  \/ exists post',
       handle castObjectId schemaCast commentCast c db !! id = Some post'
       /\ author post' = author post
       /\ isPublished post' = isPublished post
       /\ comments post `prefix_of` comments post'
       /\ (one_like_per_user (likes post) -> one_like_per_user (likes post'))
       /\ (caller c <> author post -> same_text post post').
Proof.
  intros Hid.
  assert (Hsame : exists post',
             Some post = Some post'
             /\ author post' = author post
             /\ isPublished post' = isPublished post
             /\ comments post `prefix_of` comments post'
             /\ (one_like_per_user (likes post) -> one_like_per_user (likes post'))
             /\ (caller c <> author post -> same_text post post')).
  { exists post. by repeat split. }
  destruct c as [populated req | req | now req | now populated req];
    cbn [handle caller].
  - right.
    destruct (put_unchanged_or_updated castObjectId schemaCast populated req db)
      as [-> | (target & u & Htarget & Heq & ->)]; [by rewrite Hid |].
    destruct (decide (params_id req = id)) as [Hsame_id | Hother].
    + rewrite Hsame_id in *. rewrite lookup_insert_eq.
      assert (target = post) as -> by congruence.
      exists (applyUpdate u post). by repeat split.
    + by rewrite lookup_insert_ne, Hid.
  - destruct (db !! params_id req) as [target |] eqn:Htarget.
    2: { right. rewrite (del_missing _ _ _ Htarget).
         destruct (castObjectId _); cbn [snd]; by rewrite Hid. }
    destruct (decide (author target = user req)) as [Heq | Hne].
    2: { right. rewrite (del_forbidden _ _ _ _ Htarget Hne). cbn [snd].
         by rewrite Hid. }
    rewrite (del_owner _ _ _ _ Htarget Heq). cbn [snd].
    destruct (decide (params_id req = id)) as [Hsame_id | Hother].
    + left. rewrite Hsame_id in *. rewrite lookup_delete_eq.
      split; [done | congruence].
    + right. by rewrite lookup_delete_ne, Hid.
  - right. destruct (decide (params_id req = id)) as [Hsame_id | Hother];
      [| by rewrite like_other, Hid].
    rewrite <- Hsame_id in *. rewrite (like_found _ _ _ _ _ Hid).
    case_bool_decide as Hin; cbn [snd]; rewrite lookup_insert_eq;
      eexists; (split; [reflexivity |]); repeat split; try done; cbn [likes with_likes].
    + apply unliked_one_like_per_user.
    + by apply pushed_one_like_per_user.
  - right.
    destruct (comment_stores now populated req db)
      as [-> | (target & text & Htarget & ->)]; [by rewrite Hid |].
    destruct (decide (params_id req = id)) as [Hsame_id | Hother];
      [| by rewrite lookup_insert_ne, Hid].
    rewrite Hsame_id in *. rewrite lookup_insert_eq.
    assert (target = post) as -> by congruence.
    eexists. split; [reflexivity |]. repeat split; try done.
    cbn [comments with_comments]. by apply prefix_app_r.
Qed.

Lemma run_snoc (calls : list Call) (c : Call) (db : gmap string Post) :
  run castObjectId schemaCast commentCast (calls ++ [c]) db
  = handle castObjectId schemaCast commentCast c
      (run castObjectId schemaCast commentCast calls db).
Proof. unfold run. by rewrite fold_left_app. Qed.

Lemma run_absent (calls : list Call) (db : gmap string Post) (id : ObjectId) :
  db !! id = None -> run castObjectId schemaCast commentCast calls db !! id = None.
Proof.
  induction calls as [| c calls IH] using rev_ind; [done |].
  intros Hid. rewrite run_snoc. by apply handle_absent, IH.
Qed.


(** X21. No sequence of update, delete, like and comment requests adds a post
    to the collection. *)
Theorem run_adds_no_post (calls : list Call) (db : gmap string Post) :
  dom (run castObjectId schemaCast commentCast calls db) ⊆ dom db.
Proof.
  intros id Hin. apply elem_of_dom in Hin as [post' Hpost'].
  apply elem_of_dom. destruct (db !! id) as [post |] eqn:Hid; [done |].
  by rewrite (run_absent calls db id Hid) in Hpost'.
Qed.

(** X22. Through any sequence of update, delete, like and comment requests, by
    any users, a post that is still stored has kept its author and its
    published flag, has its earlier comments unchanged at the start of its
    comment list, and has at most one like per user if it had before. *)
Theorem run_keeps_history (calls : list Call) (db : gmap string Post)
    (id : ObjectId) (post post' : Post) :
  db !! id = Some post ->
  run castObjectId schemaCast commentCast calls db !! id = Some post' ->
  author post' = author post
  /\ isPublished post' = isPublished post
  /\ comments post `prefix_of` comments post'
  /\ (one_like_per_user (likes post) -> one_like_per_user (likes post')).
Proof.
  intros Hid. revert post'.
  induction calls as [| c calls IH] using rev_ind; intros post' Hrun.
  - unfold run in Hrun. simpl in Hrun. assert (post' = post) as -> by congruence.
    by repeat split.
  - rewrite run_snoc in Hrun.
    destruct (run castObjectId schemaCast commentCast calls db !! id)
      as [mid |] eqn:Hmid;
      [| by rewrite (handle_absent _ _ _ Hmid) in Hrun].
    destruct (IH mid eq_refl) as (Ha & Hp & Hc & Hl).
    destruct (handle_post c _ id mid Hmid)
      as [[Hgone _] | (last & Hlast & Ha' & Hp' & Hc' & Hl' & _)];
      [congruence |].
    assert (last = post') as -> by congruence.
    split; [congruence |]. split; [congruence |].
    split; [by etrans | auto].
Qed.

(** X23. As long as no request comes from the author of a post, the post stays
    stored with its title, its content, its tags, its author and its
    published flag as they were: whatever other users ask for, they change
    likes and comments only. *)
Theorem run_by_others_keeps_text (calls : list Call) (db : gmap string Post)
    (id : ObjectId) (post : Post) :
  db !! id = Some post ->
  Forall (fun c => caller c <> author post) calls ->
  exists post',
    run castObjectId schemaCast commentCast calls db !! id = Some post'
    /\ same_text post post'.
Proof.
  intros Hid.
  induction calls as [| c calls IH] using rev_ind; intros Hothers.
  - exists post. by repeat split.
  - apply Forall_app in Hothers as [Hcalls [Hc _]%Forall_cons].
    destruct (IH Hcalls) as (mid & Hmid & Ha & Ht & Hco & Hta & Hp).
    rewrite run_snoc.
    destruct (handle_post c _ id mid Hmid)
      as [[_ Hauthor] | (last & Hlast & _ & _ & _ & _ & Htext)];
      [congruence |].
    exists last. split; [done |].
    destruct Htext as (Ha' & Ht' & Hco' & Hta' & Hp'); [congruence |].
    repeat split; congruence.
Qed.

End RouterProperties.

Lemma run_keeps_history_witness :
  exists post',
    run sample_cast models.specSchemaCast sample_commentCast
      [CallComment "t1" true (sample_comment "p1" "bob" "Nice");
       CallLike "t2" (sample_request "p1" "carol");
       CallPut true (sample_update "p1" "alice")] sample_db !! "p1"
    = Some post'
    /\ models.author post' = models.author sample_post
    /\ models.isPublished post' = models.isPublished sample_post
    /\ models.comments sample_post `prefix_of` models.comments post'
    /\ (one_like_per_user (models.likes sample_post) ->
        one_like_per_user (models.likes post')).
Proof.
  eexists. split; [reflexivity |].
  apply (run_keeps_history sample_cast models.specSchemaCast sample_commentCast
           [CallComment "t1" true (sample_comment "p1" "bob" "Nice");
            CallLike "t2" (sample_request "p1" "carol");
            CallPut true (sample_update "p1" "alice")] sample_db "p1" sample_post);
    reflexivity.
Defined.

Lemma run_by_others_keeps_text_witness :
  exists post',
    run sample_cast models.specSchemaCast sample_commentCast
      [CallPut true (sample_update "p1" "bob");
       CallDelete (sample_request "p1" "carol");
       CallComment "t1" false (sample_comment "p1" "bob" "Nice")] sample_db !! "p1"
    = Some post'
    /\ same_text sample_post post'.
Proof.
  apply run_by_others_keeps_text; [reflexivity |].
  repeat constructor; discriminate.
Defined.

(** ** middleware/performanceMonitoring.js: the response time tracker *)

Section Tracker.
Import runtime performanceMonitoring.

Lemma map_get_set (k k' : string) (v : nat) (m : list (string * nat)) :
  map_get k (map_set k' v m) = if String.eqb k k' then Some v else map_get k m.
Proof.
  induction m as [| [k0 v0] m IH]; simpl.
  - by destruct (String.eqb k k').
  - destruct (String.eqb_spec k' k0) as [-> | Hne]; simpl.
    + by destruct (String.eqb k k0).
    + rewrite IH. destruct (String.eqb_spec k k0) as [-> | Hne'];
        [| done]. destruct (String.eqb_spec k0 k'); [congruence | done].
Qed.

Lemma map_set_keys (k : string) (v : nat) (m : list (string * nat)) :
  NoDup (map fst m) ->
  NoDup (map fst (map_set k v m))
  /\ forall x, x ∈ map fst (map_set k v m) <-> x = k \/ x ∈ map fst m.
Proof.
  induction m as [| [k0 v0] m IH]; simpl; intros Hnd.
  - split; [apply NoDup_singleton |]. intros x.
    rewrite list_elem_of_singleton, elem_of_nil. tauto.
  - apply NoDup_cons in Hnd as [Hnin Hnd]. destruct (IH Hnd) as [IHnd IHin].
    destruct (String.eqb_spec k k0) as [-> | Hne]; simpl.
    + split; [by apply NoDup_cons |]. intros x. rewrite !elem_of_cons. tauto.
    + split.
      * apply NoDup_cons. split; [| done]. rewrite IHin. intros [? | ?]; congruence.
      * intros x. rewrite !elem_of_cons, IHin. tauto.
Qed.

Lemma track_all_snoc (obs : list Observation) (o : Observation) (t : Tracker) :
  track_all (obs ++ [o]) t
  = track (obs_req o) (obs_duration o) (obs_status o) (track_all obs t).
Proof. unfold track_all. by rewrite fold_left_app. Qed.

Lemma slow_test (d : QArith_base.Q) :
  negb (QArith_base.Qle_bool d (QArith_base.inject_Z 1000))
  = if QArith_base.Qlt_le_dec (QArith_base.inject_Z 1000) d then true else false.
Proof.
  destruct (QArith_base.Qlt_le_dec _ d) as [Hlt | Hle].
  - apply negb_true_iff, not_true_is_false. rewrite QArith_base.Qle_bool_iff.
    by apply QArith_base.Qlt_not_le.
  - apply negb_false_iff. by apply QArith_base.Qle_bool_iff.
Qed.

Lemma counted_succ (n : nat) :
  Some (default 0 (counted n) + 1)%nat = counted (n + 1).
Proof. destruct n; simpl; f_equal; lia. Qed.

Lemma track_all_counts (obs : list Observation) (endpoint : string) :
  map_get endpoint (slow (track_all obs new_tracker))
  = counted (List.length (List.filter (slow_at endpoint) obs))
  /\ map_get endpoint (errors (track_all obs new_tracker))
     = counted (List.length (List.filter (failed_at endpoint) obs)).
Proof.
  induction obs as [| o obs [IHs IHe]] using rev_ind; [done |].
  rewrite track_all_snoc, !List.filter_app, !length_app. cbn [List.filter].
  unfold track. cbn [slow errors]. unfold slow_at at 2, failed_at at 2.
  rewrite slow_test. split.
  - destruct (QArith_base.Qlt_le_dec _ _) as [Hlt | Hle].
    + rewrite map_get_set, (String.eqb_sym endpoint).
      destruct (String.eqb_spec (endpoint_of (obs_req o)) endpoint) as [<- | Hne];
        cbn [andb List.length].
      * rewrite IHs. apply counted_succ.
      * by rewrite IHs, Nat.add_0_r.
    + rewrite andb_false_r. cbn [List.length]. by rewrite IHs, Nat.add_0_r.
  - destruct (Z.leb_spec 400 (obs_status o)) as [Hge | Hlt].
    + rewrite bool_decide_eq_true_2 by done.
      rewrite map_get_set, (String.eqb_sym endpoint).
      destruct (String.eqb_spec (endpoint_of (obs_req o)) endpoint) as [<- | Hne];
        cbn [andb List.length].
      * rewrite IHe. apply counted_succ.
      * by rewrite IHe, Nat.add_0_r.
    + rewrite bool_decide_eq_false_2 by lia.
      rewrite andb_false_r. cbn [List.length]. by rewrite IHe, Nat.add_0_r.
Qed.

Lemma track_all_keys (obs : list Observation) :
  NoDup (map fst (slow (track_all obs new_tracker)))
  /\ NoDup (map fst (errors (track_all obs new_tracker))).
Proof.
  induction obs as [| o obs [IHs IHe]] using rev_ind;
    [split; apply NoDup_nil_2 |].
  rewrite track_all_snoc. unfold track. cbn [slow errors]. split.
  - destruct (negb _); [by apply map_set_keys | done].
  - destruct (400 <=? _)%Z; [by apply map_set_keys | done].
Qed.

Lemma insert_sorted_perm (x : string * nat) (l : list (string * nat)) :
  Permutation (insert_sorted x l) (x :: l).
Proof.
  induction l as [| y l IH]; simpl; [done |].
  destruct (snd y <=? snd x)%nat; [done |].
  rewrite IH. apply perm_swap.
Qed.

Lemma sort_by_count_perm (l : list (string * nat)) :
  Permutation (sort_by_count l) l.
Proof.
  induction l as [| x l IH]; simpl; [done |].
  by rewrite insert_sorted_perm, IH.
Qed.

Lemma insert_sorted_sorted (x : string * nat) (l : list (string * nat)) :
  StronglySorted (fun a b => (snd b <= snd a)%nat) l ->
  StronglySorted (fun a b => (snd b <= snd a)%nat) (insert_sorted x l).
Proof.
  induction 1 as [| y l Hl IH Hy]; simpl; [by repeat constructor |].
  destruct (Nat.leb_spec (snd y) (snd x)) as [Hle | Hlt].
  - constructor; [by constructor |]. constructor; [done |].
    eapply Forall_impl; [exact Hy |]. simpl. intros z Hz. lia.
  - constructor; [done |].
    rewrite (Forall_forall _ (insert_sorted x l)). intros z Hz.
    rewrite insert_sorted_perm in Hz. apply elem_of_cons in Hz as [-> | Hz]; [lia |].
    rewrite Forall_forall in Hy. by apply Hy.
Qed.

Lemma sort_by_count_sorted (l : list (string * nat)) :
  StronglySorted (fun a b => (snd b <= snd a)%nat) (sort_by_count l).
Proof.
  induction l as [| x l IH]; simpl; [constructor | by apply insert_sorted_sorted].
Qed.

Lemma insert_sorted_stable (n : nat) (x : string * nat) (l : list (string * nat)) :
  List.filter (fun y => (snd y =? n)%nat) (insert_sorted x l)
  = List.filter (fun y => (snd y =? n)%nat) (x :: l).
Proof.
  induction l as [| y l IH]; [done |]. cbn [insert_sorted].
  destruct (Nat.leb_spec (snd y) (snd x)) as [Hle | Hlt]; [done |].
  cbn [List.filter] in *. rewrite IH.
  destruct (Nat.eqb_spec (snd x) n) as [Hx | Hx],
           (Nat.eqb_spec (snd y) n) as [Hy | Hy]; try done. lia.
Qed.

Lemma sort_by_count_stable (n : nat) (l : list (string * nat)) :
  List.filter (fun y => (snd y =? n)%nat) (sort_by_count l)
  = List.filter (fun y => (snd y =? n)%nat) l.
Proof.
  induction l as [| x l IH]; [done |]. cbn [sort_by_count fold_right].
  fold (sort_by_count l). rewrite insert_sorted_stable.
  cbn [List.filter]. by rewrite IH.
Qed.

Lemma sorted_app_le (l1 l2 : list (string * nat)) (y z : string * nat) :
  StronglySorted (fun a b => (snd b <= snd a)%nat) (l1 ++ l2) ->
  y ∈ l1 -> z ∈ l2 -> (snd z <= snd y)%nat.
Proof.
  induction l1 as [| a l1 IH]; simpl; intros Hs Hy Hz; [by apply elem_of_nil in Hy |].
  apply StronglySorted_inv in Hs as [Hs Ha].
  apply elem_of_cons in Hy as [-> | Hy]; [| by apply IH].
  rewrite Forall_forall in Ha. apply Ha, elem_of_app. by right.
Qed.

Lemma filter_take_prefix {A : Type} (f : A -> bool) (k : nat) (l : list A) :
  List.filter f (take k l) `prefix_of` List.filter f l.
Proof.
  exists (List.filter f (drop k l)).
  by rewrite <- List.filter_app, take_drop.
Qed.

Lemma top_ten_sorted (entries : list (string * nat)) :
  top_ten entries (take 10 (sort_by_count entries)).
Proof.
  pose proof (sort_by_count_perm entries) as Hperm.
  pose proof (sort_by_count_sorted entries) as Hsorted.
  set (sorted := sort_by_count entries) in *.
  split; [rewrite length_take; lia |]. split; [| split; [| split; [| split]]].
  - intros Hlen. rewrite take_ge; [done |].
    by rewrite (Permutation_length Hperm).
  - intros x Hx. rewrite <- Hperm, <- (take_drop 10 sorted).
    apply elem_of_app. by left.
  - rewrite <- (take_drop 10 sorted) in Hsorted.
    by apply StronglySorted_app_1_l in Hsorted.
  - intros x y Hx Hnot Hy. rewrite <- Hperm, <- (take_drop 10 sorted) in Hx.
    apply elem_of_app in Hx as [Hx | Hx]; [done |].
    rewrite <- (take_drop 10 sorted) in Hsorted.
    by eapply sorted_app_le.
  - intros n. rewrite <- (sort_by_count_stable n entries).
    apply filter_take_prefix.
Qed.

(** X24. Started empty, the tracker holds for every endpoint the number of
    responses handed to it that took more than 1000 milliseconds, and the
    number of those with a status code from 400 on; an endpoint without such
    a response has no entry, and no endpoint has two. *)
Theorem track_counts (obs : list Observation) (endpoint : string) :
  map_get endpoint (slow (track_all obs new_tracker))
  = counted (List.length (List.filter (slow_at endpoint) obs))
  /\ map_get endpoint (errors (track_all obs new_tracker))
     = counted (List.length (List.filter (failed_at endpoint) obs))
  /\ NoDup (map fst (slow (track_all obs new_tracker)))
  /\ NoDup (map fst (errors (track_all obs new_tracker))).
Proof.
  destruct (track_all_counts obs endpoint) as [Hs He].
  destruct (track_all_keys obs) as [Hks Hke]. done.
Qed.

(** X25. The slow and the error endpoints reported are at most ten entries of
    their map, all of them when the map holds no more, by falling count; no
    endpoint left out counts more than one that is reported, and endpoints
    of equal count come in the order in which they entered the map. *)
Theorem top_endpoints (t : Tracker) :
  top_ten (slow t) (getSlowEndpoints t)
  /\ top_ten (errors t) (getErrorEndpoints t).
Proof. split; apply top_ten_sorted. Qed.

End Tracker.

(** ** utils/logger.js: what reaches the log files *)

Section LogFiles.
Import runtime normalizer.

Variable proc : Process.

Lemma obj_get_set (k k' : string) (v : Value) (a : list (string * Value)) :
  obj_get k (obj_set k' v a) = if String.eqb k k' then v else obj_get k a.
Proof.
  induction a as [| [k0 v0] a IH]; simpl.
  - by destruct (String.eqb k k').
  - destruct (String.eqb_spec k' k0) as [-> | Hne]; simpl.
    + by destruct (String.eqb k k0).
    + rewrite IH. destruct (String.eqb_spec k k0) as [-> | Hne']; [| done].
      destruct (String.eqb_spec k0 k'); [congruence | done].
Qed.

Lemma obj_has_key (k : string) (b : list (string * Value)) :
  obj_has k b = true -> k ∈ map fst b.
Proof.
  induction b as [| [k0 v0] b IH]; simpl; [done |].
  destruct (String.eqb_spec k k0) as [-> | Hne]; simpl.
  - intros _. apply elem_of_cons. by left.
  - intros Hb. apply elem_of_cons. right. by apply IH.
Qed.

(** In [{...a, ...b}] a property of [b] wins over one of [a]. *)
Lemma obj_get_spread (k : string) (a b : list (string * Value)) :
  NoDup (map fst b) ->
  obj_get k (obj_spread a b)
  = if obj_has k b then obj_get k b else obj_get k a.
Proof.
  unfold obj_spread. revert a.
  induction b as [| [k0 v0] b IH]; intros a Hnd; [done |].
  simpl in Hnd. apply NoDup_cons in Hnd as [Hnin Hnd].
  cbn [fold_left fst snd obj_has obj_get]. rewrite (IH _ Hnd), obj_get_set.
  destruct (String.eqb_spec k k0) as [-> | Hne]; cbn [orb]; [| done].
  destruct (obj_has k0 b) eqn:Hhas; [| done].
  by apply obj_has_key in Hhas.
Qed.

Lemma new_effects_logged (level : nat) (levelName message : string)
    (meta : list (string * Value)) (w : World) :
  new_effects w (logged proc level levelName message meta w)
  = if (logger.currentLevel proc <? level)%nat then []
    else log_effects levelName message meta (clock proc (ticks w)).
Proof.
  unfold new_effects, logged. destruct (_ <? _)%nat; cbn [trace].
  - apply drop_all.
  - apply drop_app_length.
Qed.

Lemma appended_log_effects (file levelName message : string)
    (meta : list (string * Value)) (timestamp : Timestamp) :
  appended file (log_effects levelName message meta timestamp)
  = (if String.eqb "combined.log" file
     then [obj_spread (own_fields timestamp levelName message) meta] else [])
    ++ (if String.eqb levelName "ERROR" && String.eqb "error.log" file
        then [obj_spread (own_fields timestamp levelName message) meta] else []).
Proof.
  unfold appended, log_effects, own_fields.
  destruct (0 <? List.length meta)%nat, (String.eqb levelName "ERROR");
    cbn [app omap list_omap andb];
    destruct (String.eqb "combined.log" file), (String.eqb "error.log" file);
    reflexivity.
Qed.

Lemma written_log (file : string) (level : nat) (levelName message : string)
    (meta : list (string * Value)) (w : World) :
  written file (logger._log proc level levelName message meta) w
  = if (logger.currentLevel proc <? level)%nat then []
    else appended file (log_effects levelName message meta (clock proc (ticks w))).
Proof.
  unfold written. rewrite _log_run. cbn [snd]. rewrite new_effects_logged.
  by destruct (_ <? _)%nat.
Qed.

Lemma currentLevel_cases :
  logger.currentLevel proc
  = if decide (NODE_ENV_at_load proc = Some "production") then 2%nat else 3%nat.
Proof. reflexivity. Qed.

(** X26. An error is written to the combined log and to the error log, as the
    same entry; a warning and an information go to the combined log only;
    a debug message goes to the combined log only, and when the logger was
    loaded in production it goes nowhere: the call has no effect at all. *)
Theorem logger_files (message : string) (meta : list (string * Value))
    (w : World) :
  (exists entry,
      written "combined.log" (logger.error proc message meta) w = [entry]
      /\ written "error.log" (logger.error proc message meta) w = [entry])
  /\ (exists entry,
        written "combined.log" (logger.warn proc message meta) w = [entry]
        /\ written "error.log" (logger.warn proc message meta) w = [])
  /\ (exists entry,
        written "combined.log" (logger.info proc message meta) w = [entry]
        /\ written "error.log" (logger.info proc message meta) w = [])
  /\ (if decide (NODE_ENV_at_load proc = Some "production")
      then logger.debug proc message meta w = (Ok tt, w)
      else exists entry,
          written "combined.log" (logger.debug proc message meta) w = [entry]
          /\ written "error.log" (logger.debug proc message meta) w = []).
Proof.
  unfold logger.error, logger.warn, logger.info, logger.debug.
  rewrite !written_log, !appended_log_effects, currentLevel_cases.
  unfold logger.ERROR, logger.WARN, logger.INFO, logger.DEBUG.
  split; [| split; [| split]].
  - case_decide; cbn; eauto.
  - case_decide; cbn; eauto.
  - case_decide; cbn; eauto.
  - case_decide as Henv.
    + rewrite _log_run. unfold logged. rewrite currentLevel_cases.
      by rewrite decide_True by done.
    + cbn. eauto.
Qed.

(** X27. A property of [meta] replaces the property of the same name in the
    entry written to the log file: a [meta] with a message, a level or a
    timestamp of its own hides what the call was given; every other property
    of the entry is the one of [meta]. *)
Theorem log_entry_meta_overrides (level : nat) (levelName message : string)
    (meta : list (string * Value)) (w : World) (k : string) :
  (level <= logger.currentLevel proc)%nat ->
  NoDup (map fst meta) ->
  exists entry,
    written "combined.log" (logger._log proc level levelName message meta) w
    = [entry]
    /\ obj_get k entry
       = if obj_has k meta then obj_get k meta
         else obj_get k (own_fields (clock proc (ticks w)) levelName message).
Proof.
  intros Hlevel Hnd. rewrite written_log, appended_log_effects.
  apply Nat.ltb_ge in Hlevel. rewrite Hlevel. cbn [String.eqb Ascii.eqb Bool.eqb].
  eexists. split.
  - by rewrite andb_false_r, app_nil_r.
  - by apply obj_get_spread.
Qed.

End LogFiles.

Lemma log_entry_meta_overrides_witness :
  exists entry,
    written "combined.log"
      (logger._log (process_in (Some "production")) 0 "ERROR" "Request failed"
         [("message", runtime.VStr "boom"); ("url", runtime.VStr "/api/posts")])
      empty_world
    = [entry]
    /\ runtime.obj_get "message" entry
       = if runtime.obj_has "message"
              [("message", runtime.VStr "boom"); ("url", runtime.VStr "/api/posts")]
         then runtime.obj_get "message"
                [("message", runtime.VStr "boom"); ("url", runtime.VStr "/api/posts")]
         else runtime.obj_get "message"
                (own_fields
                   (runtime.clock (process_in (Some "production"))
                      (runtime.ticks empty_world))
                   "ERROR" "Request failed").
Proof.
  apply log_entry_meta_overrides.
  - vm_compute. lia.
  - apply (bool_decide_unpack _). by vm_compute.
Defined.

(** ** middleware/performanceMonitoring.js: the periodic report *)

Section Report.
Import runtime normalizer performanceMonitoring.

Variable proc : Process.

Lemma generateReport_run (t : Tracker) (w : World) :
  generateReport proc t w
  = logger._log proc logger.INFO "INFO" "Performance Report:"
      [("slowEndpoints", entries_value (getSlowEndpoints t));
       ("errorEndpoints", entries_value (getErrorEndpoints t));
       ("timestamp", VStr (clock proc (ticks w)))]
      {| heap := heap w; ticks := S (ticks w); trace := trace w |}.
Proof. reflexivity. Qed.

(** X28. The report is written in every environment, to the combined log only,
    as one entry that lists the reported slow and error endpoints; its
    timestamp is the time read when the report was put together, which hides
    the later time the logger reads for the entry. *)
Theorem generateReport_entry (t : Tracker) (w : World) :
  exists entry,
    written "combined.log" (generateReport proc t) w = [entry]
    /\ written "error.log" (generateReport proc t) w = []
    /\ obj_get "message" entry = VStr "Performance Report:"
    /\ obj_get "slowEndpoints" entry = entries_value (getSlowEndpoints t)
    /\ obj_get "errorEndpoints" entry = entries_value (getErrorEndpoints t)
    /\ obj_get "timestamp" entry = VStr (clock proc (ticks w)).
Proof.
  unfold written. rewrite generateReport_run, _log_run. cbn [snd].
  rewrite logged_enabled by (unfold logger.INFO; lia).
  unfold new_effects. cbn [trace ticks]. rewrite drop_app_length.
  rewrite !appended_log_effects. cbn. eauto 10.
Qed.

End Report.

(** ** middleware/errorHandler.js: the Authorization header *)

Section Token.
Import runtime.

Variable proc : Process.

(** X29. The handler lets nothing of the Authorization header out but whether
    there is one: two requests that differ only in the token they carry are
    logged and answered alike, whatever the error. *)
Theorem errorHandler_hides_token (err : nat) (req : errorHandler.Request)
    (token token' : option string) (w : World) :
  truthy_str token = truthy_str token' ->
  errorHandler.errorHandler proc err (with_authorization token req) w
  = errorHandler.errorHandler proc err (with_authorization token' req) w.
Proof.
  intros Hsame. unfold errorHandler.errorHandler, with_authorization.
  cbn [errorHandler.method errorHandler.url errorHandler.ip
       errorHandler.userAgent errorHandler.body errorHandler.params
       errorHandler.query errorHandler.authorization errorHandler.contentType
       errorHandler.requestId].
  by rewrite Hsame.
Qed.

End Token.

Lemma errorHandler_hides_token_witness :
  errorHandler.errorHandler (process_in (Some "production")) 0
    (with_authorization (Some "Bearer first") normalizer.sample_request)
    (normalizer.holding_error 0 (normalizer.plain_error None) empty_world)
  = errorHandler.errorHandler (process_in (Some "production")) 0
      (with_authorization (Some "Bearer second") normalizer.sample_request)
      (normalizer.holding_error 0 (normalizer.plain_error None) empty_world).
Proof. apply errorHandler_hides_token. reflexivity. Defined.
